(** * remote-dev: the control-plane protocol and the engines it drives

    A shallow embedding of the laptop server ([websocket.js], [gemini.js],
    [git.js], the [cancel] handler of [index.js]) and of the web client's
    connection hook ([useWebSocket.js]), with the properties the design
    document states about them. Two other revisions of the orchestrator
    that the repository holds are embedded as far as those properties go:
    the one that pipes the prompt through PowerShell, and the first one.
    The later sections cover what is left of these files (history,
    rollback and diff of [git.js], the availability probe of [gemini.js],
    [broadcast], the rest of the hook) with properties read off the code:
    error paths, invariants of reachable states, round trips, and how the
    server's frames and the hook's handlers fit together.

    Conventions.
    - JavaScript strings are sequences of UTF-16 code units ([list N]);
      [lit] turns a source literal into one.
    - JSON data is the inductive [JS.value].
    - Objects that the source mutates in place (a client record, a history
      array, the handler arrays of the client) live in finite maps keyed by
      a handle, and every access goes through the handle.
    - Asynchronous code is cut at its suspension points: the synchronous
      part of a function is one transition, and each callback the runtime
      may fire later (a data chunk, a process exit, a timer, a frame) is an
      event with a transition of its own. *)

From Stdlib Require Import Ascii String.
From stdpp Require Import gmap strings list fin_maps pretty.

Set Default Proof Using "Type".
Set Warnings "-register-all".

(* ===================================================================== *)
(** ** JavaScript data *)
(* ===================================================================== *)

Module JS.

(** A string literal of the source as code units. *)
Definition lit (s : string) : list N :=
  N_of_ascii <$> list_ascii_of_string s.

(** Values that [JSON.parse] produces, plus [undefined]. A number is kept
    as the text [Number::toString] gives it ([42], [1.5], [1e+21]): the
    program never computes with a number taken from a message, it only
    prints it, uses it as a property key and passes it on, and two numbers
    that [JSON.parse] can produce are [===] exactly when their texts are
    equal. *)
Inductive value :=
| Undefined
| Null
| Bool (b : bool)
| Num (text : list N)
| Str (s : list N)
| Arr (xs : list value)
| Obj (fields : list (list N * value)).

Fixpoint assoc (k : list N) (fields : list (list N * value)) : option value :=
  match fields with
  | [] => None
  | (k', v) :: rest => if decide (k' = k) then Some v else assoc k rest
  end.

(** [v.k]. Reading a property of [undefined] or [null] throws a
    [TypeError] ([None]); an object yields its own property or
    [undefined]. None of the names the program reads ([type], [payload],
    [secret], [originalType], [message]) exists on the prototypes of
    strings, numbers, booleans or arrays, so those yield [undefined]. *)
Definition get (v : value) (k : list N) : option value :=
  match v with
  | Undefined | Null => None
  | Obj fields => Some (default Undefined (assoc k fields))
  | _ => Some Undefined
  end.

(** [v?.k] *)
Definition get_opt (v : value) (k : list N) : value :=
  default Undefined (get v k).

(** [v === s] for a string [s] *)
Definition is_str (v : value) (s : list N) : bool :=
  match v with
  | Str t => bool_decide (t = s)
  | _ => false
  end.

(** ECMAScript [WhiteSpace] and [LineTerminator] code points, the ones
    [String.prototype.trim] strips. *)
Definition is_space (c : N) : bool :=
  (bool_decide (9 <= c <= 13)%N
   || bool_decide (c = 32)%N
   || bool_decide (c = 160)%N
   || bool_decide (c = 5760)%N
   || bool_decide (8192 <= c <= 8202)%N
   || bool_decide (c = 8232)%N || bool_decide (c = 8233)%N
   || bool_decide (c = 8239)%N || bool_decide (c = 8287)%N
   || bool_decide (c = 12288)%N || bool_decide (c = 65279)%N).

Fixpoint trim_start (s : list N) : list N :=
  match s with
  | c :: rest => if is_space c then trim_start rest else s
  | [] => []
  end.

(** [s.trim()] *)
Definition trim (s : list N) : list N :=
  reverse (trim_start (reverse (trim_start s))).

Fixpoint starts_with (p s : list N) : bool :=
  match p, s with
  | [], _ => true
  | a :: p', b :: s' => bool_decide (a = b) && starts_with p' s'
  | _ :: _, [] => false
  end.

(** [s.includes(p)] *)
Fixpoint includes (s p : list N) : bool :=
  starts_with p s ||
  match s with
  | [] => false
  | _ :: s' => includes s' p
  end.

(** [ToString], as a template literal and a property access [o[v]] apply
    it (on these values [ToPropertyKey] is [ToString]). [None] is a thrown
    [TypeError]: a parsed object with an own property [toString] has no
    callable [toString], and the [valueOf] it inherits returns the object
    itself. Any other parsed object prints as [[object Object]]. An array
    joins the strings of its elements with commas, [null] and [undefined]
    elements printing empty, and throws when one of them does. *)
Fixpoint to_string (v : value) : option (list N) :=
  match v with
  | Undefined => Some (lit "undefined")
  | Null => Some (lit "null")
  | Bool true => Some (lit "true")
  | Bool false => Some (lit "false")
  | Num text => Some text
  | Str s => Some s
  | Arr xs =>
      (fix join (first : bool) (l : list value) : option (list N) :=
         match l with
         | [] => Some []
         | x :: l' =>
             match match x with
                   | Undefined | Null => Some []
                   | _ => to_string x
                   end, join false l' with
             | Some s, Some rest => Some ((if first then [] else lit ",") ++ s ++ rest)
             | _, _ => None
             end
         end) true xs
  | Obj fields =>
      match assoc (lit "toString") fields with
      | Some _ => None
      | None => Some (lit "[object Object]")
      end
  end.

(** The string a template literal puts in for [v], at the places the
    program reaches only after it has converted the same [v] once. *)
Definition template (v : value) : list N := default [] (to_string v).

(** The [readyState] of a WebSocket, on either side *)
Inductive ready_state := CONNECTING | OPEN | CLOSING | CLOSED.

#[export] Instance ready_state_eq_dec : EqDecision ready_state.
Proof. solve_decision. Defined.

End JS.

(* ===================================================================== *)
(** ** The agent connection server ([websocket.js]) *)
(* ===================================================================== *)

Module Server.
Import JS.

(** A socket of the [ws] library: its ready state and the frames handed
    to [ws.send] so far, oldest first. [JSON.stringify] is left implicit:
    the outbox holds the data that was serialised. *)
Record socket := Socket { readyState : ready_state; outbox : list value }.

(** The per-connection record built in the [connection] callback. Its
    [id] is the key it is stored under. *)
Record client := Client { ws : nat; authenticated : bool }.

(** What an awaited handler ends with. *)
Inductive settled := Returned (result : value) | Raised (message : list N).

Section WebSocketHandler.
(** The constructor's arguments. [handlers k] is what [this.handlers[k]]
    answers when it is truthy. [index.js] exits at start-up unless the
    shared secret is a non-empty string. *)
Context {handler : Type}.
Variable sharedSecret : list N.
Variable handlers : list N -> option handler.

(** - [sockets]: the socket objects, by handle;
    - [objects]: the client records, by client id (a record outlives
      its entry in [this.clients]: the message callback holds it);
    - [clients]: the keys of [this.clients];
    - [calls]: the handler invocations so far, oldest first, each with
      the id of the connection whose message caused it. *)
Record state := State {
  sockets : gmap nat socket;
  objects : gmap nat client;
  clients : gset nat;
  calls : list (nat * handler * value)
}.

Definition init : state := State ∅ ∅ ∅ [].

(** [send(ws, data)] *)
Definition send (st : state) (w : nat) (data : value) : state :=
  match sockets st !! w with
  | Some s =>
      if decide (readyState s = OPEN)
      then State (<[w := Socket OPEN (outbox s ++ [data])]> (sockets st))
                 (objects st) (clients st) (calls st)
      else st
  | None => st
  end.

Definition msg_auth_success : value := Obj [(lit "type", Str (lit "auth_success"))].
Definition msg_auth_failed : value :=
  Obj [(lit "type", Str (lit "auth_failed")); (lit "message", Str (lit "Invalid secret"))].
Definition msg_not_authenticated : value :=
  Obj [(lit "type", Str (lit "error")); (lit "message", Str (lit "Not authenticated"))].
Definition msg_unknown (type : value) : value :=
  Obj [(lit "type", Str (lit "error"));
       (lit "message", Str (lit "Unknown message type: " ++ template type))].
Definition msg_invalid (err : list N) : value :=
  Obj [(lit "type", Str (lit "error"));
       (lit "message", Str (lit "Invalid message format"));
       (lit "error", Str err)].
Definition msg_welcome : value :=
  Obj [(lit "type", Str (lit "welcome"));
       (lit "message", Str (lit "Connected to Remote Dev Server. Please authenticate."))].
Definition msg_progress (progress : value) : value :=
  Obj [(lit "type", Str (lit "progress")); (lit "payload", progress)].
Definition msg_result (type result : value) : value :=
  Obj [(lit "type", Str (template type ++ lit "_result")); (lit "payload", result)].
Definition msg_handler_error (type : value) (message : list N) : value :=
  Obj [(lit "type", Str (lit "error"));
       (lit "message", Str (lit "Handler error: " ++ message));
       (lit "originalType", type)].

(** [client.authenticated = true] *)
Definition set_authenticated (st : state) (cid : nat) (c : client) : state :=
  State (sockets st) (<[cid := Client (ws c) true]> (objects st))
        (clients st) (calls st).

(** The call [handler(payload, emit)]: recorded; what the handler does
    afterwards arrives through [handler_progress] and
    [handler_settled]. *)
Definition invoke (st : state) (cid : nat) (h : handler) (payload : value) : state :=
  State (sockets st) (objects st) (clients st) (calls st ++ [(cid, h, payload)]).

(** [handleMessage(client, message)] up to the [await], for the client
    [c] stored under [cid]. [inr e] is a thrown [TypeError]: destructuring
    [null] or [undefined], or a [type] that [this.handlers[type]] cannot
    turn into a property key. *)
Definition handleMessage (st : state) (cid : nat) (c : client) (message : value)
  : state + list N :=
  match get message (lit "type"), get message (lit "payload") with
  | Some type, Some payload =>
      if is_str type (lit "auth") then
        if is_str (get_opt payload (lit "secret")) sharedSecret
        then inl (send (set_authenticated st cid c) (ws c) msg_auth_success)
        else inl (send st (ws c) msg_auth_failed)
      else if negb (authenticated c) then
        inl (send st (ws c) msg_not_authenticated)
      else
        match to_string type with
        | Some key =>
            match handlers key with
            | Some h => inl (invoke st cid h payload)
            | None => inl (send st (ws c) (msg_unknown type))
            end
        | None => inr (lit "Cannot convert object to primitive value")
        end
  | _, _ => inr (lit "Cannot destructure")
  end.

(** The [emit] closure passed to a handler. *)
Definition handler_progress (st : state) (w : nat) (progress : value) : state :=
  send st w (msg_progress progress).

(** The rest of [handleMessage] once the awaited handler has settled. The
    template literal of the result frame is inside the [try]: were it to
    throw, the [catch] would answer as for a handler that threw. *)
Definition handler_settled (st : state) (w : nat) (type : value) (r : settled) : state :=
  match r with
  | Returned result =>
      match to_string type with
      | Some _ => send st w (msg_result type result)
      | None =>
          send st w (msg_handler_error type
                       (lit "Cannot convert object to primitive value"))
      end
  | Raised message => send st w (msg_handler_error type message)
  end.

(** The [message] callback of a connection. [data] is [None] when
    [JSON.parse] throws. *)
Definition on_message (st : state) (cid : nat) (data : option value) : state :=
  match objects st !! cid with
  | None => st
  | Some c =>
      match data with
      | None => send st (ws c) (msg_invalid (lit "Unexpected token"))
      | Some message =>
          match handleMessage st cid c message with
          | inl st' => st'
          | inr err => send st (ws c) (msg_invalid err)
          end
      end
  end.

(** The [connection] callback: a fresh client id, an unauthenticated
    record, the welcome message. [w] is the handle of the new socket,
    which the library delivers open. *)
Definition on_connection (st : state) : state :=
  let w := fresh (dom (sockets st)) in
  let cid := fresh (dom (objects st)) in
  send (State (<[w := Socket OPEN []]> (sockets st))
              (<[cid := Client w false]> (objects st))
              ({[cid]} ∪ clients st) (calls st))
       w msg_welcome.

(** The [close] callback. *)
Definition on_close (st : state) (cid : nat) : state :=
  State (sockets st) (objects st) (clients st ∖ {[cid]}) (calls st).

(** [broadcast(data)] *)
Definition broadcast (st : state) (data : value) : state :=
  foldl (fun acc cid =>
           match objects acc !! cid with
           | Some c => if authenticated c then send acc (ws c) data else acc
           | None => acc
           end)
        st (elements (clients st)).

(** The ready state of a socket changes under the server: the peer
    closes, the network drops. *)
Definition socket_state (st : state) (w : nat) (rs : ready_state) : state :=
  match sockets st !! w with
  | Some s => State (<[w := Socket rs (outbox s)]> (sockets st))
                    (objects st) (clients st) (calls st)
  | None => st
  end.

(** Everything that can happen to the server. *)
Inductive event :=
| Connection
| Message (cid : nat) (data : option value)
| Close (cid : nat)
| Progress (w : nat) (progress : value)
| Settled (w : nat) (type : value) (r : settled)
| Broadcast (data : value)
| SocketState (w : nat) (rs : ready_state).

Definition step (st : state) (e : event) : state :=
  match e with
  | Connection => on_connection st
  | Message cid data => on_message st cid data
  | Close cid => on_close st cid
  | Progress w p => handler_progress st w p
  | Settled w type r => handler_settled st w type r
  | Broadcast data => broadcast st data
  | SocketState w rs => socket_state st w rs
  end.

Definition run (st : state) (tr : list event) : state := foldl step st tr.

(** The frames a socket has been sent. *)
Definition sent (st : state) (w : nat) : list value :=
  from_option outbox [] (sockets st !! w).

Definition is_open (st : state) (w : nat) : bool :=
  bool_decide (readyState <$> sockets st !! w = Some OPEN).

(** The message is an authentication request carrying the secret. *)
Definition good_auth (message : value) : bool :=
  match get message (lit "type"), get message (lit "payload") with
  | Some type, Some payload =>
      is_str type (lit "auth") && is_str (get_opt payload (lit "secret")) sharedSecret
  | _, _ => false
  end.

(** The message's kind is [auth]. *)
Definition is_auth (data : option value) : bool :=
  match data with
  | Some message => is_str (get_opt message (lit "type")) (lit "auth")
  | None => false
  end.

End WebSocketHandler.
(** A server with one handler, and a client that has just connected *)
Definition demo_handlers (k : list N) : option nat :=
  if decide (k = lit "cancel") then Some 0 else None.

Definition fresh_connection : @state nat :=
  on_connection init.

End Server.

(* ===================================================================== *)
(** ** The process orchestrator ([gemini.js]) *)
(* ===================================================================== *)

Module Gemini.
Import JS.

(** [role: 'user'] and [role: 'model'] *)
Inductive role := User | Model.

#[export] Instance role_eq_dec : EqDecision role.
Proof. solve_decision. Defined.

(** One entry of a history array *)
Record turn := Turn { turn_role : role; text : list N }.

#[export] Instance turn_eq_dec : EqDecision turn.
Proof. solve_decision. Defined.

(** The two pipes of the child, which are also the [type] tags that
    [onOutput] receives. *)
Inductive stream := stdout | stderr.

#[export] Instance stream_eq_dec : EqDecision stream.
Proof. solve_decision. Defined.

(** The object a run resolves with. [exitCode] is [None] for [null], the
    code of a child that a signal ended. *)
Record result := Result { success : bool; output : list N; exitCode : option Z }.

(** The promise [execute] returns *)
Inductive promise := Pending | Resolved (r : result) | Rejected (err : list N).

(** [resolve] and [reject] act on a pending promise only. *)
Definition settle (p new : promise) : promise :=
  match p with
  | Pending => new
  | _ => p
  end.

(** What one invocation of [execute] closes over: the target, the temp
    file, the output accumulated so far, its promise, and whether it got
    as far as [spawn]. *)
Record run := Run {
  cwd : list N;
  tempFilePath : list N;
  fullOutput : list N;
  settled : promise;
  spawned : bool
}.

(** What the runner does to the world and to its histories, in order. *)
Inductive effect :=
| Pushed (repoPath : list N) (t : turn)
| WriteFile (path content : list N)
| WriteFailed (path : list N)
| Spawn (k : nat) (dir : list N) (cmd : list N)
| Unlink (path : list N)
| Echo (s : stream) (chunk : list N)
| Output (k : nat) (s : stream) (chunk : list N)
| Kill (k : nat).

(** - [histories]: [this.histories]; an array, once stored under a target,
      is never replaced, so the array an invocation captured is the one
      found under its target;
    - [activeProcess]: [this.activeProcess], a single field;
    - [runs]: the invocations, by number; a spawned invocation's number
      also names its child process;
    - [trace]: the effects so far, oldest first. *)
Record state := State {
  histories : gmap (list N) (list turn);
  activeProcess : option nat;
  runs : gmap nat run;
  trace : list effect
}.

Definition init : state := State ∅ None ∅ [].

(** The history of a target, empty when none was created yet. *)
Definition history (st : state) (repoPath : list N) : list turn :=
  default [] (histories st !! repoPath).

Definition newline : list N := [10%N].

(** One line of the context preamble *)
Definition render (msg : turn) : list N :=
  (match turn_role msg with User => lit "User" | Model => lit "Assistant" end)
  ++ lit ": " ++ text msg ++ newline.

(** [fullPrompt] *)
Definition fullPrompt (h : list turn) (prompt : list N) : list N :=
  (match h with
   | [] => []
   | _ :: _ =>
       lit "PREVIOUS MESSAGES:" ++ newline ++ concat (render <$> h)
       ++ newline ++ lit "CURRENT REQUEST:" ++ newline
   end) ++ prompt.

Definition noise : list N := lit "Loaded cached credentials".

Section GeminiRunner.
(** [path.join], from Node's library *)
Variable path_join : list N -> list N -> list N.

Definition tempFileName (now : Z) : list N :=
  lit ".gemini_input_" ++ lit (pretty now) ++ lit ".txt".

Definition command (now : Z) : list N :=
  lit "gemini --yolo < " ++ [34%N] ++ tempFileName now ++ [34%N].

(** [execute(repoPath, prompt, onOutput)] up to the return of its promise.
    [now] is [Date.now()]; [write] is the error [fs.writeFileSync] threw,
    if it did. Returns the number of the invocation. *)
Definition execute (st : state) (repoPath prompt : list N) (now : Z)
    (write : option (list N)) : nat * state :=
  let k := fresh (dom (runs st)) in
  let h := history st repoPath in
  let full := fullPrompt h prompt in
  let user := Turn User prompt in
  let hs := <[repoPath := h ++ [user]]> (histories st) in
  let file := path_join repoPath (tempFileName now) in
  match write with
  | None =>
      (k, State hs (Some k)
                (<[k := Run repoPath file [] Pending true]> (runs st))
                (trace st ++ [Pushed repoPath user; WriteFile file full;
                              Spawn k repoPath (command now)]))
  | Some err =>
      (k, State hs (activeProcess st)
                (<[k := Run repoPath file [] (Rejected err) false]> (runs st))
                (trace st ++ [Pushed repoPath user; WriteFailed file]))
  end.

(** [proc.stdout.on('data', ...)] *)
Definition on_stdout (st : state) (k : nat) (chunk : list N) : state :=
  match runs st !! k with
  | Some r =>
      State (histories st) (activeProcess st)
            (<[k := Run (cwd r) (tempFilePath r) (fullOutput r ++ chunk)
                        (settled r) (spawned r)]> (runs st))
            (trace st ++ [Echo stdout chunk; Output k stdout chunk])
  | None => st
  end.

(** [proc.stderr.on('data', ...)] *)
Definition on_stderr (st : state) (k : nat) (chunk : list N) : state :=
  match runs st !! k with
  | Some r =>
      State (histories st) (activeProcess st) (runs st)
            (trace st ++ (if includes chunk noise then [] else [Echo stderr chunk])
                      ++ [Output k stderr chunk])
  | None => st
  end.

(** [code === 0 && fullOutput.trim()] *)
Definition answered (code : option Z) (out : list N) : bool :=
  bool_decide (code = Some 0%Z) && bool_decide (trim out <> []).

(** [proc.on('close', ...)] *)
Definition on_close (st : state) (k : nat) (code : option Z) : state :=
  match runs st !! k with
  | Some r =>
      let reply := Turn Model (trim (fullOutput r)) in
      let push := answered code (fullOutput r) in
      State (if push
             then <[cwd r := history st (cwd r) ++ [reply]]> (histories st)
             else histories st)
            None
            (<[k := Run (cwd r) (tempFilePath r) (fullOutput r)
                        (settle (settled r)
                           (Resolved (Result (bool_decide (code = Some 0%Z))
                                             (fullOutput r) code)))
                        (spawned r)]> (runs st))
            (trace st ++ [Unlink (tempFilePath r)]
                      ++ (if push then [Pushed (cwd r) reply] else []))
  | None => st
  end.

(** [proc.on('error', ...)] *)
Definition on_error (st : state) (k : nat) (err : list N) : state :=
  match runs st !! k with
  | Some r =>
      State (histories st) None
            (<[k := Run (cwd r) (tempFilePath r) (fullOutput r)
                        (settle (settled r) (Rejected err)) (spawned r)]> (runs st))
            (trace st ++ [Unlink (tempFilePath r)])
  | None => st
  end.

(** [startSession(repoPath, onOutput)] *)
Definition startSession (st : state) (repoPath : list N) : state :=
  match histories st !! repoPath with
  | Some _ => st
  | None => State (<[repoPath := []]> (histories st)) (activeProcess st)
                  (runs st) (trace st)
  end.

(** [cancel(repoPath)] *)
Definition cancel (st : state) (repoPath : list N) : bool * state :=
  match activeProcess st with
  | Some k => (true, State (histories st) None (runs st) (trace st ++ [Kill k]))
  | None => (false, st)
  end.

(** What the child of invocation [k] can do once spawned. *)
Inductive proc_event :=
| Data (s : stream) (chunk : list N)
| Close (code : option Z)
| Error (err : list N).

Definition on_event (st : state) (k : nat) (e : proc_event) : state :=
  match e with
  | Data stdout chunk => on_stdout st k chunk
  | Data stderr chunk => on_stderr st k chunk
  | Close code => on_close st k code
  | Error err => on_error st k err
  end.

(** The child's events in the order they arrive *)
Definition deliver (st : state) (k : nat) (evs : list proc_event) : state :=
  foldl (fun acc e => on_event acc k e) st evs.

Definition is_close (e : proc_event) : bool :=
  match e with Close _ => true | _ => false end.

Definition is_data (e : proc_event) : bool :=
  match e with Data _ _ => true | _ => false end.

(** The promise of invocation [k] *)
Definition promise_of (st : state) (k : nat) : promise :=
  from_option settled Pending (runs st !! k).

(** The stdout chunks of a list of events, concatenated *)
Definition stdout_of (evs : list proc_event) : list N :=
  concat (omap (fun e => match e with Data stdout c => Some c | _ => None end) evs).

(** The chunks of a list of events, each with its stream *)
Definition chunks_of (evs : list proc_event) : list (stream * list N) :=
  omap (fun e => match e with Data s c => Some (s, c) | _ => None end) evs.

(** What [onOutput] of invocation [k] has received *)
Definition forwarded (tr : list effect) (k : nat) : list (stream * list N) :=
  omap (fun e => match e with
                 | Output k' s c => if decide (k' = k) then Some (s, c) else None
                 | _ => None
                 end) tr.

(** What was echoed to the server's own console *)
Definition echoed (tr : list effect) : list (stream * list N) :=
  omap (fun e => match e with Echo s c => Some (s, c) | _ => None end) tr.

(** The chunks that reach the console: all of stdout, and of stderr those
    without the noise substring *)
Definition audible (sc : stream * list N) : bool :=
  match sc.1 with
  | stdout => true
  | stderr => negb (includes sc.2 noise)
  end.

(** The processes that were sent a signal *)
Definition killed (tr : list effect) : list nat :=
  omap (fun e => match e with Kill k => Some k | _ => None end) tr.

(** Everything that can happen to the runner *)
Inductive event :=
| Execute (repoPath prompt : list N) (now : Z) (write : option (list N))
| StartSession (repoPath : list N)
| Cancel (repoPath : list N)
| Child (k : nat) (e : proc_event).

Definition step (st : state) (ev : event) : state :=
  match ev with
  | Execute repoPath prompt now write => (execute st repoPath prompt now write).2
  | StartSession repoPath => startSession st repoPath
  | Cancel repoPath => (cancel st repoPath).2
  | Child k e => on_event st k e
  end.

(** The turns a transition is expected to add to the history of [p]: the
    user turn of an [execute] on [p], the assistant turn of a child of [p]
    that exits with code 0 and non-blank output. *)
Definition added (st : state) (ev : event) (p : list N) : list turn :=
  match ev with
  | Execute repoPath prompt _ _ =>
      if decide (repoPath = p) then [Turn User prompt] else []
  | Child k (Close code) =>
      match runs st !! k with
      | Some r =>
          if decide (cwd r = p) then
            if answered code (fullOutput r)
            then [Turn Model (trim (fullOutput r))] else []
          else []
      | None => []
      end
  | _ => []
  end.

End GeminiRunner.
(** [path.join] for two plain segments *)
Definition join (a b : list N) : list N := a ++ lit "/" ++ b.

End Gemini.

(* ===================================================================== *)
(** ** The repository state manager ([git.js]) *)
(* ===================================================================== *)

Module Git.
Import JS.

(** [status.files]: the paths [git status] reports *)
Record status_result := StatusResult { files : list (list N) }.

(** What [git.commit] answers *)
Record commit_result := CommitResult { commit : list N; summary : value }.

(** The calls [GitManager] makes into [fs] and [simple-git], indexed by
    what they answer. [Open dir] is [simpleGit(dir)], which throws when
    [dir] is not a directory; [simpleGit()] without a directory, as used
    for [clone], works from the directory of the process and is left
    implicit in [Clone]. *)
Inductive command : Type -> Type :=
| ExistsSync (path : list N) : command bool
| MkdirSync (path : list N) : command unit
| Open (dir : list N) : command unit
| AddConfig (dir key val : list N) : command unit
| Add (dir arg : list N) : command unit
| Status (dir : list N) : command status_result
| Commit (dir message : list N) : command commit_result
| Revparse (dir : list N) (args : list (list N)) : command (list N)
| Remote (dir : list N) (args : list (list N)) : command unit
| Push (dir remote branch : list N) : command unit
| Pull (dir remote branch : list N) : command unit
| Clone (url path : list N) : command unit.

(** A call, whatever it answers *)
Definition call_of : Type := { A : Type & command A }.

Definition ask {A} (c : command A) : call_of := existT A c.

Definition is_commit (c : call_of) : bool :=
  match projT2 c with Commit _ _ => true | _ => false end.
Definition is_push (c : call_of) : bool :=
  match projT2 c with Push _ _ _ => true | _ => false end.

(** The calls that can add commits to a local repository *)
Definition writes_history {A} (c : command A) : bool :=
  match c with
  | Commit _ _ | Pull _ _ _ | Clone _ _ => true
  | _ => false
  end.

(** The calls [commitAndPush] makes before it looks at the status *)
Definition staging (dir : list N) : list call_of :=
  [ask (Open dir);
   ask (AddConfig dir (lit "user.email") (lit "remote-dev@localhost"));
   ask (AddConfig dir (lit "user.name") (lit "Remote Dev System"));
   ask (Add dir (lit "-A"));
   ask (Status dir)].

(** The calls it makes after, when it commits to [branch] *)
Definition publishing (dir message url branch : list N) : list call_of :=
  [ask (Commit dir message);
   ask (Open dir);
   ask (Revparse dir [lit "--abbrev-ref"; lit "HEAD"]);
   ask (Remote dir [lit "set-url"; lit "origin"; url]);
   ask (Push dir (lit "origin") branch)].

Inductive action := cloned | pulled.

(** What [cloneOrPull] returns *)
Record clone_result := CloneResult { action_of : action; path_of : list N }.

(** What [commitAndPush] returns: [{committed: false, message}] or
    [{committed: true, hash, summary, branch}] *)
Inductive push_result :=
| NotCommitted (message : list N)
| Committed (hash : list N) (summary : value) (branch : list N).

Definition committed (r : push_result) : bool :=
  match r with NotCommitted _ => false | Committed _ _ _ => true end.

Section GitManager.
(** The file system and the repositories, and how they answer a call:
    a value, or a thrown error. *)
Context {world : Type}.
Variable exec : forall A, command A -> world -> (A + list N) * world.

(** [path.join] and [path.dirname], from Node's library *)
Variable path_join : list (list N) -> list N.
Variable path_dirname : list N -> list N.

(** [this.reposDir] *)
Variable reposDir : list N.

(** A computation: runs on a world and the calls made so far, and ends
    with a value or a thrown error. *)
Definition M (A : Type) : Type :=
  world * list call_of -> (A + list N) * (world * list call_of).

Definition ret {A} (a : A) : M A := fun s => (inl a, s).

Definition bind {A B} (m : M A) (f : A -> M B) : M B :=
  fun s => match m s with
           | (inl a, s') => f a s'
           | (inr e, s') => (inr e, s')
           end.

(** [try { m } catch { h }], also [m.catch(h)] *)
Definition catch {A} (m : M A) (h : list N -> M A) : M A :=
  fun s => match m s with
           | (inl a, s') => (inl a, s')
           | (inr e, s') => h e s'
           end.

Definition call {A} (c : command A) : M A :=
  fun s => let '(r, w) := exec A c s.1 in (r, (w, s.2 ++ [existT A c])).

Notation "x <- m ;; k" := (bind m (fun x => k))
  (at level 100, m at next level, right associativity).
Notation "m ;;; k" := (bind m (fun _ => k))
  (at level 100, right associativity).

(** [getRepoPath(owner, repo)] *)
Definition getRepoPath (owner repo : list N) : list N :=
  path_join [reposDir; owner; repo].

(** The remote URL with the token embedded *)
Definition remote_url (githubToken owner repo : list N) : list N :=
  lit "https://" ++ githubToken ++ lit "@github.com/" ++ owner ++ lit "/"
  ++ repo ++ lit ".git".

(** [cloneOrPull(owner, repo, githubToken)] *)
Definition cloneOrPull (owner repo githubToken : list N) : M clone_result :=
  let repoPath := getRepoPath owner repo in
  let repoUrl := remote_url githubToken owner repo in
  there <- call (ExistsSync repoPath) ;;
  if there : bool then
    (call (Open repoPath) ;;;
     catch (call (Pull repoPath (lit "origin") (lit "main")))
           (fun _ => call (Pull repoPath (lit "origin") (lit "master"))) ;;;
     ret (CloneResult pulled repoPath))
  else
    let ownerDir := path_dirname repoPath in
    (owner_there <- call (ExistsSync ownerDir) ;;
     (if owner_there : bool then ret tt else call (MkdirSync ownerDir)) ;;;
     call (Clone repoUrl repoPath) ;;;
     ret (CloneResult cloned repoPath)).

(** [getDefaultBranch(repoPath)] *)
Definition getDefaultBranch (repoPath : list N) : M (list N) :=
  call (Open repoPath) ;;;
  catch (result <- call (Revparse repoPath [lit "--abbrev-ref"; lit "HEAD"]) ;;
         ret (trim result))
        (fun _ => ret (lit "main")).

(** [commitAndPush(owner, repo, message, githubToken)] *)
Definition commitAndPush (owner repo message githubToken : list N) : M push_result :=
  let repoPath := getRepoPath owner repo in
  call (Open repoPath) ;;;
  call (AddConfig repoPath (lit "user.email") (lit "remote-dev@localhost")) ;;;
  call (AddConfig repoPath (lit "user.name") (lit "Remote Dev System")) ;;;
  call (Add repoPath (lit "-A")) ;;;
  status <- call (Status repoPath) ;;
  if bool_decide (length (files status) = 0) then
    ret (NotCommitted (lit "No changes to commit"))
  else
    (commitResult <- call (Commit repoPath message) ;;
     branch <- getDefaultBranch repoPath ;;
     let remoteUrl := remote_url githubToken owner repo in
     call (Remote repoPath [lit "set-url"; lit "origin"; remoteUrl]) ;;;
     call (Push repoPath (lit "origin") branch) ;;;
     ret (Committed (commit commitResult) (summary commitResult) branch)).

(** Running a computation from a world: the result, the world after, and
    the calls it made, in order. *)
Definition run {A} (m : M A) (w : world) : (A + list N) * world * list call_of :=
  let '(r, (w', log)) := m (w, []) in (r, w', log).

End GitManager.

(** A small file system with one kind of repository, to run the manager
    on: the paths that exist, the changed files not yet staged, the staged
    ones, the number of local commits and the number of pushes. Every call
    succeeds, except [Open] on a path that does not exist. *)
Record disk := Disk {
  present : list (list N);
  changed : list (list N);
  staged : list (list N);
  commits : nat;
  pushes : nat
}.

Definition disk_exec (A : Type) (c : command A) (d : disk) : (A + list N) * disk :=
  match c in command T return (T + list N) * disk with
  | ExistsSync p => (inl (bool_decide (p ∈ present d)), d)
  | MkdirSync p =>
      (inl tt, Disk (p :: present d) (changed d) (staged d) (commits d) (pushes d))
  | Open p =>
      if bool_decide (p ∈ present d) then (inl tt, d)
      else (inr (lit "Cannot use simple-git on a directory that does not exist"), d)
  | AddConfig _ _ _ => (inl tt, d)
  | Add _ _ =>
      (inl tt, Disk (present d) [] (staged d ++ changed d) (commits d) (pushes d))
  | Status _ => (inl (StatusResult (staged d ++ changed d)), d)
  | Commit _ _ =>
      (inl (CommitResult (lit "abc1234") Null),
       Disk (present d) (changed d) [] (S (commits d)) (pushes d))
  | Revparse _ _ => (inl (lit "main" ++ [10%N]), d)
  | Remote _ _ => (inl tt, d)
  | Push _ _ _ =>
      (inl tt, Disk (present d) (changed d) (staged d) (commits d) (S (pushes d)))
  | Pull _ _ _ => (inl tt, d)
  | Clone _ p =>
      (inl tt, Disk (p :: present d) (changed d) (staged d) (commits d) (pushes d))
  end.

(** [path.join] and [path.dirname] for plain segments *)
Definition join_slash (parts : list (list N)) : list N :=
  match parts with
  | [] => lit "."
  | p :: rest => foldl (fun acc q => acc ++ lit "/" ++ q) p rest
  end.

Fixpoint after_slash (s : list N) : list N :=
  match s with
  | [] => []
  | c :: rest => if bool_decide (c = 47%N) then rest else after_slash rest
  end.

Definition dirname_slash (p : list N) : list N :=
  reverse (after_slash (reverse p)).

(** The manager on the small file system, repositories under [/repos] *)
Definition root : list N := lit "/repos".
Definition alice_app : list N := lit "/repos/alice/app".

End Git.

(* ===================================================================== *)
(** ** The client connection manager ([useWebSocket.js]) *)
(* ===================================================================== *)

Module Client.
Import JS.

(** A [WebSocket] the hook created: its ready state, its URL and the
    frames handed to its [send], oldest first. *)
Record socket := Socket { readyState : ready_state; url : list N; frames : list value }.

(** The functions that get registered as message handlers. Each
    registration is a closure of its own, named by a handle; the handler
    arrays hold handles, and [indexOf] compares handles.
    - [OnResult r]: the result handler that request [r] registers;
    - [OnError r type]: its error handler;
    - [Subscriber tag]: a handler of the application, which does not call
      back into the hook. *)
Inductive closure :=
| OnResult (r : nat)
| OnError (r : nat) (type : list N)
| Subscriber (tag : nat).

(** The promise of a request *)
Inductive promise := Pending | Resolved (result : value) | Rejected (err : list N).

Definition settle (p new : promise) : promise :=
  match p with
  | Pending => new
  | _ => p
  end.

(** One call of [request]: its kind, its promise, whether its timeout is
    still armed, and the handles of its two handlers. *)
Record request_record := Request {
  req_type : list N;
  settled : promise;
  armed : bool;
  on_result : nat;
  on_error : nat
}.

(** - [wsRef], [messageHandlers], [reconnectTimeout], [serverUrl],
      [secret]: the refs of the hook ([messageHandlers] maps a kind to its
      handler array; an array, once stored, is never replaced);
    - [isConnected], [isAuthenticated], [lastMessage], [error]: its React
      state;
    - [sockets]: the [WebSocket] objects created so far, by handle;
    - [closures]: the handler closures, by handle;
    - [requests]: the calls of [request], by number;
    - [delivered]: what the application's handlers were called with,
      oldest first. *)
Record state := State {
  wsRef : option nat;
  messageHandlers : gmap (list N) (list nat);
  reconnectTimeout : bool;
  serverUrl : list N;
  secret : list N;
  isConnected : bool;
  isAuthenticated : bool;
  lastMessage : value;
  error : option (list N);
  sockets : gmap nat socket;
  closures : gmap nat closure;
  requests : gmap nat request_record;
  delivered : list (nat * value)
}.

Definition init (serverUrl secret : list N) : state :=
  State None ∅ false serverUrl secret false false Null None ∅ ∅ ∅ [].

Definition with_wsRef (st : state) (w : option nat) : state :=
  State w (messageHandlers st) (reconnectTimeout st) (serverUrl st) (secret st)
        (isConnected st) (isAuthenticated st) (lastMessage st) (error st)
        (sockets st) (closures st) (requests st) (delivered st).

Definition with_handlers (st : state) (m : gmap (list N) (list nat)) : state :=
  State (wsRef st) m (reconnectTimeout st) (serverUrl st) (secret st)
        (isConnected st) (isAuthenticated st) (lastMessage st) (error st)
        (sockets st) (closures st) (requests st) (delivered st).

Definition with_reconnect (st : state) (b : bool) : state :=
  State (wsRef st) (messageHandlers st) b (serverUrl st) (secret st)
        (isConnected st) (isAuthenticated st) (lastMessage st) (error st)
        (sockets st) (closures st) (requests st) (delivered st).

Definition with_status (st : state) (connected authenticated : bool)
    (last : value) (err : option (list N)) : state :=
  State (wsRef st) (messageHandlers st) (reconnectTimeout st) (serverUrl st)
        (secret st) connected authenticated last err
        (sockets st) (closures st) (requests st) (delivered st).

Definition with_sockets (st : state) (m : gmap nat socket) : state :=
  State (wsRef st) (messageHandlers st) (reconnectTimeout st) (serverUrl st)
        (secret st) (isConnected st) (isAuthenticated st) (lastMessage st)
        (error st) m (closures st) (requests st) (delivered st).

Definition with_closures (st : state) (m : gmap nat closure) : state :=
  State (wsRef st) (messageHandlers st) (reconnectTimeout st) (serverUrl st)
        (secret st) (isConnected st) (isAuthenticated st) (lastMessage st)
        (error st) (sockets st) m (requests st) (delivered st).

Definition with_requests (st : state) (m : gmap nat request_record) : state :=
  State (wsRef st) (messageHandlers st) (reconnectTimeout st) (serverUrl st)
        (secret st) (isConnected st) (isAuthenticated st) (lastMessage st)
        (error st) (sockets st) (closures st) m (delivered st).

Definition with_delivered (st : state) (l : list (nat * value)) : state :=
  State (wsRef st) (messageHandlers st) (reconnectTimeout st) (serverUrl st)
        (secret st) (isConnected st) (isAuthenticated st) (lastMessage st)
        (error st) (sockets st) (closures st) (requests st) l.

(** The ready state of the socket in [wsRef] *)
Definition current_state (st : state) : option ready_state :=
  w ← wsRef st; readyState <$> sockets st !! w.

(** A transport is live while it is opening or open. *)
Definition is_live (s : socket) : bool :=
  bool_decide (readyState s = OPEN) || bool_decide (readyState s = CONNECTING).

(** The live transports *)
Definition live (st : state) : gset nat :=
  dom (filter (fun kv => is_live kv.2 = true) (sockets st)).

(** [serverUrl.replace(/^http/, 'ws')] *)
Definition ws_url (u : list N) : list N :=
  if starts_with (lit "http") u then lit "ws" ++ drop 4 u else u.

(** [connect()]. [ctor] is the error [new WebSocket(url)] threw, if it
    did. *)
Definition connect (st : state) (ctor : option (list N)) : state :=
  match current_state st with
  | Some OPEN | Some CONNECTING => st
  | _ =>
      match ctor with
      | Some e =>
          with_status st (isConnected st) (isAuthenticated st) (lastMessage st)
                      (Some (lit "Failed to connect: " ++ e))
      | None =>
          let w := fresh (dom (sockets st)) in
          with_wsRef
            (with_sockets st (<[w := Socket CONNECTING (ws_url (serverUrl st)) []]>
                                (sockets st)))
            (Some w)
      end
  end.

(** [disconnect()] *)
Definition disconnect (st : state) : state :=
  let st1 := with_reconnect st false in
  match wsRef st1 with
  | Some w =>
      with_wsRef
        (with_sockets st1
           (alter (fun s => match readyState s with
                            | CLOSED => s
                            | _ => Socket CLOSING (url s) (frames s)
                            end) w (sockets st1)))
        None
  | None => st1
  end.

(** [send(type, payload)] *)
Definition send (st : state) (type : list N) (payload : value) : bool * state :=
  match wsRef st with
  | Some w =>
      match sockets st !! w with
      | Some s =>
          if decide (readyState s = OPEN) then
            (true,
             with_sockets st
               (<[w := Socket OPEN (url s)
                         (frames s ++ [Obj [(lit "type", Str type);
                                            (lit "payload", payload)]])]>
                  (sockets st)))
          else (false, st)
      | None => (false, st)
      end
  | None => (false, st)
  end.

(** [onMessage(type, handler)], for the closure with handle [h] *)
Definition onMessage (st : state) (type : list N) (h : nat) : state :=
  with_handlers st
    (<[type := default [] (messageHandlers st !! type) ++ [h]]> (messageHandlers st)).

(** [handlers.indexOf(handler)] then [handlers.splice(index, 1)] *)
Fixpoint remove_first (h : nat) (l : list nat) : list nat :=
  match l with
  | [] => []
  | x :: rest => if decide (x = h) then rest else x :: remove_first h rest
  end.

(** The unsubscribe function that [onMessage(type, handler)] returned *)
Definition unsubscribe (st : state) (type : list N) (h : nat) : state :=
  with_handlers st (alter (remove_first h) type (messageHandlers st)).

Definition clearTimeout (st : state) (r : nat) : state :=
  with_requests st
    (alter (fun q => Request (req_type q) (settled q) false (on_result q) (on_error q))
           r (requests st)).

(** [resolve] or [reject] of request [r] *)
Definition settle_request (st : state) (r : nat) (p : promise) : state :=
  with_requests st
    (alter (fun q => Request (req_type q) (settle (settled q) p) (armed q)
                             (on_result q) (on_error q))
           r (requests st)).

Definition responseType (type : list N) : list N := type ++ lit "_result".

(** [request(type, payload)] up to the return of its promise. Returns the
    number of the request. *)
Definition request (st : state) (type : list N) (payload : value) : nat * state :=
  let r := fresh (dom (requests st)) in
  let h1 := fresh (dom (closures st)) in
  let st1 := with_closures st (<[h1 := OnResult r]> (closures st)) in
  let h2 := fresh (dom (closures st1)) in
  let st2 := with_closures st1 (<[h2 := OnError r type]> (closures st1)) in
  let st3 := with_requests st2 (<[r := Request type Pending true h1 h2]> (requests st2)) in
  let st4 := onMessage st3 (responseType type) h1 in
  let st5 := onMessage st4 (lit "error") h2 in
  match send st5 type payload with
  | (true, st6) => (r, st6)
  | (false, st6) =>
      (r, settle_request
            (unsubscribe (unsubscribe (clearTimeout st6 r) (responseType type) h1)
                         (lit "error") h2)
            r (Rejected (lit "Not connected")))
  end.

(** The request's timer fires, unless it was cleared; a timer fires
    once. *)
Definition on_timeout (st : state) (r : nat) : state :=
  match requests st !! r with
  | Some q =>
      if armed q
      then settle_request (clearTimeout st r) r (Rejected (lit "Request timeout"))
      else st
  | None => st
  end.

(** [new Error(v).message]; [None] when converting [v] throws *)
Definition error_message (v : value) : option (list N) :=
  match v with
  | Undefined => Some []
  | _ => to_string v
  end.

(** Calling the closure with handle [h] on [arg]. The second component is
    the error it threw, if it did. *)
Definition invoke (st : state) (h : nat) (arg : value) : state * option (list N) :=
  match closures st !! h with
  | Some (OnResult r) =>
      match requests st !! r with
      | Some q =>
          (settle_request
             (unsubscribe (clearTimeout st r) (responseType (req_type q)) h)
             r (Resolved arg), None)
      | None => (st, None)
      end
  | Some (OnError r type) =>
      match get arg (lit "originalType"), requests st !! r with
      | None, _ => (st, Some (lit "Cannot read properties of undefined"))
      | Some original, Some q =>
          if is_str original type then
            let st' :=
              unsubscribe
                (unsubscribe (clearTimeout st r) (responseType type) (on_result q))
                (lit "error") h in
            match error_message (get_opt arg (lit "message")) with
            | Some message => (settle_request st' r (Rejected message), None)
            | None => (st', Some (lit "Cannot convert object to primitive value"))
            end
          else (st, None)
      | Some _, None => (st, None)
      end
  | Some (Subscriber tag) => (with_delivered st (delivered st ++ [(tag, arg)]), None)
  | None => (st, None)
  end.

(** [handlers.forEach(handler => handler(arg))] on the array stored under
    [type]: [n] indices are still to be visited, starting at [i]; each
    visit reads the array as it is by then, so a handler that removes
    itself shifts the ones after it. A throw ends the loop. *)
Fixpoint forEach (n i : nat) (type : list N) (arg : value) (st : state)
  : state * option (list N) :=
  match n with
  | 0 => (st, None)
  | S n' =>
      match default [] (messageHandlers st !! type) !! i with
      | Some h =>
          match invoke st h arg with
          | (st', None) => forEach n' (S i) type arg st'
          | (st', Some e) => (st', Some e)
          end
      | None => forEach n' (S i) type arg st
      end
  end.

(** The handlers registered under a message's [type]; none unless the
    type is a string. *)
Definition handlers_for (st : state) (type : value) : list N * nat :=
  match type with
  | Str t => (t, length (default [] (messageHandlers st !! t)))
  | _ => ([], 0)
  end.

(** [ws.onmessage]. [data] is [None] when [JSON.parse] throws. Whatever
    is thrown inside is caught and logged. *)
Definition on_message (st : state) (data : option value) : state :=
  match data with
  | None => st
  | Some message =>
      let st1 := with_status st (isConnected st) (isAuthenticated st) message (error st) in
      match get message (lit "type"), get message (lit "payload") with
      | Some type, Some payload =>
          let st2 :=
            if is_str type (lit "auth_success") then
              with_status st1 (isConnected st1) true message (error st1)
            else if is_str type (lit "auth_failed") then
              with_status st1 (isConnected st1) false message
                (Some (lit "Authentication failed. Check your shared secret."))
            else st1 in
          let '(t, n) := handlers_for st2 type in
          match forEach n 0 t payload st2 with
          | (st3, Some _) => st3
          | (st3, None) =>
              (forEach (length (default [] (messageHandlers st3 !! lit "*"))) 0
                       (lit "*") message st3).1
          end
      | _, _ => st1
      end
  end.

(** [ws.onopen] of socket [w] *)
Definition on_open (st : state) (w : nat) : state :=
  match sockets st !! w with
  | Some s =>
      let auth := Obj [(lit "type", Str (lit "auth"));
                       (lit "payload", Obj [(lit "secret", Str (secret st))])] in
      with_status
        (with_sockets st (<[w := Socket OPEN (url s) (frames s ++ [auth])]> (sockets st)))
        true (isAuthenticated st) (lastMessage st) None
  | None => st
  end.

(** [ws.onclose] of socket [w], with the close code *)
Definition on_close (st : state) (w : nat) (code : Z) : state :=
  let st1 :=
    with_wsRef
      (with_status
         (with_sockets st (alter (fun s => Socket CLOSED (url s) (frames s)) w (sockets st)))
         false false (lastMessage st) (error st))
      None in
  if decide (code = 1000%Z) then st1 else with_reconnect st1 true.

(** A connected client: the hook of a page, its transport open. *)
Definition connected : state :=
  on_open (connect (init (lit "https://laptop.example") (lit "s3cret")) None) 0.

End Client.

(* ===================================================================== *)
(** ** The PowerShell revision of the orchestrator *)
(* ===================================================================== *)

(** The revision of [GeminiRunner] that pipes the prompt file through
    PowerShell. It shares the state, the histories, the exit and error
    callbacks and [cancel] with [Gemini]; the command it spawns and its
    two data callbacks are its own. *)
Module GeminiPowerShell.
Import JS Gemini.

Section GeminiRunner.
Variable path_join : list N -> list N -> list N.

(** [psCommand] *)
Definition psCommand (now : Z) : list N :=
  lit "Get-Content " ++ [34%N] ++ tempFileName now ++ [34%N] ++ lit " | gemini --yolo".

(** [execute] up to the return of its promise *)
Definition execute (st : state) (repoPath prompt : list N) (now : Z)
    (write : option (list N)) : nat * state :=
  let k := fresh (dom (runs st)) in
  let h := history st repoPath in
  let full := fullPrompt h prompt in
  let user := Turn User prompt in
  let hs := <[repoPath := h ++ [user]]> (histories st) in
  let file := path_join repoPath (tempFileName now) in
  match write with
  | None =>
      (k, State hs (Some k)
                (<[k := Run repoPath file [] Pending true]> (runs st))
                (trace st ++ [Pushed repoPath user; WriteFile file full;
                              Spawn k repoPath (psCommand now)]))
  | Some err =>
      (k, State hs (activeProcess st)
                (<[k := Run repoPath file [] (Rejected err) false]> (runs st))
                (trace st ++ [Pushed repoPath user; WriteFailed file]))
  end.

(** [proc.stdout.on('data', ...)]: the chunk is accumulated, then the
    callback returns early on noise. *)
Definition on_stdout (st : state) (k : nat) (chunk : list N) : state :=
  match runs st !! k with
  | Some r =>
      let rs := <[k := Run (cwd r) (tempFilePath r) (fullOutput r ++ chunk)
                           (settled r) (spawned r)]> (runs st) in
      if includes chunk (lit "YOLO mode is enabled")
         || includes chunk (lit "Loaded cached credentials")
      then State (histories st) (activeProcess st) rs (trace st)
      else State (histories st) (activeProcess st) rs
                 (trace st ++ [Echo stdout chunk; Output k stdout chunk])
  | None => st
  end.

(** [proc.stderr.on('data', ...)] *)
Definition on_stderr (st : state) (k : nat) (chunk : list N) : state :=
  match runs st !! k with
  | Some r =>
      if negb (includes chunk (lit "Loaded cached credentials"))
         && negb (includes chunk (lit "YOLO mode is enabled"))
         && negb (includes chunk (lit "Passing args to a child process"))
      then State (histories st) (activeProcess st) (runs st)
                 (trace st ++ [Echo stderr chunk; Output k stderr chunk])
      else st
  | None => st
  end.

Definition on_event (st : state) (k : nat) (e : proc_event) : state :=
  match e with
  | Data stdout chunk => on_stdout st k chunk
  | Data stderr chunk => on_stderr st k chunk
  | Close code => Gemini.on_close st k code
  | Error err => Gemini.on_error st k err
  end.

Definition deliver (st : state) (k : nat) (evs : list proc_event) : state :=
  foldl (fun acc e => on_event acc k e) st evs.

End GeminiRunner.
End GeminiPowerShell.

(* ===================================================================== *)
(** ** The first revision of the orchestrator *)
(* ===================================================================== *)

(** The revision of [GeminiRunner] that passes the prompt as an argument
    and keeps no history. It collects stderr apart and reports it in the
    [error] field of a failed result. *)
Module GeminiLegacy.
Import JS.
Import Gemini (stream, stdout, stderr, proc_event, Data, Close, Error).

(** The object a run resolves with; [error] is present on failure only. *)
Record result := Result {
  success : bool;
  output : list N;
  error : option (list N);
  exitCode : option Z
}.

Inductive promise := Pending | Resolved (r : result) | Rejected (err : list N).

Definition settle (p new : promise) : promise :=
  match p with
  | Pending => new
  | _ => p
  end.

(** What one invocation closes over *)
Record run := Run { fullOutput : list N; errorOutput : list N; settled : promise }.

(** [this.activeProcess], the invocations, and what their [onOutput]
    callbacks received, oldest first *)
Record state := State {
  activeProcess : option nat;
  runs : gmap nat run;
  outputs : list (nat * stream * list N)
}.

(** [execute(repoPath, prompt, onOutput)] up to the return of its promise *)
Definition execute (st : state) : nat * state :=
  let k := fresh (dom (runs st)) in
  (k, State (Some k) (<[k := Run [] [] Pending]> (runs st)) (outputs st)).

Definition on_stdout (st : state) (k : nat) (chunk : list N) : state :=
  match runs st !! k with
  | Some r =>
      State (activeProcess st)
            (<[k := Run (fullOutput r ++ chunk) (errorOutput r) (settled r)]> (runs st))
            (outputs st ++ [(k, stdout, chunk)])
  | None => st
  end.

Definition on_stderr (st : state) (k : nat) (chunk : list N) : state :=
  match runs st !! k with
  | Some r =>
      State (activeProcess st)
            (<[k := Run (fullOutput r) (errorOutput r ++ chunk) (settled r)]> (runs st))
            (outputs st ++ [(k, stderr, chunk)])
  | None => st
  end.

(** [this.activeProcess.on('close', ...)] *)
Definition on_close (st : state) (k : nat) (code : option Z) : state :=
  match runs st !! k with
  | Some r =>
      let res :=
        if bool_decide (code = Some 0%Z)
        then Result true (fullOutput r) None code
        else Result false (fullOutput r) (Some (errorOutput r)) code in
      State None
            (<[k := Run (fullOutput r) (errorOutput r)
                        (settle (settled r) (Resolved res))]> (runs st))
            (outputs st)
  | None => st
  end.

(** [this.activeProcess.on('error', ...)] *)
Definition on_error (st : state) (k : nat) (err : list N) : state :=
  match runs st !! k with
  | Some r =>
      State None
            (<[k := Run (fullOutput r) (errorOutput r)
                        (settle (settled r)
                           (Rejected (lit "Failed to start Gemini CLI: " ++ err)))]>
               (runs st))
            (outputs st)
  | None => st
  end.

Definition on_event (st : state) (k : nat) (e : proc_event) : state :=
  match e with
  | Data stdout chunk => on_stdout st k chunk
  | Data stderr chunk => on_stderr st k chunk
  | Close code => on_close st k code
  | Error err => on_error st k err
  end.

Definition deliver (st : state) (k : nat) (evs : list proc_event) : state :=
  foldl (fun acc e => on_event acc k e) st evs.

Definition promise_of (st : state) (k : nat) : promise :=
  from_option settled Pending (runs st !! k).

(** The stderr chunks of a list of events, concatenated *)
Definition stderr_of (evs : list proc_event) : list N :=
  concat (omap (fun e => match e with Data stderr c => Some c | _ => None end) evs).

End GeminiLegacy.

(* ===================================================================== *)
(** ** The [cancel] entry of [wsHandlers] ([index.js]) *)
(* ===================================================================== *)

Module Index.
Import JS.

Section Handlers.
Variable path_join : list (list N) -> list N.
Variable reposDir : list N.

(** [cancel: async ({ owner, repo }) => ...]. [inr] is a thrown
    [TypeError]: a payload that cannot be destructured, or a path segment
    that is not a string. *)
Definition cancel (st : Gemini.state) (payload : value)
  : (value + list N) * Gemini.state :=
  match get payload (lit "owner"), get payload (lit "repo") with
  | Some (Str owner), Some (Str repo) =>
      let repoPath := Git.getRepoPath path_join reposDir owner repo in
      let '(cancelled, st') := Gemini.cancel st repoPath in
      (inl (Obj [(lit "cancelled", Bool cancelled)]), st')
  | _, _ => (inr (lit "TypeError"), st)
  end.

End Handlers.
End Index.

(* ===================================================================== *)
(** ** History, rollback and diff ([git.js]) *)
(* ===================================================================== *)

(** The rest of [GitManager]: the calls of [Git] plus the four that only
    these methods make. *)
Module GitHistory.
Import JS.

(** An entry of [log.all] *)
Record log_entry := LogEntry {
  hash : list N;
  message : list N;
  date : list N;
  author_name : list N
}.

(** An entry of what [getCommitHistory] returns *)
Record commit_record := CommitRecord {
  c_hash : list N;
  shortHash : list N;
  c_message : list N;
  c_date : list N;
  author : list N
}.

(** What [rollbackToCommit] returns *)
Record rollback_result := RollbackResult { rb_success : bool; rolledBackTo : list N }.

Inductive command : Type -> Type :=
| Base {A : Type} (c : Git.command A) : command A
| Reset (dir : list N) (args : list (list N)) : command unit
| PushWith (dir remote branch : list N) (options : list (list N)) : command unit
| Log (dir : list N) (maxCount : Z) : command (list log_entry)
| Diff (dir : list N) (args : list (list N)) : command (list N).

Definition call_of : Type := { A : Type & command A }.

Definition ask {A} (c : command A) : call_of := existT A c.

(** A call of [Git] seen as a call of this module *)
Definition base (c : Git.call_of) : call_of :=
  existT (projT1 c) (Base (projT2 c)).

Definition is_reset (c : call_of) : bool :=
  match projT2 c with Reset _ _ => true | _ => false end.

Definition is_log (c : call_of) : bool :=
  match projT2 c with Log _ _ => true | _ => false end.


Section GitManager.
Context {world : Type}.
Variable exec : forall A, command A -> world -> (A + list N) * world.
Variable path_join : list (list N) -> list N.
Variable reposDir : list N.

Definition M (A : Type) : Type :=
  world * list call_of -> (A + list N) * (world * list call_of).

Definition ret {A} (a : A) : M A := fun s => (inl a, s).

Definition bind {A B} (m : M A) (f : A -> M B) : M B :=
  fun s => match m s with
           | (inl a, s') => f a s'
           | (inr e, s') => (inr e, s')
           end.

Definition call {A} (c : command A) : M A :=
  fun s => let '(r, w) := exec A c s.1 in (r, (w, s.2 ++ [existT A c])).

(** A method of [Git] run here: its calls are answered as [Base] calls
    and recorded after the ones already made. *)
Definition lift {A} (m : @Git.M world A) : M A :=
  fun s => let '(r, (w, l)) := m (s.1, []) in (r, (w, s.2 ++ (base <$> l))).

Definition base_exec (A : Type) (c : Git.command A) : world -> (A + list N) * world :=
  exec A (Base c).

Notation "x <- m ;; k" := (bind m (fun x => k))
  (at level 100, m at next level, right associativity).
Notation "m ;;; k" := (bind m (fun _ => k))
  (at level 100, right associativity).

(** [getCommitHistory(owner, repo, limit)] *)
Definition getCommitHistory (owner repo : list N) (limit : Z) : M (list commit_record) :=
  let repoPath := Git.getRepoPath path_join reposDir owner repo in
  there <- call (Base (Git.ExistsSync repoPath)) ;;
  if negb there then ret []
  else
    (call (Base (Git.Open repoPath)) ;;;
     log <- call (Log repoPath limit) ;;
     ret ((fun c => CommitRecord (hash c) (take 7 (hash c)) (message c) (date c)
                                 (author_name c)) <$> log)).

(** [rollbackToCommit(owner, repo, commitHash, githubToken)] *)
Definition rollbackToCommit (owner repo commitHash githubToken : list N)
  : M rollback_result :=
  let repoPath := Git.getRepoPath path_join reposDir owner repo in
  call (Base (Git.Open repoPath)) ;;;
  call (Reset repoPath [lit "--hard"; commitHash]) ;;;
  branch <- lift (Git.getDefaultBranch base_exec repoPath) ;;
  let remoteUrl := Git.remote_url githubToken owner repo in
  call (Base (Git.Remote repoPath [lit "set-url"; lit "origin"; remoteUrl])) ;;;
  call (PushWith repoPath (lit "origin") branch [lit "--force"]) ;;;
  ret (RollbackResult true commitHash).

(** [getCommitDiff(owner, repo, commitHash)] *)
Definition getCommitDiff (owner repo commitHash : list N) : M (list N) :=
  let repoPath := Git.getRepoPath path_join reposDir owner repo in
  call (Base (Git.Open repoPath)) ;;;
  diff <- call (Diff repoPath [commitHash ++ lit "^"; commitHash]) ;;
  ret diff.

Definition run {A} (m : M A) (w : world) : (A + list N) * world * list call_of :=
  let '(r, (w', log)) := m (w, []) in (r, w', log).

End GitManager.

(** A repository with a linear history, newest commit first, and the tip
    its remote was last pushed: enough to run the three methods on. *)
Record repo_state := Repo {
  cloned_at : list (list N);
  local : list log_entry;
  remote_tip : option (list N)
}.

Fixpoint drop_until (h : list N) (l : list log_entry) : option (list log_entry) :=
  match l with
  | [] => None
  | c :: rest => if decide (hash c = h) then Some l else drop_until h rest
  end.

Definition repo_exec (A : Type) (c : command A) (r : repo_state)
  : (A + list N) * repo_state :=
  match c in command T return (T + list N) * repo_state with
  | Base c0 =>
      match c0 in Git.command T return (T + list N) * repo_state with
      | Git.ExistsSync p => (inl (bool_decide (p ∈ cloned_at r)), r)
      | Git.MkdirSync _ => (inl tt, r)
      | Git.Open p =>
          if bool_decide (p ∈ cloned_at r) then (inl tt, r)
          else (inr (lit "Cannot use simple-git on a directory that does not exist"), r)
      | Git.AddConfig _ _ _ => (inl tt, r)
      | Git.Add _ _ => (inl tt, r)
      | Git.Status _ => (inl (Git.StatusResult []), r)
      | Git.Commit _ _ => (inr (lit "nothing to commit"), r)
      | Git.Revparse _ _ => (inl (lit "main" ++ [10%N]), r)
      | Git.Remote _ _ => (inl tt, r)
      | Git.Push _ _ _ => (inl tt, Repo (cloned_at r) (local r) (hash <$> head (local r)))
      | Git.Pull _ _ _ => (inl tt, r)
      | Git.Clone _ p => (inl tt, Repo (p :: cloned_at r) (local r) (remote_tip r))
      end
  | Reset _ args =>
      match args with
      | [_; h] =>
          match drop_until h (local r) with
          | Some l => (inl tt, Repo (cloned_at r) l (remote_tip r))
          | None => (inr (lit "unknown revision"), r)
          end
      | _ => (inr (lit "usage"), r)
      end
  | PushWith _ _ _ _ =>
      (inl tt, Repo (cloned_at r) (local r) (hash <$> head (local r)))
  | Log _ n => (inl (take (Z.to_nat n) (local r)), r)
  | Diff _ _ => (inl [], r)
  end.

(** Three commits to run them on *)
Definition commit_c : log_entry :=
  LogEntry (lit "c3c3c3c3c3c3") (lit "third") (lit "2024-03-03") (lit "alice").
Definition commit_b : log_entry :=
  LogEntry (lit "b2b2b2b2b2b2") (lit "second") (lit "2024-02-02") (lit "alice").
Definition commit_a : log_entry :=
  LogEntry (lit "a1a1a1a1a1a1") (lit "first") (lit "2024-01-01") (lit "bob").

End GitHistory.

(* ===================================================================== *)
(** ** The availability probe ([gemini.js], direct revision) *)
(* ===================================================================== *)

(** [isAvailable()] of the revision that spawns the tool directly: a
    child running [gemini --version], and a timer of two seconds. *)
Module Probe.

(** What can happen after the spawn: the child closes, the child fails,
    the timer fires. *)
Inductive event := Closed (code : option Z) | Failed | TimedOut.

(** - [answer]: what the promise resolved with, if it has;
    - [armed]: the timer has not fired yet (it is never cleared);
    - [kills]: the calls of [proc.kill()]. When the timer fires
      [proc.killed] is false, since nothing else kills this child. *)
Record state := State { answer : option bool; armed : bool; kills : nat }.

Definition init : state := State None true 0.

(** [resolve(b)] *)
Definition resolve (st : state) (b : bool) : state :=
  State (match answer st with None => Some b | a => a end) (armed st) (kills st).

Definition on_event (st : state) (e : event) : state :=
  match e with
  | Closed code => resolve st (bool_decide (code = Some 0%Z))
  | Failed => resolve st false
  | TimedOut =>
      if armed st
      then resolve (State (answer st) false (S (kills st))) false
      else st
  end.

Definition run (st : state) (evs : list event) : state := foldl on_event st evs.

Definition is_timeout (e : event) : bool :=
  match e with TimedOut => true | _ => false end.

End Probe.

(* ===================================================================== *)
(** ** Well-formed server states *)
(* ===================================================================== *)

Module ServerInv.
Import Server.

Section Inv.
Context {handler : Type}.

(** Every key of [this.clients] has a record, every record's socket
    exists, and no two records hold the same socket. *)
Definition wf (st : @state handler) : Prop :=
  (forall cid, cid ∈ clients st -> is_Some (objects st !! cid)) /\
  (forall cid c, objects st !! cid = Some c -> is_Some (sockets st !! ws c)) /\
  (forall cid1 cid2 c1 c2,
      objects st !! cid1 = Some c1 -> objects st !! cid2 = Some c2 ->
      ws c1 = ws c2 -> cid1 = cid2).

(** What [broadcast(data)] does at one entry of the client table *)
Definition visit (data : JS.value) (acc : @state handler) (cid : nat) : @state handler :=
  match objects acc !! cid with
  | Some c => if authenticated c then send acc (ws c) data else acc
  | None => acc
  end.

(** The connection [cid] is one that [broadcast] writes to. *)
Definition listening (st : @state handler) (cid : nat) (c : client) : Prop :=
  cid ∈ clients st /\ objects st !! cid = Some c /\ authenticated c = true.

End Inv.

(** An [auth] message with the secret of the demonstration server, and
    the connection of [fresh_connection] once it has sent it *)
Definition demo_auth : JS.value :=
  JS.Obj [(JS.lit "type", JS.Str (JS.lit "auth"));
          (JS.lit "payload", JS.Obj [(JS.lit "secret", JS.Str (JS.lit "s3cret"))])].

Definition authed_connection : @state nat :=
  on_message (JS.lit "s3cret") demo_handlers fresh_connection 0 (Some demo_auth).

End ServerInv.

(* ===================================================================== *)
(** ** Runs of the orchestrator *)
(* ===================================================================== *)

Module GeminiInv.
Import JS Gemini.

(** A sequence of transitions of the runner *)
Definition run (path_join : list N -> list N -> list N) (st : state)
    (tr : list event) : state :=
  foldl (step path_join) st tr.

Definition is_execute_on (p : list N) (ev : event) : bool :=
  match ev with
  | Execute repoPath _ _ _ => bool_decide (repoPath = p)
  | _ => false
  end.

(** The invocations of [execute] on [p] in a sequence *)
Definition executions (p : list N) (tr : list event) : nat :=
  length (List.filter (is_execute_on p) tr).

(** The user turns of a history *)
Definition users (h : list turn) : nat :=
  length (List.filter (fun t => bool_decide (turn_role t = User)) h).

(** The combined output of a child, the wording of the design document
    for what decides an assistant turn: every chunk it wrote, to either
    stream, in order of arrival. The runner itself keeps [stdout_of]. *)
Definition combined_output (evs : list proc_event) : list N :=
  concat (snd <$> chunks_of evs).

(** The chunks the PowerShell revision lets through to [onOutput] *)
Definition passes (sc : stream * list N) : bool :=
  match sc.1 with
  | stdout =>
      negb (includes sc.2 (lit "YOLO mode is enabled")
            || includes sc.2 (lit "Loaded cached credentials"))
  | stderr =>
      negb (includes sc.2 (lit "Loaded cached credentials"))
      && negb (includes sc.2 (lit "YOLO mode is enabled"))
      && negb (includes sc.2 (lit "Passing args to a child process"))
  end.

Definition is_unlink (e : effect) : bool :=
  match e with Unlink _ => true | _ => false end.

Definition is_spawn (e : effect) : bool :=
  match e with Spawn _ _ _ => true | _ => false end.

End GeminiInv.

(* ===================================================================== *)
(** ** Handler arrays of the client *)
(* ===================================================================== *)

Module ClientInv.
Import JS Client.

(** [messageHandlersRef.current.get(type) || []] *)
Definition handlers (st : state) (type : list N) : list nat :=
  default [] (messageHandlers st !! type).

(** Every handle in a handler array names a closure that exists. *)
Definition known (st : state) : Prop :=
  forall type h, h ∈ handlers st type -> h ∈ dom (closures st).

(** The handlers under [type] are the application's own. *)
Definition subscribers_only (st : state) (type : list N) : Prop :=
  forall h, h ∈ handlers st type ->
    exists tag, closures st !! h = Some (Subscriber tag).

(** A message with a [type] and a [payload], as [JSON.parse] returns it *)
Definition frame (type : list N) (payload : value) : value :=
  Obj [(lit "type", Str type); (lit "payload", payload)].

(** The handler calls of [ws.onmessage]: the handlers under the type on
    the payload, then the wildcard handlers on the message. *)
Definition dispatch (st : state) (type : list N) (payload message : value) : state :=
  match forEach (length (handlers st type)) 0 type payload st with
  | (st3, Some _) => st3
  | (st3, None) =>
      (forEach (length (handlers st3 (lit "*"))) 0 (lit "*") message st3).1
  end.

(** The request whose result handler has handle [h], when it asked for
    [kind] *)
Definition awaiting (st : state) (kind : list N) (h : nat) : option nat :=
  match closures st !! h with
  | Some (OnResult r) =>
      match requests st !! r with
      | Some q => if bool_decide (req_type q = kind) then Some r else None
      | None => None
      end
  | _ => None
  end.

(** What the result handler does to the record of its request *)
Definition resolved (v : value) (q : request_record) : request_record :=
  Request (req_type q) (settle (settled q) (Resolved v)) false
          (on_result q) (on_error q).

(** The first, third, fifth, ... element of a list, and the others *)
Fixpoint evens {A} (l : list A) : list A :=
  match l with
  | x :: _ :: rest => x :: evens rest
  | _ => l
  end.

Fixpoint odds {A} (l : list A) : list A :=
  match l with
  | _ :: y :: rest => y :: odds rest
  | _ => []
  end.

(** The handlers under [error] are error handlers of requests, or the
    application's own. *)
Definition error_listeners (st : state) : Prop :=
  forall h, h ∈ handlers st (lit "error") ->
    (exists r type, closures st !! h = Some (OnError r type)) \/
    (exists tag, closures st !! h = Some (Subscriber tag)).

(** The frames of type [error] that the server sends *)
Inductive server_error : value -> Prop :=
| NotAuthenticated : server_error Server.msg_not_authenticated
| UnknownType (type : value) : server_error (Server.msg_unknown type)
| HandlerError (type : value) (message : list N) :
    server_error (Server.msg_handler_error type message)
| InvalidFormat (err : list N) : server_error (Server.msg_invalid err).

(** Three requests of the same kind in flight on an open transport *)
Definition three_in_flight : state :=
  let kind := lit "execute_command" in
  (request (request (request connected kind Null).2 kind Null).2 kind Null).2.

(** The page mounts, unmounts and mounts again: the first transport is
    being closed while the second one opens. *)
Definition remounted : state :=
  on_open (connect (disconnect connected) None) 1.

End ClientInv.

(* ===================================================================== *)
(** ** Kinds of calls *)
(* ===================================================================== *)

Module GitCalls.
Import Git.

Definition is_clone (c : call_of) : bool :=
  match projT2 c with Clone _ _ => true | _ => false end.

Definition is_pull (c : call_of) : bool :=
  match projT2 c with Pull _ _ _ => true | _ => false end.

Definition is_mkdir (c : call_of) : bool :=
  match projT2 c with MkdirSync _ => true | _ => false end.

Definition is_remote (c : call_of) : bool :=
  match projT2 c with Remote _ _ => true | _ => false end.

End GitCalls.

(** The small file system of [Git] with calls that can be made to throw:
    a commit hook that rejects, a remote that rejects the push, a
    repository without a current branch, a remote that cannot be pulled. *)
Module GitFaults.
Import JS Git.

Record faults := Faults {
  commit_fails : bool;
  push_fails : bool;
  revparse_fails : bool;
  pull_fails : bool
}.

Definition faulty_exec (f : faults) (A : Type) (c : command A) (d : disk)
  : (A + list N) * disk :=
  match c in command T return (T + list N) * disk -> (T + list N) * disk with
  | Commit _ _ => fun ok =>
      if commit_fails f then (inr (lit "pre-commit hook failed"), d) else ok
  | Push _ _ _ => fun ok =>
      if push_fails f then (inr (lit "rejected: non-fast-forward"), d) else ok
  | Revparse _ _ => fun ok =>
      if revparse_fails f then (inr (lit "ambiguous argument HEAD"), d) else ok
  | Pull _ _ b => fun ok =>
      if pull_fails f then (inr (lit "could not find remote ref " ++ b), d) else ok
  | _ => fun ok => ok
  end (disk_exec A c d).

End GitFaults.

(* ===================================================================== *)
(** * Properties of the server *)
(* ===================================================================== *)

Module ServerFacts.
Import JS Server.

Section Facts.
Context {handler : Type}.
Variable sharedSecret : list N.
Variable handlers : list N -> option handler.

Abbreviation state := (@Server.state handler).
Abbreviation on_message := (Server.on_message sharedSecret handlers).
Abbreviation handleMessage := (Server.handleMessage sharedSecret handlers).
Abbreviation step := (Server.step sharedSecret handlers).
Abbreviation run := (Server.run sharedSecret handlers).

Implicit Types (st : state) (w cid : nat).

(** *** [send] *)

Lemma send_frame st w data :
  objects (send st w data) = objects st /\
  clients (send st w data) = clients st /\
  calls (send st w data) = calls st.
Proof.
  unfold send. destruct (sockets st !! w) as [s|]; [|done].
  destruct (decide (readyState s = OPEN)); done.
Qed.

Lemma send_not_open st w data :
  is_open st w = false -> send st w data = st.
Proof.
  unfold is_open, send. intros Hc.
  destruct (sockets st !! w) as [s|] eqn:Hs; [|done].
  destruct (decide (readyState s = OPEN)) as [Ho|]; [|done].
  apply bool_decide_eq_false in Hc. simpl in Hc. congruence.
Qed.

Lemma send_open st w data :
  is_open st w = true ->
  sockets (send st w data) !! w = Some (Socket OPEN (sent st w ++ [data])).
Proof.
  unfold is_open, send, sent. intros Ho.
  apply bool_decide_eq_true in Ho.
  destruct (sockets st !! w) as [s|] eqn:Hs; [|done].
  simpl in *. destruct (decide (readyState s = OPEN)); [|congruence].
  simpl. by rewrite lookup_insert_eq.
Qed.

Lemma send_other st w w' data :
  w' <> w -> sockets (send st w data) !! w' = sockets st !! w'.
Proof.
  intros Hne. unfold send. destruct (sockets st !! w) as [s|]; [|done].
  destruct (decide (readyState s = OPEN)); [|done].
  simpl. by rewrite lookup_insert_ne.
Qed.

Lemma send_ready st w w' data :
  readyState <$> sockets (send st w data) !! w' = readyState <$> sockets st !! w'.
Proof.
  destruct (decide (w' = w)) as [->|Hne]; [|by rewrite send_other].
  destruct (is_open st w) eqn:Ho.
  - rewrite send_open by done. apply bool_decide_eq_true in Ho. by rewrite Ho.
  - by rewrite send_not_open.
Qed.

Lemma send_is_open st w w' data :
  is_open (send st w data) w' = is_open st w'.
Proof. unfold is_open. by rewrite send_ready. Qed.

Lemma send_dropped st w w' data :
  is_open st w' = false -> sent (send st w data) w' = sent st w'.
Proof.
  intros Hc. destruct (decide (w' = w)) as [->|Hne].
  - by rewrite send_not_open.
  - unfold sent. by rewrite send_other.
Qed.

Lemma broadcast_dropped st w' data :
  is_open st w' = false -> sent (broadcast st data) w' = sent st w'.
Proof.
  unfold broadcast. generalize (elements (clients st)). intros l.
  revert st. induction l as [|cid l IH]; intros st Hc; [done|].
  simpl. destruct (objects st !! cid) as [c|]; [|by apply IH].
  destruct (authenticated c); [|by apply IH].
  rewrite IH by (by rewrite send_is_open). by apply send_dropped.
Qed.

Lemma handleMessage_dropped st st' cid c message w' :
  is_open st w' = false ->
  handleMessage st cid c message = inl st' ->
  sent st' w' = sent st w'.
Proof.
  intros Hc. unfold handleMessage.
  destruct (get message (lit "type")) as [type|]; [|done].
  destruct (get message (lit "payload")) as [payload|]; [|done].
  repeat case_match; intros [= <-]; try (by rewrite send_dropped); done.
Qed.

(** A socket that exists and is not open receives nothing, whatever
    happens to the server. *)
Lemma step_dropped st e w' :
  is_Some (sockets st !! w') -> is_open st w' = false ->
  sent (step st e) w' = sent st w'.
Proof.
  intros [s Hs] Hc. destruct e as [|cid data| | | | |w rs]; simpl.
  - unfold on_connection.
    assert (w' <> fresh (dom (sockets st))) as Hne.
    { intros ->. apply (is_fresh (dom (sockets st))).
      apply elem_of_dom. eauto. }
    rewrite send_dropped.
    + unfold sent. simpl. by rewrite lookup_insert_ne.
    + unfold is_open in *. simpl. by rewrite lookup_insert_ne.
  - unfold Server.on_message. destruct (objects st !! cid) as [c|]; [|done].
    destruct data as [message|]; [|by apply send_dropped].
    destruct (handleMessage st cid c message) as [st'|err] eqn:Hh.
    + by eapply handleMessage_dropped.
    + by apply send_dropped.
  - done.
  - by apply send_dropped.
  - unfold handler_settled. destruct r; [destruct (to_string type)|]; by apply send_dropped.
  - by apply broadcast_dropped.
  - unfold socket_state, sent. destruct (sockets st !! w) as [s0|] eqn:Hw; [|done].
    simpl. destruct (decide (w' = w)) as [->|Hne].
    + rewrite lookup_insert_eq. by rewrite Hw.
    + by rewrite lookup_insert_ne.
Qed.

(** C10. [send(ws, data)] hands the message to the socket exactly when the
    socket is open: its outbox then grows by that message and nothing
    else. On any other ready state the call returns the server state it
    was given. In both cases the other sockets, the client records, the
    client table and the handler calls are as before; [send] has no way to
    raise: it is a total function to a state. Consequently a socket that
    is not open receives nothing from any server transition, be it the
    welcome, a result, an error, a progress message or a broadcast. *)
Theorem send_transmits_only_when_open st w data :
  (is_open st w = true ->
   sockets (send st w data) !! w = Some (Socket OPEN (sent st w ++ [data]))) /\
  (is_open st w = false -> send st w data = st) /\
  (forall w', w' <> w -> sockets (send st w data) !! w' = sockets st !! w') /\
  objects (send st w data) = objects st /\
  clients (send st w data) = clients st /\
  calls (send st w data) = calls st /\
  (forall e w', is_Some (sockets st !! w') -> is_open st w' = false ->
                sent (step st e) w' = sent st w').
Proof.
  pose proof (send_frame st w data) as (Ho & Hc & Hk).
  repeat split; auto using send_open, send_not_open, send_other, step_dropped.
Qed.

(** *** Authentication gate *)

Lemma get_both (message : value) :
  (get message (lit "type") = None /\ get message (lit "payload") = None) \/
  (exists type payload, get message (lit "type") = Some type /\
                        get message (lit "payload") = Some payload).
Proof. destruct message; simpl; eauto. Qed.

(** What one message does to the client records and to the handler calls *)
Lemma on_message_cases st cid data :
  (objects (on_message st cid data) = objects st /\
   calls (on_message st cid data) = calls st) \/
  (exists c message,
      data = Some message /\ objects st !! cid = Some c /\
      good_auth sharedSecret message = true /\
      objects (on_message st cid data) = <[cid := Client (ws c) true]> (objects st) /\
      calls (on_message st cid data) = calls st) \/
  (exists c message h payload,
      data = Some message /\ objects st !! cid = Some c /\
      authenticated c = true /\
      objects (on_message st cid data) = objects st /\
      calls (on_message st cid data) = calls st ++ [(cid, h, payload)]).
Proof.
  unfold Server.on_message. destruct (objects st !! cid) as [c|] eqn:Hc; [|by left].
  destruct data as [message|]; last first.
  { left. by destruct (send_frame st (ws c) (msg_invalid (lit "Unexpected token")))
      as (-> & _ & ->). }
  unfold Server.handleMessage, good_auth.
  destruct (get_both message) as [[Ht _]|(type & payload & Ht & Hp)]; rewrite Ht.
  { left. by destruct (send_frame st (ws c) (msg_invalid (lit "Cannot destructure")))
      as (-> & _ & ->). }
  rewrite Hp.
  destruct (is_str type (lit "auth")) eqn:Ha.
  - destruct (is_str (get_opt payload (lit "secret")) sharedSecret) eqn:Hs.
    + right; left. exists c, message.
      destruct (send_frame (set_authenticated st cid c) (ws c) msg_auth_success)
        as (-> & _ & ->).
      rewrite Ht, Hp, Ha, Hs. by repeat split.
    + left. by destruct (send_frame st (ws c) msg_auth_failed) as (-> & _ & ->).
  - destruct (authenticated c) eqn:Hauth; simpl.
    + destruct (to_string type) as [key|]; last first.
      { left. by destruct (send_frame st (ws c)
                            (msg_invalid (lit "Cannot convert object to primitive value")))
          as (-> & _ & ->). }
      destruct (handlers key) as [h|].
      * right; right. by exists c, message, h, payload.
      * left. by destruct (send_frame st (ws c) (msg_unknown type)) as (-> & _ & ->).
    + left. by destruct (send_frame st (ws c) msg_not_authenticated) as (-> & _ & ->).
Qed.

Lemma broadcast_frame st data :
  objects (broadcast st data) = objects st /\ calls (broadcast st data) = calls st.
Proof.
  unfold broadcast. generalize (elements (clients st)). intros l.
  revert st. induction l as [|cid l IH]; intros st; [done|].
  simpl. destruct (objects st !! cid) as [c|]; [|by apply IH].
  destruct (authenticated c); [|by apply IH].
  destruct (IH (send st (ws c) data)) as [-> ->].
  by destruct (send_frame st (ws c) data) as (-> & _ & ->).
Qed.

(** Only a message adds a handler call, and only on an authenticated
    connection. *)
Lemma step_calls st e :
  calls (step st e) = calls st \/
  exists cid c message h payload,
    e = Message cid (Some message) /\ objects st !! cid = Some c /\
    authenticated c = true /\
    calls (step st e) = calls st ++ [(cid, h, payload)].
Proof.
  destruct e as [|cid data| | |w type r| |w rs]; simpl.
  - left. unfold on_connection.
    by match goal with |- calls (send ?s ?w ?d) = _ =>
      destruct (send_frame s w d) as (_ & _ & ->) end.
  - destruct (on_message_cases st cid data)
      as [[_ ->]|[(c & m & _ & _ & _ & _ & ->)|(c & m & h & p & -> & Hc & Ha & _ & ->)]];
      [by left|by left|].
    right. by exists cid, c, m, h, p.
  - by left.
  - left. unfold handler_progress.
    by match goal with |- calls (send ?s ?w ?d) = _ =>
      destruct (send_frame s w d) as (_ & _ & ->) end.
  - left. unfold handler_settled. destruct r; [destruct (to_string type)|];
    by match goal with |- calls (send ?s ?w ?d) = _ =>
      destruct (send_frame s w d) as (_ & _ & ->) end.
  - left. by destruct (broadcast_frame st data) as [_ ->].
  - left. unfold socket_state. by destruct (sockets st !! w).
Qed.

(** A record whose flag is set after a transition had it set before, or
    the transition was a message on its own connection that carried the
    secret. *)
Lemma step_authenticated st e cid c :
  objects (step st e) !! cid = Some c -> authenticated c = true ->
  (exists c0, objects st !! cid = Some c0 /\ authenticated c0 = true) \/
  (exists message, e = Message cid (Some message) /\
                   good_auth sharedSecret message = true).
Proof.
  destruct e as [|cid' data| | |w type r| |w rs]; simpl; intros Hc Ha.
  - unfold on_connection in Hc.
    match type of Hc with objects (send ?s ?w ?d) !! _ = _ =>
      destruct (send_frame s w d) as (Ho & _ & _); rewrite Ho in Hc end.
    simpl in Hc. apply lookup_insert_Some in Hc as [[_ <-]|[_ Hc]]; [done|].
    left; eauto.
  - destruct (on_message_cases st cid' data)
      as [[Ho _]|[(c1 & m & -> & Hc1 & Hg & Ho & _)|(c1 & m & h & p & _ & _ & _ & Ho & _)]];
      rewrite Ho in Hc; [left; eauto| |left; eauto].
    apply lookup_insert_Some in Hc as [[-> _]|[_ Hc]]; [right; eauto|left; eauto].
  - left; eauto.
  - unfold handler_progress in Hc.
    match type of Hc with objects (send ?s ?w ?d) !! _ = _ =>
      destruct (send_frame s w d) as (Ho & _ & _); rewrite Ho in Hc end.
    left; eauto.
  - unfold handler_settled in Hc. destruct r; [destruct (to_string type)|];
    match type of Hc with objects (send ?s ?w ?d) !! _ = _ =>
      destruct (send_frame s w d) as (Ho & _ & _); rewrite Ho in Hc end;
    left; eauto.
  - destruct (broadcast_frame st data) as [Ho _]. rewrite Ho in Hc. left; eauto.
  - unfold socket_state in Hc. destruct (sockets st !! w); left; eauto.
Qed.

Lemma run_snoc st tr e : run st (tr ++ [e]) = step (run st tr) e.
Proof. unfold Server.run. by rewrite foldl_app. Qed.

(** Along a run from the initial state, a set flag has a successful
    [auth] on that connection behind it. *)
Lemma run_authenticated tr cid c :
  objects (run init tr) !! cid = Some c -> authenticated c = true ->
  exists message, Message cid (Some message) ∈ tr /\
                  good_auth sharedSecret message = true.
Proof.
  revert cid c. induction tr as [|e tr IH] using rev_ind; intros cid c Hc Ha.
  { done. }
  rewrite run_snoc in Hc.
  destruct (step_authenticated _ _ _ _ Hc Ha) as [(c0 & Hc0 & Ha0)|(m & -> & Hg)].
  - destruct (IH _ _ Hc0 Ha0) as (m & Hin & Hg). exists m. split; [|done].
    apply elem_of_app. by left.
  - exists m. split; [|done]. apply elem_of_app. right. by apply list_elem_of_singleton.
Qed.

Lemma unauthenticated_reply st cid c data :
  objects st !! cid = Some c -> authenticated c = false -> is_auth data = false ->
  exists reply,
    get reply (lit "type") = Some (Str (lit "error")) /\
    on_message st cid data = send st (ws c) reply.
Proof.
  intros Hc Ha Hk. unfold Server.on_message. rewrite Hc.
  destruct data as [message|]; [|by eexists (msg_invalid _)].
  unfold Server.handleMessage. simpl in Hk. unfold get_opt in Hk.
  destruct (get_both message) as [[-> _]|(type & payload & Ht & ->)].
  { by eexists (msg_invalid _). }
  rewrite Ht in *. simpl in Hk. rewrite Hk, Ha. simpl.
  by exists msg_not_authenticated.
Qed.

(** C1. On a connection whose [authenticated] flag is false, a message
    whose kind is not [auth] (malformed input included) is answered by one
    call of [send] with a message of kind [error]: no handler is called,
    the flag stays false, and the open socket the message came in on
    receives exactly that one frame. A handler call is only ever added by
    a message on a connection whose flag is true, and along any run of the
    server from its initial state the flag of a connection is true only
    after a message of kind [auth] carrying the shared secret arrived on
    that connection. *)
Theorem handlers_only_after_auth :
  (forall st cid c data,
      objects st !! cid = Some c -> authenticated c = false ->
      is_auth data = false ->
      exists reply,
        get reply (lit "type") = Some (Str (lit "error")) /\
        on_message st cid data = send st (ws c) reply /\
        calls (on_message st cid data) = calls st /\
        objects (on_message st cid data) = objects st /\
        (is_open st (ws c) = true ->
         sent (on_message st cid data) (ws c) = sent st (ws c) ++ [reply])) /\
  (forall st e,
      calls (step st e) <> calls st ->
      exists cid c message,
        e = Message cid (Some message) /\ is_auth (Some message) = false /\
        objects st !! cid = Some c /\ authenticated c = true) /\
  (forall tr e,
      calls (run init (tr ++ [e])) <> calls (run init tr) ->
      exists cid message auth,
        e = Message cid (Some message) /\
        Message cid (Some auth) ∈ tr /\ good_auth sharedSecret auth = true).
Proof.
  split; [|split].
  - intros st cid c data Hc Ha Hk.
    destruct (unauthenticated_reply st cid c data Hc Ha Hk) as (reply & Ht & ->).
    exists reply. destruct (send_frame st (ws c) reply) as (Ho & _ & Hcalls).
    repeat split; auto.
    intros Hopen. unfold sent at 1. by rewrite send_open.
  - intros st e Hne.
    destruct (step_calls st e) as [?|(cid & c & m & h & p & -> & Hc & Ha & Hcalls)];
      [done|].
    exists cid, c, m. repeat split; auto.
    destruct (is_auth (Some m)) eqn:Hk; [|done]. exfalso. apply Hne.
    simpl in *. unfold Server.on_message. rewrite Hc.
    unfold Server.handleMessage. unfold get_opt in Hk.
    destruct (get_both m) as [[Ht ->]|(type & payload & Ht & ->)];
      rewrite Ht in *; simpl in Hk; [done|]. rewrite Hk.
    destruct (is_str (get_opt payload (lit "secret")) sharedSecret).
    + by destruct (send_frame (set_authenticated st cid c) (ws c) msg_auth_success)
        as (_ & _ & ->).
    + by destruct (send_frame st (ws c) msg_auth_failed) as (_ & _ & ->).
  - intros tr e Hne. rewrite run_snoc in Hne.
    destruct (step_calls (run init tr) e)
      as [?|(cid & c & m & h & p & -> & Hc & Ha & _)]; [done|].
    destruct (run_authenticated tr cid c Hc Ha) as (auth & Hin & Hg).
    by exists cid, m, auth.
Qed.

End Facts.

Lemma send_transmits_only_when_open_witness :
  let st := fresh_connection in
  let gone := socket_state st 0 CLOSED in
  is_open st 0 = true /\
  sockets (send st 0 Null) !! 0 = Some (Socket OPEN (sent st 0 ++ [Null])) /\
  is_open gone 0 = false /\
  send gone 0 Null = gone.
Proof.
  intros st gone.
  destruct (send_transmits_only_when_open (lit "s3cret") demo_handlers st 0 Null)
    as (Hopen & _).
  destruct (send_transmits_only_when_open (lit "s3cret") demo_handlers gone 0 Null)
    as (_ & Hclosed & _).
  assert (is_open st 0 = true) as H1 by (vm_compute; reflexivity).
  assert (is_open gone 0 = false) as H2 by (vm_compute; reflexivity).
  split_and!; auto.
Defined.

Lemma handlers_only_after_auth_witness :
  let st := fresh_connection in
  let c := Client 0 false in
  let data := Some (Obj [(lit "type", Str (lit "cancel")); (lit "payload", Obj [])]) in
  objects st !! 0 = Some c /\
  authenticated c = false /\
  is_auth data = false /\
  exists reply,
    get reply (lit "type") = Some (Str (lit "error")) /\
    Server.on_message (lit "s3cret") demo_handlers st 0 data = send st (ws c) reply /\
    calls (Server.on_message (lit "s3cret") demo_handlers st 0 data) = calls st /\
    objects (Server.on_message (lit "s3cret") demo_handlers st 0 data) = objects st /\
    (is_open st (ws c) = true ->
     sent (Server.on_message (lit "s3cret") demo_handlers st 0 data) (ws c)
     = sent st (ws c) ++ [reply]).
Proof.
  intros st c data.
  assert (objects st !! 0 = Some c) as H1 by (vm_compute; reflexivity).
  assert (authenticated c = false) as H2 by reflexivity.
  assert (is_auth data = false) as H3 by (vm_compute; reflexivity).
  split_and!; [exact H1|exact H2|exact H3|].
  exact (proj1 (handlers_only_after_auth (lit "s3cret") demo_handlers) st 0 c data H1 H2 H3).
Defined.

End ServerFacts.

(* ===================================================================== *)
(** * Properties of the first revision of the orchestrator *)
(* ===================================================================== *)

Module GeminiLegacyFacts.
Import JS GeminiLegacy.
Import Gemini (stream, stdout, stderr, proc_event, Data, Close, Error,
               is_data, stdout_of).

Implicit Types (st : state) (k : nat) (evs : list proc_event).

Lemma legacy_deliver_cons st k e evs :
  deliver st k (e :: evs) = deliver (on_event st k e) k evs.
Proof. done. Qed.

Lemma legacy_deliver_app st k evs evs' :
  deliver st k (evs ++ evs') = deliver (deliver st k evs) k evs'.
Proof. unfold deliver. by rewrite foldl_app. Qed.

(** Output chunks accumulate, stdout and stderr apart, and settle
    nothing. *)
Lemma legacy_deliver_data st k evs r :
  runs st !! k = Some r -> forallb is_data evs = true ->
  runs (deliver st k evs) !! k =
  Some (Run (fullOutput r ++ stdout_of evs) (errorOutput r ++ stderr_of evs)
            (settled r)).
Proof.
  revert st r. induction evs as [|e evs IH]; intros st r Hr Hall.
  { destruct r. simpl. unfold stdout_of, stderr_of. simpl. by rewrite !app_nil_r. }
  simpl in Hall. apply andb_true_iff in Hall as [He Hall].
  destruct e as [[|] c| |]; try done; rewrite legacy_deliver_cons; simpl.
  - unfold on_stdout. rewrite Hr.
    erewrite IH; [|simpl; apply lookup_insert_eq|done]. simpl.
    unfold stdout_of, stderr_of. simpl. by rewrite <- app_assoc.
  - unfold on_stderr. rewrite Hr.
    erewrite IH; [|simpl; apply lookup_insert_eq|done]. simpl.
    unfold stdout_of, stderr_of. simpl. by rewrite <- app_assoc.
Qed.

(** A settled promise stays as it is. *)
Lemma legacy_deliver_settled st k evs r :
  runs st !! k = Some r -> settled r <> Pending ->
  promise_of (deliver st k evs) k = settled r.
Proof.
  revert st r. induction evs as [|e evs IH]; intros st r Hr Hs.
  { unfold promise_of. simpl. by rewrite Hr. }
  rewrite legacy_deliver_cons.
  destruct e as [[|] c|code|err]; simpl.
  - unfold on_stdout. rewrite Hr.
    erewrite IH; [|simpl; apply lookup_insert_eq|done]. done.
  - unfold on_stderr. rewrite Hr.
    erewrite IH; [|simpl; apply lookup_insert_eq|done]. done.
  - unfold on_close. rewrite Hr.
    erewrite IH; [|simpl; apply lookup_insert_eq|]; simpl; by destruct (settled r).
  - unfold on_error. rewrite Hr.
    erewrite IH; [|simpl; apply lookup_insert_eq|]; simpl; by destruct (settled r).
Qed.

(** A child that starts and exits with a code other than 0 resolves the
    promise with [success: false], its stdout, its stderr as [error], and
    the code. *)
Lemma close_resolves st evs code later :
  forallb is_data evs = true -> code <> Some 0%Z ->
  let started := execute st in
  promise_of (deliver started.2 started.1 (evs ++ Close code :: later)) started.1 =
  Resolved (Result false (stdout_of evs) (Some (stderr_of evs)) code).
Proof.
  intros Hevs Hcode started.
  assert (runs started.2 !! started.1 = Some (Run [] [] Pending)) as Hr.
  { unfold started. simpl. by rewrite lookup_insert_eq. }
  rewrite legacy_deliver_app, legacy_deliver_cons.
  pose proof (legacy_deliver_data _ _ _ _ Hr Hevs) as Hd. simpl in Hd.
  simpl. unfold on_close at 1. rewrite Hd.
  erewrite legacy_deliver_settled; [|simpl; apply lookup_insert_eq|done].
  simpl. by rewrite bool_decide_eq_false_2.
Qed.

(** A child that cannot be started rejects it. *)
Lemma error_rejects st err later :
  let started := execute st in
  promise_of (deliver started.2 started.1 (Error err :: later)) started.1 =
  Rejected (lit "Failed to start Gemini CLI: " ++ err).
Proof.
  intros started.
  assert (runs started.2 !! started.1 = Some (Run [] [] Pending)) as Hr.
  { unfold started. simpl. by rewrite lookup_insert_eq. }
  revert Hr. generalize started.2 started.1. intros st1 k Hr.
  rewrite legacy_deliver_cons.
  change (on_event st1 k (Error err)) with (on_error st1 k err).
  unfold on_error. rewrite Hr.
  erewrite legacy_deliver_settled; [|simpl; apply lookup_insert_eq|done]. done.
Qed.

End GeminiLegacyFacts.

(* ===================================================================== *)
(** * Properties of the process orchestrator *)
(* ===================================================================== *)

Module GeminiFacts.
Import JS Gemini.

Section Facts.
Variable path_join : list N -> list N -> list N.

Abbreviation execute := (Gemini.execute path_join).

Implicit Types (st : state) (k : nat) (e : proc_event) (evs : list proc_event).

Lemma deliver_snoc st k evs e :
  deliver (deliver st k evs) k [e] = deliver st k (evs ++ [e]).
Proof. unfold deliver. by rewrite foldl_app. Qed.

Lemma deliver_cons st k e evs :
  deliver st k (e :: evs) = deliver (on_event st k e) k evs.
Proof. done. Qed.

Lemma deliver_app st k evs evs' :
  deliver st k (evs ++ evs') = deliver (deliver st k evs) k evs'.
Proof. unfold deliver. by rewrite foldl_app. Qed.

Lemma stdout_of_cons e evs : stdout_of (e :: evs) = stdout_of [e] ++ stdout_of evs.
Proof.
  unfold stdout_of. simpl. destruct e as [[|] c| |]; simpl; try done.
  by rewrite app_nil_r.
Qed.

(** An event leaves the closure of its invocation in place, and only a
    stdout chunk adds to the accumulated output. *)
Lemma on_event_run st k e r :
  runs st !! k = Some r ->
  exists r', runs (on_event st k e) !! k = Some r' /\
             cwd r' = cwd r /\ tempFilePath r' = tempFilePath r /\
             fullOutput r' = fullOutput r ++ stdout_of [e].
Proof.
  intros Hr. destruct e as [[|] c|code|err]; simpl.
  - unfold on_stdout. rewrite Hr. simpl. rewrite lookup_insert_eq.
    eexists. repeat split. simpl. unfold stdout_of. simpl. by rewrite app_nil_r.
  - unfold on_stderr. rewrite Hr. simpl. exists r. by rewrite app_nil_r.
  - unfold on_close. rewrite Hr. simpl. rewrite lookup_insert_eq.
    eexists. repeat split. simpl. by rewrite app_nil_r.
  - unfold on_error. rewrite Hr. simpl. rewrite lookup_insert_eq.
    eexists. repeat split. simpl. by rewrite app_nil_r.
Qed.

Lemma deliver_run st k evs r :
  runs st !! k = Some r ->
  exists r', runs (deliver st k evs) !! k = Some r' /\
             cwd r' = cwd r /\ tempFilePath r' = tempFilePath r /\
             fullOutput r' = fullOutput r ++ stdout_of evs.
Proof.
  revert st r. induction evs as [|e evs IH]; intros st r Hr.
  { exists r. by rewrite app_nil_r. }
  destruct (on_event_run st k e r Hr) as (r1 & Hr1 & Hc1 & Ht1 & Hf1).
  destruct (IH _ _ Hr1) as (r2 & Hr2 & Hc2 & Ht2 & Hf2).
  exists r2. split; [done|]. split; [congruence|]. split; [congruence|].
  rewrite Hf2, Hf1, (stdout_of_cons e evs). by rewrite app_assoc.
Qed.

(** Only the exit of a child touches the histories. *)
Lemma on_event_histories st k e :
  is_close e = false -> histories (on_event st k e) = histories st.
Proof.
  destruct e as [[|] c|code|err]; simpl; intros He; try done.
  - unfold on_stdout. by destruct (runs st !! k).
  - unfold on_stderr. by destruct (runs st !! k).
  - unfold on_error. by destruct (runs st !! k).
Qed.

Lemma deliver_histories st k evs :
  forallb (fun e => negb (is_close e)) evs = true ->
  histories (deliver st k evs) = histories st.
Proof.
  revert st. induction evs as [|e evs IH]; intros st Hall; [done|].
  simpl in Hall. apply andb_true_iff in Hall as [He Hall].
  simpl. rewrite IH by done. apply on_event_histories.
  by apply negb_true_iff.
Qed.

Lemma on_close_history st k code r :
  runs st !! k = Some r ->
  history (on_close st k code) (cwd r) =
  history st (cwd r) ++
  (if answered code (fullOutput r) then [Turn Model (trim (fullOutput r))] else []).
Proof.
  intros Hr. unfold on_close, history. rewrite Hr. simpl.
  destruct (answered code (fullOutput r)).
  - by rewrite lookup_insert_eq.
  - by rewrite app_nil_r.
Qed.

Lemma on_close_history_other st k code r p :
  runs st !! k = Some r -> p <> cwd r ->
  history (on_close st k code) p = history st p.
Proof.
  intros Hr Hne. unfold on_close, history. rewrite Hr. simpl.
  destruct (answered code (fullOutput r)); [|done].
  by rewrite lookup_insert_ne.
Qed.

Lemma answered_iff code out :
  answered code out = true <-> code = Some 0%Z /\ trim out <> [].
Proof.
  unfold answered. rewrite andb_true_iff, !bool_decide_eq_true. done.
Qed.

Lemma execute_spawned st repoPath prompt now :
  let k := fresh (dom (runs st)) in
  execute st repoPath prompt now None =
  (k, State (<[repoPath := history st repoPath ++ [Turn User prompt]]> (histories st))
            (Some k)
            (<[k := Run repoPath (path_join repoPath (tempFileName now)) [] Pending true]>
               (runs st))
            (trace st ++ [Pushed repoPath (Turn User prompt);
                          WriteFile (path_join repoPath (tempFileName now))
                                    (fullPrompt (history st repoPath) prompt);
                          Spawn k repoPath (command now)])).
Proof. done. Qed.

(** Whatever else is going on, a transition adds to a history exactly the
    turns of [added]. *)
Lemma step_history st ev p :
  history (Gemini.step path_join st ev) p = history st p ++ added st ev p.
Proof.
  destruct ev as [repoPath prompt now write|repoPath|repoPath|k e]; simpl.
  - unfold history at 1. destruct write; simpl;
      (destruct (decide (repoPath = p)) as [->|Hne];
       [by rewrite lookup_insert_eq|by rewrite lookup_insert_ne, app_nil_r]).
  - rewrite app_nil_r. unfold startSession, history.
    destruct (histories st !! repoPath) eqn:Hh; [done|]. simpl.
    destruct (decide (repoPath = p)) as [->|Hne].
    + by rewrite lookup_insert_eq, Hh.
    + by rewrite lookup_insert_ne.
  - rewrite app_nil_r. unfold cancel. by destruct (activeProcess st).
  - destruct (decide (is_close e = true)) as [Hc|Hc].
    + destruct e as [| code |]; try done. simpl.
      destruct (runs st !! k) as [r|] eqn:Hr.
      * destruct (decide (cwd r = p)) as [<-|Hne].
        -- by apply on_close_history.
        -- rewrite app_nil_r. by apply (on_close_history_other _ _ _ r).
      * rewrite app_nil_r. unfold on_close. by rewrite Hr.
    + apply not_true_is_false in Hc. unfold history.
      rewrite on_event_histories by done.
      destruct e as [[|] c| |]; simpl in *; try done; by rewrite app_nil_r.
Qed.

(** C2, as amended: the output that decides the assistant turn is the
    standard output, not the combined output. One invocation of [execute]
    on a target appends exactly the user
    turn to that target's history, and does so before it writes the
    prompt file and spawns the child (the prompt it writes is composed
    from the history as it was before). While the child runs the history
    stays at that. When the child exits, the history gains exactly one
    assistant turn, holding the trimmed output, if the exit code is 0 and
    the output accumulated in [fullOutput] (the stdout chunks, in order;
    what the child writes to stderr is never accumulated)
    is non-empty after trimming, and nothing otherwise. An invocation
    whose prompt file cannot be written, and one whose child reports an
    error, leave only the user turn. The same holds under any
    interleaving: each transition of the runner adds to a target's
    history the user turn of an [execute] on it, or the assistant turn of
    one of its children exiting with code 0 and non-blank output, and
    nothing else. *)
Theorem history_grows_by_turns st repoPath prompt now evs code :
  forallb (fun e => negb (is_close e)) evs = true ->
  let user := Turn User prompt in
  let started := execute st repoPath prompt now None in
  let k := started.1 in
  let st1 := started.2 in
  let out := stdout_of evs in
  history st1 repoPath = history st repoPath ++ [user] /\
  trace st1 = trace st ++ [Pushed repoPath user;
                           WriteFile (path_join repoPath (tempFileName now))
                                     (fullPrompt (history st repoPath) prompt);
                           Spawn k repoPath (command now)] /\
  history (deliver st1 k evs) repoPath = history st repoPath ++ [user] /\
  history (deliver st1 k (evs ++ [Close code])) repoPath =
    history st repoPath ++ [user] ++
    (if answered code out then [Turn Model (trim out)] else []) /\
  (answered code out = true <-> code = Some 0%Z /\ trim out <> []) /\
  (forall err,
      history (execute st repoPath prompt now (Some err)).2 repoPath =
      history st repoPath ++ [user]) /\
  (forall st' ev p,
      history (Gemini.step path_join st' ev) p = history st' p ++ added st' ev p).
Proof.
  intros Hevs user started k st1 out.
  assert (history st1 repoPath = history st repoPath ++ [user]) as H1.
  { unfold st1, started, history at 1. simpl. by rewrite lookup_insert_eq. }
  assert (runs st1 !! k = Some (Run repoPath (path_join repoPath (tempFileName now))
                                    [] Pending true)) as Hr.
  { unfold st1, k, started. simpl. by rewrite lookup_insert_eq. }
  destruct (deliver_run st1 k evs _ Hr) as (r' & Hr' & Hc' & _ & Hf').
  simpl in Hc', Hf'.
  assert (history (deliver st1 k evs) repoPath = history st repoPath ++ [user]) as H2.
  { unfold history at 1. rewrite deliver_histories by done. exact H1. }
  split_and!.
  - exact H1.
  - done.
  - exact H2.
  - rewrite deliver_app. simpl. rewrite <- Hc'.
    rewrite (on_close_history _ _ _ _ Hr'). rewrite Hc', H2, Hf'.
    by rewrite <- app_assoc.
  - apply answered_iff.
  - intros err. unfold history at 1. simpl. by rewrite lookup_insert_eq.
  - apply step_history.
Qed.

(** *** The promise of an invocation *)

Lemma promise_of_run st k r : runs st !! k = Some r -> promise_of st k = settled r.
Proof. unfold promise_of. by intros ->. Qed.

Lemma on_event_settled st k e r :
  runs st !! k = Some r ->
  promise_of (on_event st k e) k =
  match e with
  | Data _ _ => settled r
  | Close code =>
      settle (settled r)
             (Resolved (Result (bool_decide (code = Some 0%Z)) (fullOutput r) code))
  | Error err => settle (settled r) (Rejected err)
  end.
Proof.
  intros Hr. unfold promise_of. destruct e as [[|] c|code|err]; simpl.
  - unfold on_stdout. rewrite Hr. simpl. by rewrite lookup_insert_eq.
  - unfold on_stderr. rewrite Hr. simpl. by rewrite Hr.
  - unfold on_close. rewrite Hr. simpl. by rewrite lookup_insert_eq.
  - unfold on_error. rewrite Hr. simpl. by rewrite lookup_insert_eq.
Qed.

(** A settled promise stays as it is. *)
Lemma deliver_settled st k evs r :
  runs st !! k = Some r -> settled r <> Pending ->
  promise_of (deliver st k evs) k = settled r.
Proof.
  revert st r. induction evs as [|e evs IH]; intros st r Hr Hs.
  { by apply promise_of_run. }
  destruct (on_event_run st k e r Hr) as (r1 & Hr1 & _).
  assert (settled r1 = settled r) as Heq.
  { rewrite <- (promise_of_run _ _ _ Hr1), (on_event_settled _ _ _ _ Hr).
    destruct e, (settled r); done. }
  simpl. rewrite (IH _ _ Hr1); congruence.
Qed.

(** Output chunks do not settle it. *)
Lemma deliver_data st k evs r :
  runs st !! k = Some r -> forallb is_data evs = true ->
  promise_of (deliver st k evs) k = settled r.
Proof.
  revert st r. induction evs as [|e evs IH]; intros st r Hr Hall.
  { by apply promise_of_run. }
  simpl in Hall. apply andb_true_iff in Hall as [He Hall].
  destruct (on_event_run st k e r Hr) as (r1 & Hr1 & _).
  assert (settled r1 = settled r) as Heq.
  { rewrite <- (promise_of_run _ _ _ Hr1), (on_event_settled _ _ _ _ Hr).
    by destruct e. }
  simpl. rewrite (IH _ _ Hr1); congruence.
Qed.

(** C5. An invocation whose child starts, writes its output and exits
    with a code other than 0 has its promise resolved, with
    [success: false], the accumulated output and that exit code: it is
    pending while the output arrives, resolved at the exit, and nothing
    that happens afterwards turns it into a rejection. An invocation whose
    child cannot be started (the [error] event comes first) has its
    promise rejected with that error, and so does one whose prompt file
    cannot be written; a later [close] does not resolve it. The first
    revision of the runner behaves alike: it resolves with
    [success: false], the stdout as [output], the stderr as [error] and
    the exit code, and rejects when the child cannot be started. *)
Theorem nonzero_exit_resolves st repoPath prompt now evs code later :
  forallb is_data evs = true ->
  code <> Some 0%Z ->
  let started := execute st repoPath prompt now None in
  let k := started.1 in
  let st1 := started.2 in
  let r := Resolved (Result false (stdout_of evs) code) in
  promise_of (deliver st1 k evs) k = Pending /\
  promise_of (deliver st1 k (evs ++ [Close code])) k = r /\
  promise_of (deliver st1 k (evs ++ Close code :: later)) k = r /\
  (forall err, promise_of (deliver st1 k (Error err :: later)) k = Rejected err) /\
  (forall err,
      let failed := execute st repoPath prompt now (Some err) in
      promise_of (deliver failed.2 failed.1 later) failed.1 = Rejected err) /\
  (forall old : GeminiLegacy.state,
      let first := GeminiLegacy.execute old in
      GeminiLegacy.promise_of
        (GeminiLegacy.deliver first.2 first.1 (evs ++ Close code :: later)) first.1
      = GeminiLegacy.Resolved
          (GeminiLegacy.Result false (stdout_of evs)
                               (Some (GeminiLegacy.stderr_of evs)) code) /\
      forall err,
        GeminiLegacy.promise_of
          (GeminiLegacy.deliver first.2 first.1 (Error err :: later)) first.1
        = GeminiLegacy.Rejected (lit "Failed to start Gemini CLI: " ++ err)).
Proof.
  intros Hevs Hcode started k st1 r.
  assert (runs st1 !! k = Some (Run repoPath (path_join repoPath (tempFileName now))
                                    [] Pending true)) as Hr.
  { unfold st1, k, started. simpl. by rewrite lookup_insert_eq. }
  destruct (deliver_run st1 k evs _ Hr) as (r' & Hr' & _ & _ & Hf').
  simpl in Hf'.
  assert (settled r' = Pending) as Hp.
  { rewrite <- (promise_of_run _ _ _ Hr'). by rewrite (deliver_data _ _ _ _ Hr). }
  assert (promise_of (on_event (deliver st1 k evs) k (Close code)) k = r) as Hclose.
  { rewrite (on_event_settled _ _ _ _ Hr'), Hp, Hf'. simpl. unfold r.
    by rewrite bool_decide_eq_false_2. }
  split_and!.
  - by rewrite (deliver_data _ _ _ _ Hr).
  - by rewrite deliver_app, deliver_cons.
  - rewrite deliver_app, deliver_cons.
    destruct (on_event_run _ k (Close code) _ Hr') as (r2 & Hr2 & _).
    rewrite (deliver_settled _ _ _ _ Hr2);
      rewrite <- (promise_of_run _ _ _ Hr2), Hclose; done.
  - intros err. rewrite deliver_cons.
    destruct (on_event_run _ k (Error err) _ Hr) as (r2 & Hr2 & _).
    pose proof (on_event_settled _ _ (Error err) _ Hr) as He.
    rewrite (deliver_settled _ _ _ _ Hr2);
      rewrite <- (promise_of_run _ _ _ Hr2), He; done.
  - intros err failed.
    assert (runs failed.2 !! failed.1 =
            Some (Run repoPath (path_join repoPath (tempFileName now))
                      [] (Rejected err) false)) as Hr0.
    { unfold failed. simpl. by rewrite lookup_insert_eq. }
    by rewrite (deliver_settled _ _ _ _ Hr0).
  - intros old first. split.
    + by apply GeminiLegacyFacts.close_resolves.
    + intros err. apply GeminiLegacyFacts.error_rejects.
Qed.

(** *** Output forwarding *)

Lemma forwarded_app tr tr' k : forwarded (tr ++ tr') k = forwarded tr k ++ forwarded tr' k.
Proof. unfold forwarded. by rewrite omap_app. Qed.

Lemma echoed_app tr tr' : echoed (tr ++ tr') = echoed tr ++ echoed tr'.
Proof. unfold echoed. by rewrite omap_app. Qed.

Lemma on_event_output st k e r :
  runs st !! k = Some r ->
  forwarded (trace (on_event st k e)) k = forwarded (trace st) k ++ chunks_of [e] /\
  echoed (trace (on_event st k e)) =
    echoed (trace st) ++ List.filter audible (chunks_of [e]).
Proof.
  intros Hr. destruct e as [[|] c|code|err]; simpl.
  - unfold on_stdout. rewrite Hr. simpl. rewrite forwarded_app, echoed_app. simpl.
    by rewrite decide_True.
  - unfold on_stderr. rewrite Hr. simpl. rewrite !forwarded_app, !echoed_app.
    unfold audible. simpl. rewrite decide_True by done.
    by destruct (includes c noise).
  - unfold on_close. rewrite Hr. simpl. rewrite !forwarded_app, !echoed_app.
    destruct (answered code (fullOutput r)); simpl; by rewrite !app_nil_r.
  - unfold on_error. rewrite Hr. simpl. rewrite !forwarded_app, !echoed_app.
    simpl; by rewrite !app_nil_r.
Qed.

Lemma chunks_of_cons e evs : chunks_of (e :: evs) = chunks_of [e] ++ chunks_of evs.
Proof. unfold chunks_of. simpl. by destruct e. Qed.

Lemma deliver_output st k evs r :
  runs st !! k = Some r ->
  forwarded (trace (deliver st k evs)) k = forwarded (trace st) k ++ chunks_of evs /\
  echoed (trace (deliver st k evs)) =
    echoed (trace st) ++ List.filter audible (chunks_of evs).
Proof.
  revert st r. induction evs as [|e evs IH]; intros st r Hr.
  { simpl. by rewrite !app_nil_r. }
  destruct (on_event_run st k e r Hr) as (r1 & Hr1 & _).
  destruct (on_event_output st k e r Hr) as [Hf He].
  destruct (IH _ _ Hr1) as [Hf' He'].
  rewrite deliver_cons, Hf', He', Hf, He, (chunks_of_cons e evs), List.filter_app.
  by rewrite !app_assoc.
Qed.

(** In [gemini.js], whatever the child of an invocation writes, in
    whatever order, [onOutput] of that invocation receives every chunk, each tagged with
    the stream it came from, in the order of arrival: what it has received
    after the events is what it had received before, followed by all the
    chunks. The console echo gets the stdout chunks and those stderr
    chunks that do not contain the noise substring; a stderr chunk that
    does contain it is not echoed and is still forwarded. *)
Theorem every_chunk_forwarded st repoPath prompt now evs :
  let started := execute st repoPath prompt now None in
  let k := started.1 in
  let st1 := started.2 in
  forwarded (trace (deliver st1 k evs)) k = forwarded (trace st) k ++ chunks_of evs /\
  echoed (trace (deliver st1 k evs)) =
    echoed (trace st) ++ List.filter audible (chunks_of evs) /\
  (forall chunk,
      includes chunk noise = true ->
      trace (on_stderr st1 k chunk) = trace st1 ++ [Output k stderr chunk]).
Proof.
  intros started k st1.
  assert (runs st1 !! k = Some (Run repoPath (path_join repoPath (tempFileName now))
                                    [] Pending true)) as Hr.
  { unfold st1, k, started. simpl. by rewrite lookup_insert_eq. }
  destruct (deliver_output st1 k evs _ Hr) as [Hf He].
  split_and!.
  - rewrite Hf. unfold st1, started. simpl. rewrite forwarded_app. simpl.
    by rewrite app_nil_r.
  - rewrite He. unfold st1, started. simpl. rewrite echoed_app. simpl.
    by rewrite app_nil_r.
  - intros chunk Hn. unfold on_stderr. rewrite Hr. simpl. by rewrite Hn.
Qed.

(** *** Cancellation *)

(** [cancel] does not look at its argument. *)
Lemma cancel_ignores_target st p q : cancel st p = cancel st q.
Proof. done. Qed.

(** It answers [true] exactly when it signalled the tracked process. *)
Lemma cancel_true_iff st p :
  ((cancel st p).1 = true <-> is_Some (activeProcess st)) /\
  killed (trace (cancel st p).2) =
    killed (trace st) ++ from_option (fun k => [k]) [] (activeProcess st).
Proof.
  unfold cancel, killed. destruct (activeProcess st) as [k|]; simpl.
  - rewrite omap_app. split; [|done]. split; eauto.
  - rewrite app_nil_r. split; [|done]. split; [done|]. by intros [? ?].
Qed.

(** With nothing tracked, every [cancel] answers [false] and changes
    nothing. *)
Lemma cancel_idle st p :
  activeProcess st = None -> cancel st p = (false, st).
Proof. unfold cancel. by intros ->. Qed.

End Facts.

(** C4, at a failing input. One target has a child running; [cancel] is
    called twice for another target, which has none, through the [cancel]
    handler of the server. The first call answers [{cancelled: true}] and
    signals the child of the first target; only the second answers
    [{cancelled: false}]. *)
Theorem cancel_kills_other_target :
  let alice := Git.getRepoPath Git.join_slash (lit "/repos") (lit "alice") (lit "app") in
  let bob := Git.getRepoPath Git.join_slash (lit "/repos") (lit "bob") (lit "site") in
  let payload := Obj [(lit "owner", Str (lit "bob")); (lit "repo", Str (lit "site"))] in
  let started := Gemini.execute join init alice (lit "add README") 0 None in
  let first := Index.cancel Git.join_slash (lit "/repos") started.2 payload in
  let second := Index.cancel Git.join_slash (lit "/repos") first.2 payload in
  alice <> bob /\
  cwd <$> runs started.2 !! started.1 = Some alice /\
  cancel started.2 bob = (true, first.2) /\
  first.1 = inl (Obj [(lit "cancelled", Bool true)]) /\
  killed (trace first.2) = [started.1] /\
  second.1 = inl (Obj [(lit "cancelled", Bool false)]).
Proof. vm_compute. split_and!; done. Qed.


Lemma history_grows_by_turns_witness :
  let repo := lit "/repos/alice/app" in
  let evs := [Data stderr (lit "Loaded cached credentials."); Data stdout (lit "OK")] in
  let started := Gemini.execute join init repo (lit "add README") 0 None in
  forallb (fun e => negb (is_close e)) evs = true /\
  history (deliver started.2 started.1 (evs ++ [Close (Some 0%Z)])) repo
  = [Turn User (lit "add README"); Turn Model (lit "OK")].
Proof.
  intros repo evs started. split; [reflexivity|].
  destruct (history_grows_by_turns join init repo (lit "add README") 0 evs
              (Some 0%Z) eq_refl) as (_ & _ & _ & H & _).
  exact H.
Defined.

(** Counterexample to C2 as worded, with the combined output. A child
    answers on stderr only and exits with code 0: its combined output is
    not blank and the run resolves as a success, yet the history gains no
    assistant turn, since the close callback looks at [fullOutput], which
    holds stdout alone. *)
Lemma stderr_only_success_adds_no_turn :
  let repo := lit "/repos/alice/app" in
  let evs := [Data stderr (lit "Nothing to change.")] in
  let started := Gemini.execute join init repo (lit "add README") 0 None in
  let final := deliver started.2 started.1 (evs ++ [Close (Some 0%Z)]) in
  trim (GeminiInv.combined_output evs) = lit "Nothing to change." /\
  stdout_of evs = [] /\
  promise_of final started.1 = Resolved (Result true [] (Some 0%Z)) /\
  history final repo = [Turn User (lit "add README")].
Proof. vm_compute. split_and!; reflexivity. Qed.

Lemma nonzero_exit_resolves_witness :
  let repo := lit "/repos/alice/app" in
  let evs := [Data stdout (lit "partial"); Data stderr (lit "boom")] in
  let code := Some 1%Z in
  let started := Gemini.execute join init repo (lit "add README") 0 None in
  forallb is_data evs = true /\
  code <> Some 0%Z /\
  promise_of (deliver started.2 started.1 (evs ++ [Close code])) started.1
  = Resolved (Result false (lit "partial") code).
Proof.
  intros repo evs code started.
  assert (code <> Some 0%Z) as Hcode by discriminate.
  split; [reflexivity|]. split; [exact Hcode|].
  destruct (nonzero_exit_resolves join init repo (lit "add README") 0 evs
              code [] eq_refl Hcode) as (_ & H & _).
  exact H.
Defined.

End GeminiFacts.

(* ===================================================================== *)
(** * Properties of the repository state manager *)
(* ===================================================================== *)

Module GitFacts.
Import JS Git.

Section Facts.
Context {world : Type}.
Variable exec : forall A, command A -> world -> (A + list N) * world.
Variable path_join : list (list N) -> list N.
Variable path_dirname : list N -> list N.
Variable reposDir : list N.

Abbreviation getRepoPath := (Git.getRepoPath path_join reposDir).
Abbreviation cloneOrPull := (Git.cloneOrPull exec path_join path_dirname reposDir).
Abbreviation commitAndPush := (Git.commitAndPush exec path_join reposDir).

(** Case analysis on the answers to the calls that a hypothesis or the
    goal is waiting for, in the order they are made. *)
Ltac answer H :=
  repeat match type of H with
         | context [exec ?A ?c ?w] =>
             let E := fresh "E" in
             destruct (exec A c w) as [[?|?] ?] eqn:E; simpl in H
         end.

Ltac unfold_run :=
  unfold run, Git.cloneOrPull, Git.commitAndPush, getDefaultBranch,
    bind, call, catch, ret.

(** A call that cannot add a commit leaves the number of commits alone,
    for any way of counting them that is blind to such calls. *)
Lemma count_step (count : world -> nat)
    (Hcount : forall A (c : command A) w0,
        writes_history c = false -> count (exec A c w0).2 = count w0)
    A (c : command A) w r w' :
  writes_history c = false -> exec A c w = (r, w') -> count w' = count w.
Proof. intros Hc E. by rewrite <- (Hcount A c w Hc), E. Qed.

(** C6. [commitAndPush] stages everything and asks for the status. When
    the status lists no file, it returns [{committed: false}] with its
    explanation, having made the staging calls only: no commit call, no
    push call, and the number of commits in the repository is what it was
    (none of the calls made can add one). A commit or push call is made
    only after a status that lists at least one file. A return of
    [{committed: true, hash, summary, branch}] means the calls made were
    the staging calls, then the commit with [message], the branch lookup,
    the rewrite of the remote URL with the token and the push of that
    branch; and when the status lists a file and those calls succeed, that
    is what it returns, with the hash and summary the commit answered. *)
Theorem commitAndPush_commits_only_staged owner repo message token :
  let dir := getRepoPath owner repo in
  let url := remote_url token owner repo in
  (forall w w1 w2 w3 w4 w5 status,
      exec _ (Open dir) w = (inl tt, w1) ->
      exec _ (AddConfig dir (lit "user.email") (lit "remote-dev@localhost")) w1
        = (inl tt, w2) ->
      exec _ (AddConfig dir (lit "user.name") (lit "Remote Dev System")) w2
        = (inl tt, w3) ->
      exec _ (Add dir (lit "-A")) w3 = (inl tt, w4) ->
      exec _ (Status dir) w4 = (inl status, w5) ->
      files status = [] ->
      run (commitAndPush owner repo message token) w
        = (inl (NotCommitted (lit "No changes to commit")), w5, staging dir) /\
      existsb is_commit (staging dir) = false /\
      existsb is_push (staging dir) = false /\
      (forall count : world -> nat,
          (forall A (c : command A) w0,
              writes_history c = false -> count (exec A c w0).2 = count w0) ->
          count w5 = count w)) /\
  (forall w r w' log,
      run (commitAndPush owner repo message token) w = (r, w', log) ->
      existsb is_commit log || existsb is_push log = true ->
      exists w4 w5 status rest,
        exec _ (Status dir) w4 = (inl status, w5) /\ files status <> [] /\
        log = staging dir ++ ask (Commit dir message) :: rest) /\
  (forall w hash summary branch w' log,
      run (commitAndPush owner repo message token) w
        = (inl (Committed hash summary branch), w', log) ->
      log = staging dir ++ publishing dir message url branch) /\
  (forall w w1 w2 w3 w4 w5 w6 w7 w8 w9 w10 status result head,
      exec _ (Open dir) w = (inl tt, w1) ->
      exec _ (AddConfig dir (lit "user.email") (lit "remote-dev@localhost")) w1
        = (inl tt, w2) ->
      exec _ (AddConfig dir (lit "user.name") (lit "Remote Dev System")) w2
        = (inl tt, w3) ->
      exec _ (Add dir (lit "-A")) w3 = (inl tt, w4) ->
      exec _ (Status dir) w4 = (inl status, w5) ->
      files status <> [] ->
      exec _ (Commit dir message) w5 = (inl result, w6) ->
      exec _ (Open dir) w6 = (inl tt, w7) ->
      exec _ (Revparse dir [lit "--abbrev-ref"; lit "HEAD"]) w7 = (inl head, w8) ->
      exec _ (Remote dir [lit "set-url"; lit "origin"; url]) w8 = (inl tt, w9) ->
      exec _ (Push dir (lit "origin") (trim head)) w9 = (inl tt, w10) ->
      run (commitAndPush owner repo message token) w
        = (inl (Committed (commit result) (summary result) (trim head)), w10,
           staging dir ++ publishing dir message url (trim head))).
Proof.
  intros dir url. split_and!.
  - intros w w1 w2 w3 w4 w5 status E1 E2 E3 E4 E5 Hfiles. split_and!.
    + unfold_run. fold dir. simpl. rewrite E1. simpl. rewrite E2. simpl.
      rewrite E3. simpl. rewrite E4. simpl. rewrite E5. simpl.
      by rewrite Hfiles.
    + done.
    + done.
    + intros count Hcount.
      etrans; [eapply (count_step count Hcount); [|exact E5]; done|].
      etrans; [eapply (count_step count Hcount); [|exact E4]; done|].
      etrans; [eapply (count_step count Hcount); [|exact E3]; done|].
      etrans; [eapply (count_step count Hcount); [|exact E2]; done|].
      eapply (count_step count Hcount); [|exact E1]; done.
  - intros w r w' log Hrun Hlog. revert Hrun. unfold_run. fold dir. simpl.
    intros Hrun. answer Hrun;
      try (injection Hrun as <- <- <-; done).
    all: match type of Hrun with
         | context [bool_decide (length (files ?s) = 0)] =>
             destruct (bool_decide_reflect (length (files s) = 0)) as [Hz|Hz];
             simpl in Hrun
         end.
    all: answer Hrun; try (injection Hrun as <- <- <-; done).
    all: injection Hrun as <- <- <-.
    all: do 4 eexists; split; [eassumption|]; split;
      [by intros Hnil; rewrite Hnil in Hz|reflexivity].
  - intros w hash summary branch w' log. unfold_run. fold dir. simpl.
    intros Hrun. answer Hrun; try done.
    all: match type of Hrun with
         | context [bool_decide (length (files ?s) = 0)] =>
             destruct (bool_decide_reflect (length (files s) = 0)) as [Hz|Hz];
             simpl in Hrun
         end; try done.
    all: answer Hrun; try done.
    all: by injection Hrun as <- <- <- <- <-.
  - intros w w1 w2 w3 w4 w5 w6 w7 w8 w9 w10 status result head
      E1 E2 E3 E4 E5 Hfiles E6 E7 E8 E9 E10.
    unfold_run. fold dir. simpl. rewrite E1. simpl. rewrite E2. simpl.
    rewrite E3. simpl. rewrite E4. simpl. rewrite E5. simpl.
    rewrite bool_decide_eq_false_2 by (by destruct (files status)). simpl.
    rewrite E6. simpl. rewrite E7. simpl. rewrite E8. simpl.
    fold url. rewrite E9. simpl. by rewrite E10.
Qed.

(** C7. Whenever [cloneOrPull] returns, its action is [cloned] or
    [pulled], its path is the resolved local path, and the action is
    [cloned] exactly when that path did not exist at the call and [pulled]
    exactly when it did. A [cloned] return has looked for the parent
    directory, created it when missing, and cloned from the URL that embeds
    the token; a [pulled] return has pulled [main] and, when that failed,
    [master]. Conversely: with the path absent, the call returns [cloned]
    as soon as the parent directory is there or can be created and the
    clone succeeds; with the path present, it returns [pulled] when the
    pull of [main] succeeds, and also when that fails and the pull of
    [master] succeeds. *)
Theorem cloneOrPull_action owner repo token :
  let dir := getRepoPath owner repo in
  let url := remote_url token owner repo in
  let parent := path_dirname dir in
  let main := ask (Pull dir (lit "origin") (lit "main")) in
  let master := ask (Pull dir (lit "origin") (lit "master")) in
  (forall w res w' log,
      run (cloneOrPull owner repo token) w = (inl res, w', log) ->
      path_of res = dir /\
      (action_of res = cloned \/ action_of res = pulled) /\
      (action_of res = cloned <-> (exec _ (ExistsSync dir) w).1 = inl false) /\
      (action_of res = pulled <-> (exec _ (ExistsSync dir) w).1 = inl true) /\
      (action_of res = cloned ->
       exists mk, (mk = [] \/ mk = [ask (MkdirSync parent)]) /\
         log = [ask (ExistsSync dir); ask (ExistsSync parent)] ++ mk
               ++ [ask (Clone url dir)]) /\
      (action_of res = pulled ->
       exists fallback, (fallback = [] \/ fallback = [master]) /\
         log = [ask (ExistsSync dir); ask (Open dir); main] ++ fallback)) /\
  (forall w w1 w2 w3 w4 (there : bool),
      exec _ (ExistsSync dir) w = (inl false, w1) ->
      exec _ (ExistsSync parent) w1 = (inl there, w2) ->
      (if there then w3 = w2 else exec _ (MkdirSync parent) w2 = (inl tt, w3)) ->
      exec _ (Clone url dir) w3 = (inl tt, w4) ->
      run (cloneOrPull owner repo token) w
        = (inl (CloneResult cloned dir), w4,
           [ask (ExistsSync dir); ask (ExistsSync parent)]
           ++ (if there then [] else [ask (MkdirSync parent)])
           ++ [ask (Clone url dir)])) /\
  (forall w w1 w2 w3,
      exec _ (ExistsSync dir) w = (inl true, w1) ->
      exec _ (Open dir) w1 = (inl tt, w2) ->
      exec _ (Pull dir (lit "origin") (lit "main")) w2 = (inl tt, w3) ->
      run (cloneOrPull owner repo token) w
        = (inl (CloneResult pulled dir), w3,
           [ask (ExistsSync dir); ask (Open dir); main])) /\
  (forall w w1 w2 w3 w4 err,
      exec _ (ExistsSync dir) w = (inl true, w1) ->
      exec _ (Open dir) w1 = (inl tt, w2) ->
      exec _ (Pull dir (lit "origin") (lit "main")) w2 = (inr err, w3) ->
      exec _ (Pull dir (lit "origin") (lit "master")) w3 = (inl tt, w4) ->
      run (cloneOrPull owner repo token) w
        = (inl (CloneResult pulled dir), w4,
           [ask (ExistsSync dir); ask (Open dir); main; master])).
Proof.
  intros dir url parent main master. split_and!.
  - intros w res w' log. unfold_run. fold dir. simpl.
    destruct (exec bool (ExistsSync dir) w) as [[[|]|e] w1] eqn:E1; simpl;
      intros Hrun; [| |done].
    + answer Hrun; try done.
      all: injection Hrun as <- <- <-; simpl.
      all: split_and!; try done; try (by right); try (by split).
      all: intros _.
      * exists []. by split; [left|].
      * exists [master]. by split; [right|].
    + fold parent in Hrun.
      destruct (exec bool (ExistsSync parent) w1) as [[[|]|e] w2] eqn:E2;
        simpl in Hrun; [| |done].
      all: answer Hrun; try done.
      all: injection Hrun as <- <- <-; simpl.
      all: split_and!; try done; try (by left); try (by split).
      all: intros _.
      * exists []. by split; [left|].
      * exists [ask (MkdirSync parent)]. by split; [right|].
  - intros w w1 w2 w3 w4 there E1 E2 E3 E4. unfold_run. fold dir. simpl.
    rewrite E1. simpl. fold parent. rewrite E2. simpl.
    destruct there; simpl.
    + subst w3. fold url. by rewrite E4.
    + rewrite E3. simpl. fold url. by rewrite E4.
  - intros w w1 w2 w3 E1 E2 E3. unfold_run. fold dir. simpl.
    rewrite E1. simpl. rewrite E2. simpl. by rewrite E3.
  - intros w w1 w2 w3 w4 err E1 E2 E3 E4. unfold_run. fold dir. simpl.
    rewrite E1. simpl. rewrite E2. simpl. rewrite E3. simpl. by rewrite E4.
Qed.

End Facts.

Lemma commitAndPush_commits_only_staged_witness :
  let d := Disk [alice_app] [] [] 3 0 in
  let message := lit "[Remote Dev] Changes" in
  let token := lit "ghp_token" in
  Git.getRepoPath join_slash root (lit "alice") (lit "app") = alice_app /\
  disk_exec _ (Open alice_app) d = (inl tt, d) /\
  disk_exec _ (Add alice_app (lit "-A")) d = (inl tt, d) /\
  disk_exec _ (Status alice_app) d = (inl (StatusResult []), d) /\
  run (Git.commitAndPush disk_exec join_slash root (lit "alice") (lit "app")
         message token) d
  = (inl (NotCommitted (lit "No changes to commit")), d, staging alice_app).
Proof.
  intros d message token.
  assert (Git.getRepoPath join_slash root (lit "alice") (lit "app") = alice_app)
    as Hp by (vm_compute; reflexivity).
  assert (disk_exec _ (Open alice_app) d = (inl tt, d)) as H1
    by (vm_compute; reflexivity).
  assert (disk_exec _ (Add alice_app (lit "-A")) d = (inl tt, d)) as H4
    by (vm_compute; reflexivity).
  assert (disk_exec _ (Status alice_app) d = (inl (StatusResult []), d)) as H5
    by (vm_compute; reflexivity).
  split_and!; [exact Hp|exact H1|exact H4|exact H5|].
  destruct (commitAndPush_commits_only_staged disk_exec join_slash root
              (lit "alice") (lit "app") message token) as (Hclean & _).
  rewrite Hp in Hclean.
  destruct (Hclean d d d d d d (StatusResult []) H1 eq_refl eq_refl H4 H5 eq_refl)
    as (Hrun & _).
  exact Hrun.
Defined.

Lemma cloneOrPull_action_witness :
  let d0 := Disk [root] [] [] 0 0 in
  let d1 := Disk [alice_app; lit "/repos/alice"; root] [] [] 0 0 in
  let token := lit "ghp_token" in
  let url := remote_url token (lit "alice") (lit "app") in
  disk_exec _ (ExistsSync alice_app) d0 = (inl false, d0) /\
  disk_exec _ (ExistsSync alice_app) d1 = (inl true, d1) /\
  run (Git.cloneOrPull disk_exec join_slash dirname_slash root
         (lit "alice") (lit "app") token) d0
  = (inl (CloneResult cloned alice_app), d1,
     [ask (ExistsSync alice_app); ask (ExistsSync (lit "/repos/alice"));
      ask (MkdirSync (lit "/repos/alice")); ask (Clone url alice_app)]) /\
  run (Git.cloneOrPull disk_exec join_slash dirname_slash root
         (lit "alice") (lit "app") token) d1
  = (inl (CloneResult pulled alice_app), d1,
     [ask (ExistsSync alice_app); ask (Open alice_app);
      ask (Pull alice_app (lit "origin") (lit "main"))]).
Proof.
  intros d0 d1 token url.
  assert (Git.getRepoPath join_slash root (lit "alice") (lit "app") = alice_app)
    as Hp by (vm_compute; reflexivity).
  assert (dirname_slash alice_app = lit "/repos/alice") as Hd
    by (vm_compute; reflexivity).
  assert (disk_exec _ (ExistsSync alice_app) d0 = (inl false, d0)) as H0
    by (vm_compute; reflexivity).
  assert (disk_exec _ (ExistsSync alice_app) d1 = (inl true, d1)) as H1
    by (vm_compute; reflexivity).
  destruct (cloneOrPull_action disk_exec join_slash dirname_slash root
              (lit "alice") (lit "app") token) as (_ & Hclone & Hpull & _).
  rewrite Hp in Hclone, Hpull. rewrite Hd in Hclone.
  split_and!; [exact H0|exact H1| |].
  - apply (Hclone d0 d0 d0 (Disk [lit "/repos/alice"; root] [] [] 0 0) d1 false H0);
      vm_compute; reflexivity.
  - apply (Hpull d1 d1 d1 d1 H1); vm_compute; reflexivity.
Defined.

End GitFacts.

(* ===================================================================== *)
(** * Properties of the client connection manager *)
(* ===================================================================== *)

Module ClientFacts.
Import JS Client.

Implicit Types (st : state) (ctor : option (list N)).

(** *** [connect] *)

Lemma connect_live st ctor :
  current_state st = Some OPEN \/ current_state st = Some CONNECTING ->
  connect st ctor = st.
Proof. unfold connect. by intros [-> | ->]. Qed.

Lemma connect_opens st :
  current_state st <> Some OPEN -> current_state st <> Some CONNECTING ->
  let w := fresh (dom (sockets st)) in
  wsRef (connect st None) = Some w /\
  sockets (connect st None) = <[w := Socket CONNECTING (ws_url (serverUrl st)) []]> (sockets st) /\
  current_state (connect st None) = Some CONNECTING.
Proof.
  intros Ho Hc w. unfold connect.
  destruct (current_state st) as [[]|] eqn:Hs; try done;
    (split_and!; [done|done|]);
    unfold current_state; simpl; by rewrite lookup_insert_eq.
Qed.

Lemma connect_twice st ctor : connect (connect st None) ctor = connect st None.
Proof.
  destruct (decide (current_state st = Some OPEN)) as [Ho|Ho].
  { rewrite (connect_live st None) by auto. apply connect_live; auto. }
  destruct (decide (current_state st = Some CONNECTING)) as [Hc|Hc].
  { rewrite (connect_live st None) by auto. apply connect_live; auto. }
  destruct (connect_opens st Ho Hc) as (_ & _ & Hs).
  apply connect_live; auto.
Qed.

Lemma live_fresh st :
  live st = ∅ ->
  live (connect (connect st None) None) = {[fresh (dom (sockets st))]}.
Proof.
  intros Hl. rewrite connect_twice.
  assert (current_state st <> Some OPEN /\ current_state st <> Some CONNECTING)
    as [Ho Hc].
  { unfold current_state.
    destruct (wsRef st) as [w|]; simpl; [|done].
    destruct (sockets st !! w) as [s|] eqn:Hs; simpl; [|done].
    assert (is_live s = false) as Hd.
    { destruct (is_live s) eqn:Hd; [|done].
      assert (w ∈ live st) as Hin; [|set_solver].
      unfold live. apply elem_of_dom. exists s.
      by apply map_lookup_filter_Some. }
    unfold is_live in Hd. apply orb_false_iff in Hd as [H1 H2].
    apply bool_decide_eq_false in H1. apply bool_decide_eq_false in H2.
    split; intros [= E]; auto. }
  destruct (connect_opens st Ho Hc) as (_ & Hs & _).
  unfold live in *. rewrite Hs.
  rewrite map_filter_insert_True by done.
  rewrite dom_insert_L, Hl. apply union_empty_r_L.
Qed.

(** The guard of [connect]. While the transport the hook holds is open or
    opening, [connect]
    returns the state it was given: no socket is created and nothing else
    changes, whether or not the constructor would have thrown. So two
    consecutive calls while the transport is open leave the live
    transports as they were, exactly that one. Moreover a call that comes
    right after a call that opened a transport is always such a no-op, so
    from a state without a live transport two consecutive calls end with
    exactly one. *)
Theorem connect_idempotent :
  (forall st ctor,
      current_state st = Some OPEN \/ current_state st = Some CONNECTING ->
      connect st ctor = st) /\
  (forall st w c1 c2,
      wsRef st = Some w -> current_state st = Some OPEN -> live st = {[w]} ->
      connect (connect st c1) c2 = st /\
      live (connect (connect st c1) c2) = {[w]} /\
      size (live (connect (connect st c1) c2)) = 1) /\
  (forall st ctor, connect (connect st None) ctor = connect st None) /\
  (forall st,
      live st = ∅ ->
      live (connect (connect st None) None) = {[fresh (dom (sockets st))]}).
Proof.
  split_and!.
  - apply connect_live.
  - intros st w c1 c2 Hw Ho Hl.
    rewrite (connect_live st c1), (connect_live st c2) by auto.
    rewrite Hl. split_and!; [done|done|].
    by rewrite size_singleton.
  - apply connect_twice.
  - apply live_fresh.
Qed.

Lemma connect_idempotent_witness :
  wsRef connected = Some 0 /\
  current_state connected = Some OPEN /\
  live connected = {[0]} /\
  connect (connect connected None) None = connected /\
  live (connect (connect connected None) None) = {[0]} /\
  size (live (connect (connect connected None) None)) = 1.
Proof.
  assert (wsRef connected = Some 0) as Hw by (vm_compute; reflexivity).
  assert (current_state connected = Some OPEN) as Ho by (vm_compute; reflexivity).
  assert (live connected = {[0]}) as Hl by (vm_compute; reflexivity).
  split_and!; [exact Hw|exact Ho|exact Hl|..];
    apply (proj1 (proj2 connect_idempotent) connected 0 None None Hw Ho Hl).
Defined.

(** C9, at a failing input. The page calls [connect], socket 0 opens, the
    page calls [disconnect] and [connect] again, socket 1 opens, and then
    the close event of socket 0 arrives. Its [onclose] clears [wsRef]
    although the ref holds socket 1 by then. Socket 1 is open, it is the
    one live transport, and the guard of [connect] no longer sees it: the
    next [connect] creates socket 2, two transports are live, and two
    consecutive calls leave two, not one. *)
Theorem connect_after_stale_close :
  let st := on_close ClientInv.remounted 0 1000 in
  wsRef ClientInv.remounted = Some 1 /\
  readyState <$> sockets st !! 1 = Some OPEN /\
  live st = {[1]} /\
  wsRef st = None /\
  connect st None <> st /\
  live (connect st None) = {[1; 2]} /\
  live (connect (connect st None) None) = {[1; 2]} /\
  size (live (connect (connect st None) None)) = 2.
Proof. vm_compute. split_and!; try reflexivity. discriminate. Qed.

(** *** [request] *)

(** The timer of a request does not touch the handler map. *)
Lemma on_timeout_handlers st r :
  messageHandlers (on_timeout st r) = messageHandlers st.
Proof.
  unfold on_timeout. destruct (requests st !! r) as [q|]; [|done].
  by destruct (armed q).
Qed.

(** C3, at failing inputs. A connected client calls
    [request('get_commits', null)], which registers the result handler
    (handle 0) under [get_commits_result] and the error handler (handle 1)
    under [error]. When the result arrives, the promise resolves and the
    result handler is removed, but the error handler stays registered.
    When instead the timeout fires, the promise is rejected and both
    handlers stay registered. Only the correlated error and the failed
    send remove both. *)
Theorem request_leaks_handlers :
  let kind := lit "get_commits" in
  let called := request connected kind Null in
  let r := called.1 in
  let st1 := called.2 in
  let result := Obj [(lit "type", Str (responseType kind)); (lit "payload", Arr [])] in
  let failure :=
    Obj [(lit "type", Str (lit "error"));
         (lit "payload", Obj [(lit "originalType", Str kind);
                              (lit "message", Str (lit "Handler error: boom"))])] in
  let after_result := on_message st1 (Some result) in
  let after_timeout := on_timeout st1 r in
  let after_error := on_message st1 (Some failure) in
  let offline := request (init (lit "https://laptop.example") (lit "s3cret")) kind Null in
  (messageHandlers st1 !! responseType kind = Some [0] /\
   messageHandlers st1 !! lit "error" = Some [1] /\
   settled <$> requests st1 !! r = Some Pending) /\
  (settled <$> requests after_result !! r = Some (Resolved (Arr [])) /\
   messageHandlers after_result !! responseType kind = Some [] /\
   messageHandlers after_result !! lit "error" = Some [1]) /\
  (settled <$> requests after_timeout !! r = Some (Rejected (lit "Request timeout")) /\
   messageHandlers after_timeout !! responseType kind = Some [0] /\
   messageHandlers after_timeout !! lit "error" = Some [1]) /\
  (settled <$> requests after_error !! r = Some (Rejected (lit "Handler error: boom")) /\
   messageHandlers after_error !! responseType kind = Some [] /\
   messageHandlers after_error !! lit "error" = Some []) /\
  (settled <$> requests offline.2 !! offline.1 = Some (Rejected (lit "Not connected")) /\
   messageHandlers offline.2 !! responseType kind = Some [] /\
   messageHandlers offline.2 !! lit "error" = Some []).
Proof. vm_compute. split_and!; reflexivity. Qed.

(** The error frame the server itself sends carries [originalType] beside
    [type], not inside a [payload]: the error handler is called with
    [undefined], reading [originalType] off it throws, and the request
    stays pending with both handlers registered. *)
Lemma server_error_frame_unmatched :
  let kind := lit "get_commits" in
  let called := request connected kind Null in
  let frame := Server.msg_handler_error (Str kind) (lit "boom") in
  let st2 := on_message called.2 (Some frame) in
  settled <$> requests st2 !! called.1 = Some Pending /\
  messageHandlers st2 !! responseType kind = Some [0] /\
  messageHandlers st2 !! lit "error" = Some [1].
Proof. vm_compute. split_and!; reflexivity. Qed.

End ClientFacts.

(* ===================================================================== *)
(** * Further properties of the server *)
(* ===================================================================== *)

Module ServerMore.
Import JS Server ServerInv ServerFacts.

Section Facts.
Context {handler : Type}.
Variable sharedSecret : list N.
Variable handlers : list N -> option handler.

Abbreviation state := (@Server.state handler).
Abbreviation on_message := (Server.on_message sharedSecret handlers).
Abbreviation step := (Server.step sharedSecret handlers).
Abbreviation run := (Server.run sharedSecret handlers).

Implicit Types (st : state) (w cid : nat) (c : client).

(** X1. A message of kind [auth] is settled inside the server. With the
    shared secret in its payload the record's flag becomes true and the
    one reply is [auth_success]; with anything else the one reply is
    [auth_failed] and the record is left as it was, so a failed attempt
    neither closes the connection nor revokes an earlier success. Either
    way no handler is called and the client table is unchanged. *)
Theorem auth_outcome st cid c message :
  objects st !! cid = Some c ->
  is_auth (Some message) = true ->
  let st' := on_message st cid (Some message) in
  (good_auth sharedSecret message = true ->
   st' = send (set_authenticated st cid c) (ws c) msg_auth_success /\
   objects st' = <[cid := Client (ws c) true]> (objects st)) /\
  (good_auth sharedSecret message = false ->
   st' = send st (ws c) msg_auth_failed /\ objects st' = objects st) /\
  calls st' = calls st /\
  clients st' = clients st.
Proof.
  intros Hc Hk st'. unfold st', Server.on_message. rewrite Hc.
  unfold Server.handleMessage, good_auth. simpl in Hk. unfold get_opt in Hk.
  destruct (get_both message) as [[Ht _]|(type & payload & Ht & Hp)];
    rewrite Ht in *; [done|]. simpl in Hk. rewrite Hp, Hk. simpl.
  destruct (is_str (get_opt payload (lit "secret")) sharedSecret).
  - destruct (send_frame (set_authenticated st cid c) (ws c) msg_auth_success)
      as (Ho & Hcl & Hk').
    split_and!; [by intros _|done|by rewrite Hk'|by rewrite Hcl].
  - destruct (send_frame st (ws c) msg_auth_failed) as (Ho & Hcl & Hk').
    split_and!; [done|by intros _|done|done].
Qed.

(** X2. On an authenticated connection every message has exactly one of
    two effects. If its kind converts to a property key that names a
    handler, that handler is called once with the payload and nothing is
    sent yet. Otherwise (a key without handler, a kind that cannot be
    converted to a key, text that does not parse, a message that cannot
    be destructured) one frame of kind [error] is sent and no handler is
    called; when the kind has no key, or the message is not an object to
    destructure, or the text does not parse, that frame is the one of
    [Invalid message format]. The record and the client table stay as
    they are. *)
Theorem dispatch_outcome st cid c data :
  objects st !! cid = Some c ->
  authenticated c = true ->
  is_auth data = false ->
  let st' := on_message st cid data in
  objects st' = objects st /\ clients st' = clients st /\
  ((exists message type payload key h,
       data = Some message /\ get message (lit "type") = Some type /\
       get message (lit "payload") = Some payload /\
       to_string type = Some key /\ handlers key = Some h /\
       st' = invoke st cid h payload /\ sockets st' = sockets st) \/
   (exists reply,
       get reply (lit "type") = Some (Str (lit "error")) /\
       st' = send st (ws c) reply /\ calls st' = calls st /\
       (forall message type key,
          data = Some message -> get message (lit "type") = Some type ->
          to_string type = Some key -> handlers key = None) /\
       ((data = None \/
         (exists message, data = Some message /\ get message (lit "type") = None) \/
         (exists message type, data = Some message /\
            get message (lit "type") = Some type /\ to_string type = None)) ->
        exists err, reply = msg_invalid err))).
Proof.
  intros Hc Ha Hk st'. unfold st', Server.on_message. rewrite Hc.
  destruct data as [message|]; last first.
  { destruct (send_frame st (ws c) (msg_invalid (lit "Unexpected token")))
      as (Ho & Hcl & Hk').
    split_and!; [done|done|]. right. exists (msg_invalid (lit "Unexpected token")).
    split_and!; [done|done|done|done|by eexists]. }
  unfold Server.handleMessage. simpl in Hk. unfold get_opt in Hk.
  destruct (get_both message) as [[Ht _]|(type & payload & Ht & Hp)]; rewrite Ht in *.
  { destruct (send_frame st (ws c) (msg_invalid (lit "Cannot destructure")))
      as (Ho & Hcl & Hk').
    split_and!; [done|done|]. right. exists (msg_invalid (lit "Cannot destructure")).
    split_and!; [done|done|done| |by eexists].
    by intros ? ? ? [= <-]; rewrite Ht. }
  simpl in Hk. rewrite Hp, Hk, Ha. simpl.
  destruct (to_string type) as [key|] eqn:Hkey; last first.
  { destruct (send_frame st (ws c)
                (msg_invalid (lit "Cannot convert object to primitive value")))
      as (Ho & Hcl & Hk').
    split_and!; [done|done|]. right.
    exists (msg_invalid (lit "Cannot convert object to primitive value")).
    split_and!; [done|done|done| |by eexists].
    intros ? ? ? [= <-]. rewrite Ht. intros [= <-]. by rewrite Hkey. }
  destruct (handlers key) as [h|] eqn:Hh.
  - split_and!; [done|done|]. left. by exists message, type, payload, key, h.
  - destruct (send_frame st (ws c) (msg_unknown type)) as (Ho & Hcl & Hk').
    split_and!; [done|done|]. right. exists (msg_unknown type).
    split_and!; [done|done|done| |].
    + intros ? ? ? [= <-]. rewrite Ht. intros [= <-]. rewrite Hkey.
      by intros [= <-].
    + intros [?|[(m & [= <-] & Hn)|(m & t & [= <-] & Ht' & Hn)]]; [done| |].
      * by rewrite Ht in Hn.
      * rewrite Ht in Ht'. injection Ht' as <-. by rewrite Hkey in Hn.
Qed.

(** *** The flag never goes back *)

Lemma step_keeps_record st e cid c :
  objects st !! cid = Some c ->
  exists c', objects (step st e) !! cid = Some c' /\ ws c' = ws c /\
             (authenticated c = true -> authenticated c' = true).
Proof.
  intros Hc. destruct e as [|cid' data| | |w type r| |w rs]; simpl.
  - unfold on_connection.
    match goal with |- context [objects (send ?s ?w ?d)] =>
      destruct (send_frame s w d) as (-> & _ & _) end. simpl.
    exists c. rewrite lookup_insert_ne; [done|].
    intros <-. apply (is_fresh (dom (objects st))). apply elem_of_dom. eauto.
  - destruct (on_message_cases sharedSecret handlers st cid' data)
      as [[Ho _]|[(c1 & m & -> & Hc1 & Hg & Ho & _)|(c1 & m & h & p & _ & _ & _ & Ho & _)]];
      rewrite Ho; [by exists c| |by exists c].
    destruct (decide (cid' = cid)) as [->|Hne].
    + rewrite lookup_insert_eq. eexists. split; [done|]. simpl.
      split; [congruence|done].
    + rewrite lookup_insert_ne by done. by exists c.
  - by exists c.
  - unfold handler_progress.
    match goal with |- context [objects (send ?s ?w ?d)] =>
      destruct (send_frame s w d) as (-> & _ & _) end. by exists c.
  - unfold handler_settled. destruct r; [destruct (to_string type)|];
    match goal with |- context [objects (send ?s ?w ?d)] =>
      destruct (send_frame s w d) as (-> & _ & _) end; by exists c.
  - destruct (broadcast_frame st data) as [-> _]. by exists c.
  - unfold socket_state. destruct (sockets st !! w); by exists c.
Qed.

(** X3. The [authenticated] flag only ever goes from false to true: once
    a record has it set, it has it set after any further events (messages
    of any kind, failed [auth] attempts, other connections coming and
    going, its own [close]), and the record keeps its socket. *)
Theorem authenticated_forever st tr cid c :
  objects st !! cid = Some c ->
  authenticated c = true ->
  exists c', objects (run st tr) !! cid = Some c' /\
             authenticated c' = true /\ ws c' = ws c.
Proof.
  revert st c. induction tr as [|e tr IH]; intros st c Hc Ha.
  { by exists c. }
  destruct (step_keeps_record st e cid c Hc) as (c1 & Hc1 & Hw1 & Ha1).
  destruct (IH _ _ Hc1 (Ha1 Ha)) as (c' & Hc' & Ha' & Hw').
  exists c'. split_and!; [done|done|congruence].
Qed.

(** *** Reachable states are well formed *)

Lemma send_socket_exists st w w' data :
  is_Some (sockets (send st w data) !! w') <-> is_Some (sockets st !! w').
Proof. by rewrite <- !(fmap_is_Some readyState), send_ready. Qed.

Lemma broadcast_socket_exists st w' data :
  is_Some (sockets (broadcast st data) !! w') <-> is_Some (sockets st !! w').
Proof.
  unfold broadcast. generalize (elements (clients st)). intros l.
  revert st. induction l as [|cid l IH]; intros st; [done|].
  simpl. destruct (objects st !! cid) as [c|]; [|by apply IH].
  destruct (authenticated c); [|by apply IH].
  by rewrite IH, send_socket_exists.
Qed.

Lemma broadcast_clients st data : clients (broadcast st data) = clients st.
Proof.
  unfold broadcast. generalize (elements (clients st)) at 1. intros l.
  revert st. induction l as [|cid l IH]; intros st; [done|].
  simpl. destruct (objects st !! cid) as [c|]; [|by apply IH].
  destruct (authenticated c); [|by apply IH].
  rewrite IH. by destruct (send_frame st (ws c) data) as (_ & -> & _).
Qed.

Lemma on_message_sockets_clients st cid data w' :
  (is_Some (sockets (on_message st cid data) !! w') <-> is_Some (sockets st !! w')) /\
  clients (on_message st cid data) = clients st.
Proof.
  unfold Server.on_message. destruct (objects st !! cid) as [c|]; [|done].
  destruct data as [message|]; last first.
  { split; [apply send_socket_exists|].
    by destruct (send_frame st (ws c) (msg_invalid (lit "Unexpected token")))
      as (_ & -> & _). }
  unfold Server.handleMessage.
  destruct (get_both message) as [[Ht _]|(type & payload & Ht & Hp)]; rewrite Ht.
  { split; [apply send_socket_exists|].
    by destruct (send_frame st (ws c) (msg_invalid (lit "Cannot destructure")))
      as (_ & -> & _). }
  rewrite Hp.
  destruct (is_str type (lit "auth"));
    [destruct (is_str (get_opt payload (lit "secret")) sharedSecret)
    |destruct (authenticated c); simpl;
       [destruct (to_string type) as [key|]; [destruct (handlers key)|]|]];
    simpl;
    (split;
     [first [done | by rewrite send_socket_exists]
     |first [done | by match goal with |- clients (send ?s ?w ?d) = _ =>
                         destruct (send_frame s w d) as (_ & -> & _) end]]).
Qed.

Lemma step_wf st e : wf st -> wf (step st e).
Proof.
  intros (Hreg & Hsock & Huniq).
  destruct e as [|cid data|cid|w progress|w type r|data|w rs]; simpl.
  - unfold on_connection.
    set (w := fresh (dom (sockets st))). set (cid := fresh (dom (objects st))).
    assert (sockets st !! w = None) as Hw.
    { apply not_elem_of_dom. apply is_fresh. }
    assert (objects st !! cid = None) as Hcid.
    { apply not_elem_of_dom. apply is_fresh. }
    unfold wf.
    match goal with |- context [send ?s ?w ?d] =>
      destruct (send_frame s w d) as (-> & -> & _) end. simpl.
    split_and!.
    + intros cid' [->%elem_of_singleton|Hin]%elem_of_union.
      * by rewrite lookup_insert_eq.
      * destruct (Hreg _ Hin) as [c Hc]. exists c.
        rewrite lookup_insert_ne; [done|congruence].
    + intros cid' c [[_ <-]|[_ Hc]]%lookup_insert_Some;
        apply send_socket_exists; simpl.
      * by rewrite lookup_insert_eq.
      * destruct (Hsock _ _ Hc) as [s Hs]. exists s.
        rewrite lookup_insert_ne; [done|congruence].
    + intros cid1 cid2 c1 c2 [[<- <-]|[Hn1 Hc1]]%lookup_insert_Some
        [[<- <-]|[Hn2 Hc2]]%lookup_insert_Some; simpl; intros Heq; try done.
      * destruct (Hsock _ _ Hc2) as [s Hs]. congruence.
      * destruct (Hsock _ _ Hc1) as [s Hs]. congruence.
      * by eapply Huniq.
  - unfold wf.
    destruct (on_message_sockets_clients st cid data 0) as [_ ->].
    assert (forall cid' c', objects (on_message st cid data) !! cid' = Some c' ->
              exists c0, objects st !! cid' = Some c0 /\ ws c0 = ws c') as Hback.
    { intros cid' c' Hc'.
      destruct (on_message_cases sharedSecret handlers st cid data)
        as [[Ho _]|[(c1 & m & -> & Hc1 & Hg & Ho & _)|(c1 & m & h & p & _ & _ & _ & Ho & _)]];
        rewrite Ho in Hc'; [by exists c'| |by exists c'].
      apply lookup_insert_Some in Hc' as [[<- <-]|[_ Hc']]; [by exists c1|by exists c']. }
    split_and!.
    + intros cid' Hin. destruct (Hreg _ Hin) as [c Hc].
      destruct (step_keeps_record st (Message cid data) cid' c Hc) as (c' & Hc' & _).
      by exists c'.
    + intros cid' c' Hc'. destruct (Hback _ _ Hc') as (c0 & Hc0 & <-).
      apply on_message_sockets_clients. by eapply Hsock.
    + intros cid1 cid2 c1 c2 H1 H2 Heq.
      destruct (Hback _ _ H1) as (d1 & Hd1 & E1).
      destruct (Hback _ _ H2) as (d2 & Hd2 & E2).
      eapply Huniq; [done|done|congruence].
  - unfold wf, on_close. simpl. split_and!; [|done|done].
    intros cid' [Hin _]%elem_of_difference. by apply Hreg.
  - unfold wf, handler_progress.
    match goal with |- context [send ?s ?w ?d] =>
      destruct (send_frame s w d) as (-> & -> & _) end.
    split_and!; [done| |done].
    intros cid' c Hc. apply send_socket_exists. by eapply Hsock.
  - unfold wf, handler_settled. destruct r; [destruct (to_string type)|];
    match goal with |- context [send ?s ?w ?d] =>
      destruct (send_frame s w d) as (-> & -> & _) end;
    (split_and!; [done| |done]);
    intros cid' c Hc; apply send_socket_exists; by eapply Hsock.
  - unfold wf. rewrite broadcast_clients.
    destruct (broadcast_frame st data) as [-> _].
    split_and!; [done| |done].
    intros cid' c Hc. apply broadcast_socket_exists. by eapply Hsock.
  - unfold wf, socket_state. destruct (sockets st !! w) as [s|] eqn:Hs; [|done].
    simpl. split_and!; [done| |done].
    intros cid' c Hc. destruct (decide (ws c = w)) as [->|Hne].
    + by rewrite lookup_insert_eq.
    + rewrite lookup_insert_ne by done. by eapply Hsock.
Qed.

(** X4. Whatever sequence of connections, messages, closes, handler
    completions, broadcasts and socket state changes the server goes
    through from its initial state, every key of the client table has a
    record, every record's socket exists, and no two connections share a
    socket. *)
Theorem reachable_wf tr : wf (run (@init handler) tr).
Proof.
  induction tr as [|e tr IH] using rev_ind.
  - unfold wf. simpl. split_and!; [set_solver|done|done].
  - rewrite (run_snoc sharedSecret handlers). by apply step_wf.
Qed.

(** *** [broadcast] *)

Lemma visit_frame data st cid :
  objects (visit data st cid) = objects st.
Proof.
  unfold visit. destruct (objects st !! cid) as [c|]; [|done].
  destruct (authenticated c); [|done].
  by destruct (send_frame st (ws c) data) as (-> & _ & _).
Qed.

Lemma visits_untouched data l st w :
  (forall cid c, cid ∈ l -> objects st !! cid = Some c -> authenticated c = true ->
                 ws c <> w) ->
  sockets (foldl (visit data) st l) !! w = sockets st !! w.
Proof.
  revert st. induction l as [|cid l IH]; intros st Hl; [done|].
  simpl. rewrite IH.
  - unfold visit. destruct (objects st !! cid) as [c|] eqn:Hc; [|done].
    destruct (authenticated c) eqn:Ha; [|done].
    apply send_other. apply not_eq_sym. eapply Hl; [left|done|done].
  - intros cid' c' Hin Hc' Ha'. rewrite visit_frame in Hc'.
    eapply Hl; [by right|done|done].
Qed.

Lemma visits_once data l st cid0 c0 :
  NoDup l -> cid0 ∈ l ->
  objects st !! cid0 = Some c0 -> authenticated c0 = true ->
  is_open st (ws c0) = true ->
  (forall cid c, objects st !! cid = Some c -> ws c = ws c0 -> cid = cid0) ->
  sent (foldl (visit data) st l) (ws c0) = sent st (ws c0) ++ [data].
Proof.
  revert st. induction l as [|cid l IH]; intros st Hnd Hin Hc0 Ha0 Ho Huniq.
  { by apply elem_of_nil in Hin. }
  apply NoDup_cons in Hnd as [Hnotin Hnd]. simpl.
  destruct (decide (cid = cid0)) as [->|Hne].
  - unfold sent at 1. rewrite visits_untouched.
    + unfold visit. rewrite Hc0, Ha0. by rewrite send_open.
    + intros cid c Hcin Hc Ha Heq. rewrite visit_frame in Hc.
      apply Hnotin. by rewrite <- (Huniq _ _ Hc Heq).
  - apply elem_of_cons in Hin as [->|Hin]; [done|].
    assert (sent (visit data st cid) (ws c0) = sent st (ws c0) /\
            is_open (visit data st cid) (ws c0) = true) as [Hs Ho'].
    { unfold visit. destruct (objects st !! cid) as [c|] eqn:Hc; [|done].
      destruct (authenticated c); [|done]. rewrite send_is_open. split; [|done].
      unfold sent. rewrite send_other; [done|].
      intros Heq. apply Hne. symmetry in Heq. by eapply Huniq. }
    rewrite IH; try done.
    + by rewrite Hs.
    + by rewrite visit_frame.
    + intros cid' c' Hc'. rewrite visit_frame in Hc'. by apply Huniq.
Qed.

(** X5. In a well-formed state, [broadcast(data)] hands [data] exactly
    once to every connection that is in the client table, authenticated,
    and whose socket is open, and leaves every socket that belongs to no
    such connection (unauthenticated, closed and removed, or not a
    client's at all) exactly as it was. It changes no record, no table
    entry and calls no handler. *)
Theorem broadcast_reach st data :
  wf st ->
  (forall cid c,
      listening st cid c -> is_open st (ws c) = true ->
      sent (broadcast st data) (ws c) = sent st (ws c) ++ [data]) /\
  (forall w,
      (forall cid c, listening st cid c -> ws c <> w) ->
      sockets (broadcast st data) !! w = sockets st !! w) /\
  objects (broadcast st data) = objects st /\
  clients (broadcast st data) = clients st /\
  calls (broadcast st data) = calls st.
Proof.
  intros (Hreg & Hsock & Huniq).
  destruct (broadcast_frame st data) as [Ho Hk].
  split_and!; [| |done|apply broadcast_clients|done].
  - intros cid c (Hin & Hc & Ha) Hopen.
    apply (visits_once data (elements (clients st)) st cid c); try done.
    + apply NoDup_elements.
    + by apply elem_of_elements.
    + intros cid' c' Hc' Heq. by eapply Huniq.
  - intros w Hw.
    apply (visits_untouched data (elements (clients st)) st w).
    intros cid c Hin Hc Ha. apply (Hw cid c).
    split_and!; [by apply elem_of_elements|done|done].
Qed.

End Facts.

Lemma auth_outcome_witness :
  let st := fresh_connection in
  let c := Client 0 false in
  objects st !! 0 = Some c /\
  is_auth (Some demo_auth) = true /\
  good_auth (lit "s3cret") demo_auth = true /\
  objects authed_connection = <[0 := Client 0 true]> (objects st) /\
  sent authed_connection 0 = [msg_welcome; msg_auth_success].
Proof.
  intros st c.
  assert (objects st !! 0 = Some c) as H1 by (vm_compute; reflexivity).
  assert (is_auth (Some demo_auth) = true) as H2 by (vm_compute; reflexivity).
  assert (good_auth (lit "s3cret") demo_auth = true) as H3 by (vm_compute; reflexivity).
  destruct (auth_outcome (lit "s3cret") demo_handlers st 0 c demo_auth H1 H2)
    as (Hgood & _).
  destruct (Hgood H3) as [Hst Hobj].
  split_and!; [exact H1|exact H2|exact H3|exact Hobj|].
  unfold authed_connection. fold st. rewrite Hst. vm_compute. reflexivity.
Defined.

Lemma dispatch_outcome_witness :
  let c := Client 0 true in
  let type := Obj [(lit "toString", Null)] in
  let data := Some (Obj [(lit "type", type); (lit "payload", Null)]) in
  let st' := Server.on_message (lit "s3cret") demo_handlers authed_connection 0 data in
  objects authed_connection !! 0 = Some c /\
  authenticated c = true /\
  is_auth data = false /\
  to_string type = None /\
  objects st' = objects authed_connection /\
  clients st' = clients authed_connection /\
  exists err, st' = send authed_connection 0 (msg_invalid err).
Proof.
  intros c type data st'.
  assert (objects authed_connection !! 0 = Some c) as H1 by (vm_compute; reflexivity).
  assert (is_auth data = false) as H3 by (vm_compute; reflexivity).
  assert (to_string type = None) as H4 by (vm_compute; reflexivity).
  destruct (dispatch_outcome (lit "s3cret") demo_handlers authed_connection 0 c data
              H1 eq_refl H3)
    as (Ho & Hc & [(m & t & p & key & h & [= <-] & [= <-] & _ & Hkey & _)
                  |(reply & _ & Hst & _ & _ & Hinv)]).
  { rewrite H4 in Hkey. discriminate Hkey. }
  split_and!; [exact H1|reflexivity|exact H3|exact H4|exact Ho|exact Hc|].
  destruct Hinv as (err & ->).
  { right; right. by exists (Obj [(lit "type", type); (lit "payload", Null)]), type. }
  exists err. exact Hst.
Defined.

Lemma authenticated_forever_witness :
  let c := Client 0 true in
  let wrong := Obj [(lit "type", Str (lit "auth")); (lit "payload", Null)] in
  let tr := [Message 0 (Some wrong); Close 0; Connection] in
  objects authed_connection !! 0 = Some c /\
  authenticated c = true /\
  exists c', objects (Server.run (lit "s3cret") demo_handlers authed_connection tr) !! 0
             = Some c' /\
             authenticated c' = true /\ ws c' = ws c.
Proof.
  intros c wrong tr.
  assert (objects authed_connection !! 0 = Some c) as H1 by (vm_compute; reflexivity).
  split_and!; [exact H1|reflexivity|].
  exact (authenticated_forever (lit "s3cret") demo_handlers authed_connection tr 0 c
           H1 eq_refl).
Defined.

Lemma broadcast_reach_witness :
  let c := Client 0 true in
  wf authed_connection /\
  listening authed_connection 0 c /\
  is_open authed_connection 0 = true /\
  sent (broadcast authed_connection Null) 0 = sent authed_connection 0 ++ [Null].
Proof.
  intros c.
  assert (wf authed_connection) as Hwf.
  { exact (reachable_wf (lit "s3cret") demo_handlers
             [Connection; Message 0 (Some demo_auth)]). }
  assert (listening authed_connection 0 c) as Hl.
  { unfold listening. split; [|split; [vm_compute; reflexivity|reflexivity]].
    apply (bool_decide_unpack (0 ∈ clients authed_connection)). vm_compute. exact I. }
  assert (is_open authed_connection 0 = true) as Ho by (vm_compute; reflexivity).
  destruct (broadcast_reach authed_connection Null Hwf) as (Hreach & _).
  split_and!; [exact Hwf|exact Hl|exact Ho|].
  exact (Hreach 0 c Hl Ho).
Defined.

End ServerMore.

(* ===================================================================== *)
(** * Further properties of the process orchestrator *)
(* ===================================================================== *)

Module GeminiMore.
Import JS Gemini GeminiInv GeminiFacts.

Section Facts.
Variable path_join : list N -> list N -> list N.

Abbreviation execute := (Gemini.execute path_join).

Implicit Types (st : state) (k : nat) (evs : list proc_event).

Lemma spawned_run st repoPath prompt now :
  let started := execute st repoPath prompt now None in
  runs started.2 !! started.1 =
  Some (Run repoPath (path_join repoPath (tempFileName now)) [] Pending true).
Proof. simpl. by rewrite lookup_insert_eq. Qed.

(** The history of the target once a child that had printed nothing yet
    has printed [evs] and exited *)
Lemma exited_history_of st1 k r evs code :
  runs st1 !! k = Some r -> fullOutput r = [] ->
  forallb (fun e => negb (is_close e)) evs = true ->
  history (deliver st1 k (evs ++ [Close code])) (cwd r) =
  history st1 (cwd r) ++
  (if answered code (stdout_of evs) then [Turn Model (trim (stdout_of evs))] else []).
Proof.
  intros Hr Hout Hevs.
  destruct (deliver_run _ _ evs _ Hr) as (r' & Hr' & Hc' & _ & Hf').
  rewrite Hout in Hf'. simpl in Hf'.
  rewrite deliver_app, deliver_cons.
  change (deliver (on_event (deliver st1 k evs) k (Close code)) k [])
    with (on_close (deliver st1 k evs) k code).
  rewrite <- Hc'. rewrite (on_close_history _ _ _ _ Hr'), Hf'.
  unfold history at 1. by rewrite deliver_histories.
Qed.

Lemma exited_history st repoPath prompt now evs code :
  forallb (fun e => negb (is_close e)) evs = true ->
  let started := execute st repoPath prompt now None in
  history (deliver started.2 started.1 (evs ++ [Close code])) repoPath =
  history st repoPath ++ [Turn User prompt] ++
  (if answered code (stdout_of evs) then [Turn Model (trim (stdout_of evs))] else []).
Proof.
  intros Hevs started.
  pose proof (exited_history_of started.2 started.1 _ evs code
                (spawned_run st repoPath prompt now) eq_refl Hevs) as H.
  simpl in H. unfold started. simpl. rewrite H.
  unfold history at 1. simpl. rewrite lookup_insert_eq. simpl.
  by rewrite <- app_assoc.
Qed.

(** X6. Context carries over. On a target without history, a first
    invocation with prompt [p1] whose child prints [evs] and exits, then a
    second with prompt [p2]: the prompt file the second one writes holds
    the preamble, the first request as a [User] line, the first answer
    (trimmed) as an [Assistant] line when the first child exited with code
    0 and non-blank output, then the current request. When the first run
    failed or printed nothing, the first request is still there, without
    an answer. *)
Theorem second_prompt_embeds_first st repoPath p1 p2 now1 now2 evs code :
  history st repoPath = [] ->
  forallb (fun e => negb (is_close e)) evs = true ->
  let first := execute st repoPath p1 now1 None in
  let done := deliver first.2 first.1 (evs ++ [Close code]) in
  let second := execute done repoPath p2 now2 None in
  let answer :=
    if answered code (stdout_of evs)
    then lit "Assistant: " ++ trim (stdout_of evs) ++ newline else [] in
  trace second.2 =
  trace done ++
  [Pushed repoPath (Turn User p2);
   WriteFile (path_join repoPath (tempFileName now2))
             (lit "PREVIOUS MESSAGES:" ++ newline
              ++ lit "User: " ++ p1 ++ newline ++ answer
              ++ newline ++ lit "CURRENT REQUEST:" ++ newline ++ p2);
   Spawn second.1 repoPath (command now2)].
Proof.
  intros Hempty Hevs first done second answer.
  assert (history done repoPath =
          [Turn User p1] ++
          (if answered code (stdout_of evs)
           then [Turn Model (trim (stdout_of evs))] else [])) as Hh.
  { unfold done, first. rewrite exited_history by done. by rewrite Hempty. }
  clearbody done. clear first. unfold second, answer, Gemini.execute.
  cbn [fst snd trace]. rewrite Hh.
  assert (lit "User" ++ lit ": " = lit "User: ") as Hu by reflexivity.
  assert (lit "Assistant" ++ lit ": " = lit "Assistant: ") as Ha by reflexivity.
  destruct (answered code (stdout_of evs));
    unfold fullPrompt, render; cbn [app fmap list_fmap concat turn_role text];
    rewrite <- !app_assoc, (app_assoc (lit "User")), Hu,
      ?(app_assoc (lit "Assistant")), ?Ha; reflexivity.
Qed.

(** *** Histories only grow *)

Lemma users_app h h' : users (h ++ h') = users h + users h'.
Proof. unfold users. by rewrite List.filter_app, length_app. Qed.

Lemma added_users st ev p :
  users (added st ev p) = if is_execute_on p ev then 1 else 0.
Proof.
  destruct ev as [repoPath prompt now write| | |k [s c|code|err]]; simpl; try done.
  - destruct (decide (repoPath = p)) as [->|Hne].
    + by rewrite bool_decide_eq_true_2.
    + by rewrite bool_decide_eq_false_2.
  - destruct (runs st !! k) as [r|]; [|done].
    destruct (decide (cwd r = p)); [|done].
    by destruct (answered code (fullOutput r)).
Qed.

(** X7. Histories are append-only, under any interleaving of invocations,
    children's output, exits, errors, cancellations and session starts on
    any targets: after a sequence of transitions the history of a target
    is its old history followed by new turns, and the number of user turns
    among the new ones is the number of [execute] invocations on that
    target in the sequence. No turn is ever dropped or rewritten. *)
Theorem history_append_only st tr p :
  exists new,
    history (run path_join st tr) p = history st p ++ new /\
    users new = executions p tr.
Proof.
  revert st. induction tr as [|ev tr IH]; intros st.
  { exists []. by rewrite app_nil_r. }
  destruct (IH (step path_join st ev)) as (new & Hh & Hu).
  exists (added st ev p ++ new). split.
  - change (run path_join st (ev :: tr))
      with (run path_join (step path_join st ev) tr).
    rewrite Hh, (step_history path_join). by rewrite app_assoc.
  - rewrite users_app, Hu, added_users. unfold executions. simpl.
    by destruct (is_execute_on p ev).
Qed.

(** *** The prompt file *)

(** Output chunks touch neither the file system nor the tracked process,
    and signal nothing. *)
Lemma deliver_data_quiet st k evs r :
  runs st !! k = Some r -> forallb is_data evs = true ->
  exists between,
    trace (deliver st k evs) = trace st ++ between /\
    forallb (fun e => negb (is_unlink e)) between = true /\
    killed between = [] /\
    activeProcess (deliver st k evs) = activeProcess st.
Proof.
  revert st r. induction evs as [|e evs IH]; intros st r Hr Hevs.
  { exists []. by rewrite app_nil_r. }
  simpl in Hevs. apply andb_true_iff in Hevs as [He Hevs].
  destruct (on_event_run st k e r Hr) as (r1 & Hr1 & _).
  destruct (IH _ _ Hr1 Hevs) as (b & Hb & Hnb & Hkb & Hab).
  rewrite deliver_cons, Hb, Hab.
  destruct e as [[|] c| |]; try done.
  - change (on_event st k (Data stdout c)) with (on_stdout st k c).
    unfold on_stdout. rewrite Hr. cbn [trace activeProcess].
    eexists. rewrite <- app_assoc. split; [reflexivity|]. by split_and!.
  - change (on_event st k (Data stderr c)) with (on_stderr st k c).
    unfold on_stderr. rewrite Hr. cbn [trace activeProcess].
    eexists. rewrite <- !app_assoc. split; [reflexivity|].
    unfold killed in *. rewrite !forallb_app, !omap_app, Hnb, Hkb.
    by destruct (includes c noise).
Qed.

Lemma end_unlinks st k r last :
  runs st !! k = Some r -> is_data last = false ->
  exists rest,
    trace (on_event st k last) = trace st ++ Unlink (tempFilePath r) :: rest /\
    forallb (fun e => negb (is_unlink e)) rest = true.
Proof.
  intros Hr Hlast. destruct last as [s c|code|err]; [done| |].
  - change (on_event st k (Close code)) with (on_close st k code).
    unfold on_close. rewrite Hr. cbn [trace]. eexists.
    split; [reflexivity|].
    by destruct (answered code (fullOutput r)).
  - change (on_event st k (Error err)) with (on_error st k err).
    unfold on_error. rewrite Hr. cbn [trace]. by exists [].
Qed.

(** X8. The prompt file of an invocation is removed when its child ends,
    however it ends: the exit callback and the error callback both start
    by unlinking the very path that [execute] wrote to, and the output
    callbacks before them never unlink anything. *)
Theorem prompt_file_removed st repoPath prompt now evs last :
  forallb is_data evs = true ->
  is_data last = false ->
  let started := execute st repoPath prompt now None in
  let file := path_join repoPath (tempFileName now) in
  let running := deliver started.2 started.1 evs in
  exists full rest between,
    trace running = trace st ++ [Pushed repoPath (Turn User prompt);
                                 WriteFile file full;
                                 Spawn started.1 repoPath (command now)] ++ between /\
    forallb (fun e => negb (is_unlink e)) between = true /\
    trace (on_event running started.1 last) = trace running ++ Unlink file :: rest /\
    forallb (fun e => negb (is_unlink e)) rest = true.
Proof.
  intros Hevs Hlast started file running.
  pose proof (spawned_run st repoPath prompt now) as Hr. fold started in Hr.
  destruct (deliver_data_quiet _ _ evs _ Hr Hevs) as (between & Hb & Hnb & _).
  destruct (deliver_run _ _ evs _ Hr) as (r' & Hr' & _ & Ht' & _). simpl in Ht'.
  destruct (end_unlinks _ _ _ last Hr' Hlast) as (rest & Hrest & Hnr).
  rewrite Ht' in Hrest.
  exists (fullPrompt (history st repoPath) prompt), rest, between.
  split_and!; [|done|exact Hrest|done].
  unfold running. rewrite Hb. unfold started, Gemini.execute. cbn [snd trace].
  by rewrite <- app_assoc.
Qed.

(** *** Cancellation *)

Lemma cancel_then_exit_of st1 k r evs q q' :
  runs st1 !! k = Some r -> settled r = Pending -> activeProcess st1 = Some k ->
  forallb is_data evs = true ->
  (cancel (deliver st1 k evs) q).1 = true /\
  killed (trace (cancel (deliver st1 k evs) q).2) = killed (trace st1) ++ [k] /\
  promise_of (cancel (deliver st1 k evs) q).2 k = Pending /\
  promise_of (on_close (cancel (deliver st1 k evs) q).2 k None) k
    = Resolved (Result false (fullOutput r ++ stdout_of evs) None) /\
  histories (on_close (cancel (deliver st1 k evs) q).2 k None) = histories st1 /\
  cancel (on_close (cancel (deliver st1 k evs) q).2 k None) q'
    = (false, on_close (cancel (deliver st1 k evs) q).2 k None).
Proof.
  intros Hr Hp0 Hact Hevs.
  destruct (deliver_data_quiet _ _ evs _ Hr Hevs) as (between & Hb & _ & Hkb & Hab).
  destruct (deliver_run _ _ evs _ Hr) as (r' & Hr' & Hc' & _ & Hf').
  assert (settled r' = Pending) as Hp.
  { rewrite <- (promise_of_run _ _ _ Hr'). by rewrite (deliver_data _ _ _ _ Hr). }
  assert (histories (deliver st1 k evs) = histories st1) as Hh.
  { apply deliver_histories. clear -Hevs.
    induction evs as [|e evs IH]; [done|]. simpl in *.
    apply andb_true_iff in Hevs as [He Hevs]. rewrite IH by done.
    by destruct e. }
  set (running := deliver st1 k evs) in *.
  assert (cancel running q = (true, State (histories running) None (runs running)
                                      (trace running ++ [Kill k]))) as Hcan.
  { unfold cancel. by rewrite Hab, Hact. }
  rewrite Hcan. cbn [fst snd].
  assert (on_close (State (histories running) None (runs running)
                          (trace running ++ [Kill k])) k None
          = State (histories running) None
              (<[k := Run (cwd r') (tempFilePath r') (fullOutput r')
                          (Resolved (Result false (fullOutput r') None))
                          (spawned r')]> (runs running))
              ((trace running ++ [Kill k]) ++ [Unlink (tempFilePath r')] ++ []))
    as Hex.
  { unfold on_close. cbn [runs histories trace]. rewrite Hr', Hp. done. }
  rewrite Hex. split_and!.
  - done.
  - cbn [trace]. unfold killed in *. rewrite omap_app, Hb, omap_app, Hkb, app_nil_r.
    done.
  - unfold promise_of. cbn [runs]. by rewrite Hr'.
  - unfold promise_of. cbn [runs]. rewrite lookup_insert_eq. cbn. by rewrite Hf'.
  - done.
  - done.
Qed.

(** X9. Cancelling a running invocation only signals its child: the
    promise stays pending until the child's exit arrives. When the child
    then exits on the signal (exit code [null]), the promise resolves
    with [success: false], the output printed so far and exit code
    [null]; the history keeps the user turn and gains no assistant turn,
    whatever was printed; and a further [cancel] answers [false] and
    changes nothing. *)
Theorem cancel_then_exit st repoPath prompt now evs q q' :
  forallb is_data evs = true ->
  let started := execute st repoPath prompt now None in
  let k := started.1 in
  let running := deliver started.2 k evs in
  let cancelled := cancel running q in
  let exited := on_close cancelled.2 k None in
  cancelled.1 = true /\
  killed (trace cancelled.2) = killed (trace st) ++ [k] /\
  promise_of cancelled.2 k = Pending /\
  promise_of exited k = Resolved (Result false (stdout_of evs) None) /\
  history exited repoPath = history st repoPath ++ [Turn User prompt] /\
  cancel exited q' = (false, exited).
Proof.
  intros Hevs started k running cancelled exited.
  pose proof (spawned_run st repoPath prompt now) as Hr.
  assert (history started.2 repoPath = history st repoPath ++ [Turn User prompt])
    as H1.
  { unfold history at 1. simpl. by rewrite lookup_insert_eq. }
  assert (killed (trace started.2) = killed (trace st)) as Hk0.
  { unfold started, killed, Gemini.execute. cbn [snd trace].
    rewrite omap_app. simpl. by rewrite app_nil_r. }
  destruct (cancel_then_exit_of started.2 started.1 _ evs q q' Hr eq_refl eq_refl Hevs)
    as (G1 & G2 & G3 & G4 & G5 & G6).
  split_and!; [exact G1| |exact G3|exact G4| |exact G6].
  - unfold cancelled, running, k. by rewrite G2, Hk0.
  - unfold exited, cancelled, running, k, history at 1. rewrite G5. exact H1.
Qed.

(** X10. The runner tracks one child for all targets, and every exit
    clears the field. With two invocations in flight, the field holds the
    second child; when the first child exits, the field becomes empty
    although the second child is still running, and from then on
    [cancel] answers [false] for every target and signals nothing. *)
Theorem exit_forgets_other_child st p1 q1 n1 p2 q2 n2 code q :
  let first := execute st p1 q1 n1 None in
  let second := execute first.2 p2 q2 n2 None in
  let after := on_close second.2 first.1 code in
  first.1 <> second.1 /\
  activeProcess second.2 = Some second.1 /\
  activeProcess after = None /\
  promise_of after second.1 = Pending /\
  spawned <$> runs after !! second.1 = Some true /\
  cancel after q = (false, after).
Proof.
  intros first second after.
  pose proof (spawned_run st p1 q1 n1) as Hr1. fold first in Hr1.
  pose proof (spawned_run first.2 p2 q2 n2) as Hr2. fold second in Hr2.
  assert (first.1 <> second.1) as Hne.
  { intros Heq. apply (is_fresh (dom (runs first.2))).
    change (fresh (dom (runs first.2))) with second.1. rewrite <- Heq.
    apply elem_of_dom. by rewrite Hr1. }
  assert (runs second.2 !! first.1 = Some (Run p1 (path_join p1 (tempFileName n1))
                                             [] Pending true)) as Hr1'.
  { unfold second, Gemini.execute. cbn [snd runs].
    rewrite lookup_insert_ne; [exact Hr1|]. intros Heq. by apply Hne. }
  assert (activeProcess after = None /\ runs after !! second.1 = runs second.2 !! second.1)
    as [Ha Hrun].
  { unfold after, on_close. rewrite Hr1'. cbn [activeProcess runs].
    split; [done|]. by rewrite lookup_insert_ne. }
  split_and!; [done|done|done| | |].
  - unfold promise_of. by rewrite Hrun, Hr2.
  - by rewrite Hrun, Hr2.
  - unfold cancel. by rewrite Ha.
Qed.

End Facts.

(** *** The PowerShell revision *)

Lemma passes_cons e evs :
  List.filter passes (chunks_of (e :: evs)) =
  List.filter passes (chunks_of [e]) ++ List.filter passes (chunks_of evs).
Proof. by rewrite (chunks_of_cons e evs), List.filter_app. Qed.

Lemma powershell_event st k e r :
  runs st !! k = Some r ->
  exists r', runs (GeminiPowerShell.on_event st k e) !! k = Some r' /\
             cwd r' = cwd r /\
             fullOutput r' = fullOutput r ++ stdout_of [e] /\
             forwarded (trace (GeminiPowerShell.on_event st k e)) k =
             forwarded (trace st) k ++ List.filter passes (chunks_of [e]).
Proof.
  intros Hr.
  assert (forall c, forwarded [Echo stdout c; Output k stdout c] k = [(stdout, c)])
    as Hfo.
  { intros c. unfold forwarded. simpl. by rewrite decide_True. }
  assert (forall c, forwarded [Echo stderr c; Output k stderr c] k = [(stderr, c)])
    as Hfe.
  { intros c. unfold forwarded. simpl. by rewrite decide_True. }
  destruct e as [[|] c|code|err].
  - change (GeminiPowerShell.on_event st k (Data stdout c))
      with (GeminiPowerShell.on_stdout st k c).
    assert (stdout_of [Data stdout c] = c) as ->.
    { unfold stdout_of. cbn. apply app_nil_r. }
    change (chunks_of [Data stdout c]) with [(stdout, c)]. cbn [List.filter].
    change (passes (stdout, c))
      with (negb (includes c (lit "YOLO mode is enabled")
                  || includes c (lit "Loaded cached credentials"))).
    unfold GeminiPowerShell.on_stdout. rewrite Hr.
    destruct (includes c (lit "YOLO mode is enabled")
              || includes c (lit "Loaded cached credentials"));
      cbn [runs trace negb]; rewrite lookup_insert_eq; eexists;
      (split; [reflexivity|]); (split; [done|]); (split; [done|]).
    + by rewrite app_nil_r.
    + by rewrite forwarded_app, Hfo.
  - change (GeminiPowerShell.on_event st k (Data stderr c))
      with (GeminiPowerShell.on_stderr st k c).
    assert (stdout_of [Data stderr c] = []) as -> by done.
    change (chunks_of [Data stderr c]) with [(stderr, c)]. cbn [List.filter].
    change (passes (stderr, c))
      with (negb (includes c (lit "Loaded cached credentials"))
            && negb (includes c (lit "YOLO mode is enabled"))
            && negb (includes c (lit "Passing args to a child process"))).
    unfold GeminiPowerShell.on_stderr. rewrite Hr.
    destruct (negb (includes c (lit "Loaded cached credentials"))
              && negb (includes c (lit "YOLO mode is enabled"))
              && negb (includes c (lit "Passing args to a child process")));
      cbn [runs trace]; rewrite Hr; exists r; rewrite !app_nil_r;
      (split; [reflexivity|]); (split; [done|]); (split; [done|]).
    + by rewrite forwarded_app, Hfe.
    + done.
  - change (GeminiPowerShell.on_event st k (Close code))
      with (Gemini.on_event st k (Close code)).
    destruct (on_event_run st k (Close code) r Hr) as (r' & Hr' & Hc' & _ & Hf').
    destruct (on_event_output st k (Close code) r Hr) as [Hfw _].
    exists r'. by rewrite Hfw.
  - change (GeminiPowerShell.on_event st k (Error err))
      with (Gemini.on_event st k (Error err)).
    destruct (on_event_run st k (Error err) r Hr) as (r' & Hr' & Hc' & _ & Hf').
    destruct (on_event_output st k (Error err) r Hr) as [Hfw _].
    exists r'. by rewrite Hfw.
Qed.

(** X11. In the PowerShell revision, [onOutput] receives exactly the
    chunks that pass its noise filter, in order: a stdout chunk unless it
    contains [YOLO mode is enabled] or [Loaded cached credentials], a
    stderr chunk unless it contains one of those or [Passing args to a
    child process]. The accumulated output, from which the result and the
    assistant turn are taken, still holds every stdout chunk, filtered or
    not. *)
Theorem powershell_filters_display st k evs r :
  runs st !! k = Some r ->
  exists r', runs (GeminiPowerShell.deliver st k evs) !! k = Some r' /\
             cwd r' = cwd r /\
             fullOutput r' = fullOutput r ++ stdout_of evs /\
             forwarded (trace (GeminiPowerShell.deliver st k evs)) k =
             forwarded (trace st) k ++ List.filter passes (chunks_of evs).
Proof.
  revert st r. induction evs as [|e evs IH]; intros st r Hr.
  { exists r. by rewrite !app_nil_r. }
  destruct (powershell_event st k e r Hr) as (r1 & Hr1 & Hc1 & Hf1 & Hw1).
  destruct (IH _ _ Hr1) as (r2 & Hr2 & Hc2 & Hf2 & Hw2).
  exists r2. split; [exact Hr2|]. split; [congruence|]. split.
  - rewrite Hf2, Hf1, (stdout_of_cons e evs). by rewrite app_assoc.
  - change (GeminiPowerShell.deliver st k (e :: evs))
      with (GeminiPowerShell.deliver (GeminiPowerShell.on_event st k e) k evs).
    rewrite Hw2, Hw1, (passes_cons e evs). by rewrite app_assoc.
Qed.

Lemma second_prompt_embeds_first_witness :
  let repo := lit "/repos/alice/app" in
  let evs := [Data stdout (lit "OK")] in
  let first := Gemini.execute join init repo (lit "add README") 0 None in
  let done := deliver first.2 first.1 (evs ++ [Close (Some 0%Z)]) in
  let second := Gemini.execute join done repo (lit "add LICENSE") 1 None in
  history init repo = [] /\
  forallb (fun e => negb (is_close e)) evs = true /\
  trace second.2 =
  trace done ++
  [Pushed repo (Turn User (lit "add LICENSE"));
   WriteFile (join repo (tempFileName 1))
             (lit "PREVIOUS MESSAGES:" ++ newline
              ++ lit "User: " ++ lit "add README" ++ newline
              ++ (lit "Assistant: " ++ lit "OK" ++ newline)
              ++ newline ++ lit "CURRENT REQUEST:" ++ newline ++ lit "add LICENSE");
   Spawn second.1 repo (command 1)].
Proof.
  intros repo evs first done second.
  split; [reflexivity|]. split; [reflexivity|].
  exact (second_prompt_embeds_first join init repo (lit "add README")
           (lit "add LICENSE") 0 1 evs (Some 0%Z) eq_refl eq_refl).
Defined.

Lemma prompt_file_removed_witness :
  let repo := lit "/repos/alice/app" in
  let evs := [Data stdout (lit "OK")] in
  let started := Gemini.execute join init repo (lit "add README") 0 None in
  let running := deliver started.2 started.1 evs in
  forallb is_data evs = true /\
  is_data (Error (lit "ENOENT")) = false /\
  exists full rest between,
    trace running = trace init ++ [Pushed repo (Turn User (lit "add README"));
                                   WriteFile (join repo (tempFileName 0)) full;
                                   Spawn started.1 repo (command 0)] ++ between /\
    forallb (fun e => negb (is_unlink e)) between = true /\
    trace (on_event running started.1 (Error (lit "ENOENT")))
      = trace running ++ Unlink (join repo (tempFileName 0)) :: rest /\
    forallb (fun e => negb (is_unlink e)) rest = true.
Proof.
  intros repo evs started running.
  split; [reflexivity|]. split; [reflexivity|].
  exact (prompt_file_removed join init repo (lit "add README") 0 evs
           (Error (lit "ENOENT")) eq_refl eq_refl).
Defined.

Lemma cancel_then_exit_witness :
  let repo := lit "/repos/alice/app" in
  let evs := [Data stdout (lit "partial answer")] in
  let started := Gemini.execute join init repo (lit "add README") 0 None in
  let cancelled := cancel (deliver started.2 started.1 evs) repo in
  let exited := on_close cancelled.2 started.1 None in
  forallb is_data evs = true /\
  promise_of exited started.1 = Resolved (Result false (lit "partial answer") None) /\
  history exited repo = [Turn User (lit "add README")].
Proof.
  intros repo evs started cancelled exited.
  split; [reflexivity|].
  destruct (cancel_then_exit join init repo (lit "add README") 0 evs repo repo eq_refl)
    as (_ & _ & _ & H4 & H5 & _).
  split; [exact H4|exact H5].
Defined.

Lemma powershell_filters_display_witness :
  let repo := lit "/repos/alice/app" in
  let banner := lit "YOLO mode is enabled." in
  let evs := [Data stdout banner; Data stdout (lit "Done")] in
  let started := GeminiPowerShell.execute join init repo (lit "add README") 0 None in
  runs started.2 !! started.1
    = Some (Run repo (join repo (tempFileName 0)) [] Pending true) /\
  exists r', runs (GeminiPowerShell.deliver started.2 started.1 evs) !! started.1
             = Some r' /\
             cwd r' = repo /\
             fullOutput r' = [] ++ stdout_of evs /\
             forwarded (trace (GeminiPowerShell.deliver started.2 started.1 evs))
                       started.1
             = forwarded (trace started.2) started.1
               ++ List.filter passes (chunks_of evs).
Proof.
  intros repo banner evs started.
  assert (runs started.2 !! started.1
          = Some (Run repo (join repo (tempFileName 0)) [] Pending true)) as Hr
    by (vm_compute; reflexivity).
  split; [exact Hr|].
  exact (powershell_filters_display started.2 started.1 evs _ Hr).
Defined.

End GeminiMore.

(* ===================================================================== *)
(** * What [onOutput] receives, in both revisions of the orchestrator *)
(* ===================================================================== *)

Module GeminiOutputFacts.
Import JS Gemini GeminiInv.

Section Facts.
Variable path_join : list N -> list N -> list N.



End Facts.
End GeminiOutputFacts.

(* ===================================================================== *)
(** * Properties of the availability probe *)
(* ===================================================================== *)

Module ProbeFacts.
Import Probe.

Lemma answered_stays st evs b :
  answer st = Some b -> answer (run st evs) = Some b.
Proof.
  revert st. induction evs as [|e evs IH]; intros st Ha; [done|].
  apply IH. destruct e; simpl; unfold resolve; simpl; try by rewrite Ha.
  destruct (armed st); simpl; by rewrite Ha.
Qed.

Lemma run_kills st evs :
  kills (run st evs) =
  kills st + (if armed st && existsb is_timeout evs then 1 else 0).
Proof.
  revert st. induction evs as [|e evs IH]; intros st.
  { simpl. by rewrite andb_false_r, Nat.add_0_r. }
  change (run st (e :: evs)) with (run (on_event st e) evs). rewrite IH.
  clear IH. destruct e; simpl; destruct (armed st) eqn:Ha; simpl; rewrite ?Ha;
    destruct (existsb is_timeout evs); simpl; lia.
Qed.

(** X12. The availability probe always resolves, and with a boolean: with
    [true] exactly when the first thing that happens is the child closing
    with exit code 0, with [false] when the child fails, closes with any
    other code or the two seconds run out first. Nothing that happens
    later changes the answer, in particular not the timer, which is never
    cleared and still fires after a successful probe. [kill] is called
    once if the timer fires and never otherwise. *)
Theorem probe_answer e evs :
  answer (run init (e :: evs)) =
    Some (match e with
          | Closed code => bool_decide (code = Some 0%Z)
          | Failed | TimedOut => false
          end) /\
  kills (run init (e :: evs)) = (if existsb is_timeout (e :: evs) then 1 else 0).
Proof.
  split.
  - change (run init (e :: evs)) with (run (on_event init e) evs).
    apply answered_stays. by destruct e.
  - by rewrite run_kills.
Qed.

End ProbeFacts.

(* ===================================================================== *)
(** * Further properties of the repository state manager *)
(* ===================================================================== *)

Module GitMore.
Import JS Git GitCalls GitFaults.

Section Facts.
Context {world : Type}.
Variable exec : forall A, command A -> world -> (A + list N) * world.
Variable path_join : list (list N) -> list N.
Variable path_dirname : list N -> list N.
Variable reposDir : list N.

Abbreviation getRepoPath := (Git.getRepoPath path_join reposDir).
Abbreviation cloneOrPull := (Git.cloneOrPull exec path_join path_dirname reposDir).
Abbreviation commitAndPush := (Git.commitAndPush exec path_join reposDir).

Ltac answer H :=
  repeat match type of H with
         | context [exec ?A ?c ?w] =>
             let E := fresh "E" in
             destruct (exec A c w) as [[?|?] ?] eqn:E; simpl in H
         end.

Ltac unfold_run :=
  unfold run, Git.cloneOrPull, Git.commitAndPush, getDefaultBranch,
    bind, call, catch, ret.

(** X13. [commitAndPush] is not atomic, and it raises what [git] raises.
    Once the status lists a file: if the commit call throws, that error is
    raised and neither the remote URL nor the remote branch is touched; if
    the push throws (a rejected push, say), that error is raised although
    the commit has been made, so the local repository is one commit ahead
    and the caller sees a failure. *)
Theorem commit_failures owner repo message token :
  let dir := getRepoPath owner repo in
  let url := remote_url token owner repo in
  forall w w1 w2 w3 w4 w5 status,
    exec _ (Open dir) w = (inl tt, w1) ->
    exec _ (AddConfig dir (lit "user.email") (lit "remote-dev@localhost")) w1
      = (inl tt, w2) ->
    exec _ (AddConfig dir (lit "user.name") (lit "Remote Dev System")) w2
      = (inl tt, w3) ->
    exec _ (Add dir (lit "-A")) w3 = (inl tt, w4) ->
    exec _ (Status dir) w4 = (inl status, w5) ->
    files status <> [] ->
    (forall w6 err,
        exec _ (Commit dir message) w5 = (inr err, w6) ->
        run (commitAndPush owner repo message token) w
          = (inr err, w6, staging dir ++ [ask (Commit dir message)])) /\
    (forall w6 w7 w8 w9 w10 result head err,
        exec _ (Commit dir message) w5 = (inl result, w6) ->
        exec _ (Open dir) w6 = (inl tt, w7) ->
        exec _ (Revparse dir [lit "--abbrev-ref"; lit "HEAD"]) w7 = (inl head, w8) ->
        exec _ (Remote dir [lit "set-url"; lit "origin"; url]) w8 = (inl tt, w9) ->
        exec _ (Push dir (lit "origin") (trim head)) w9 = (inr err, w10) ->
        run (commitAndPush owner repo message token) w
          = (inr err, w10, staging dir ++ publishing dir message url (trim head))).
Proof.
  intros dir url w w1 w2 w3 w4 w5 status E1 E2 E3 E4 E5 Hfiles.
  assert (bool_decide (length (files status) = 0) = false) as Hne.
  { apply bool_decide_eq_false_2. by destruct (files status). }
  split.
  - intros w6 err E6. unfold_run. fold dir. simpl.
    rewrite E1. simpl. rewrite E2. simpl. rewrite E3. simpl. rewrite E4. simpl.
    rewrite E5. simpl. rewrite Hne. simpl. by rewrite E6.
  - intros w6 w7 w8 w9 w10 result head err E6 E7 E8 E9 E10.
    unfold_run. fold dir. simpl.
    rewrite E1. simpl. rewrite E2. simpl. rewrite E3. simpl. rewrite E4. simpl.
    rewrite E5. simpl. rewrite Hne. simpl. rewrite E6. simpl. rewrite E7. simpl.
    rewrite E8. simpl. fold url. rewrite E9. simpl. by rewrite E10.
Qed.

(** X14. The branch [commitAndPush] pushes is the one [git rev-parse]
    names, trimmed; when that lookup throws, the push goes to [main] and
    the method still returns [{committed: true}] with branch [main]. *)
Theorem push_falls_back_to_main owner repo message token :
  let dir := getRepoPath owner repo in
  let url := remote_url token owner repo in
  forall w w1 w2 w3 w4 w5 w6 w7 w8 w9 w10 status result err,
    exec _ (Open dir) w = (inl tt, w1) ->
    exec _ (AddConfig dir (lit "user.email") (lit "remote-dev@localhost")) w1
      = (inl tt, w2) ->
    exec _ (AddConfig dir (lit "user.name") (lit "Remote Dev System")) w2
      = (inl tt, w3) ->
    exec _ (Add dir (lit "-A")) w3 = (inl tt, w4) ->
    exec _ (Status dir) w4 = (inl status, w5) ->
    files status <> [] ->
    exec _ (Commit dir message) w5 = (inl result, w6) ->
    exec _ (Open dir) w6 = (inl tt, w7) ->
    exec _ (Revparse dir [lit "--abbrev-ref"; lit "HEAD"]) w7 = (inr err, w8) ->
    exec _ (Remote dir [lit "set-url"; lit "origin"; url]) w8 = (inl tt, w9) ->
    exec _ (Push dir (lit "origin") (lit "main")) w9 = (inl tt, w10) ->
    run (commitAndPush owner repo message token) w
      = (inl (Committed (commit result) (summary result) (lit "main")), w10,
         staging dir ++ publishing dir message url (lit "main")).
Proof.
  intros dir url w w1 w2 w3 w4 w5 w6 w7 w8 w9 w10 status result err
    E1 E2 E3 E4 E5 Hfiles E6 E7 E8 E9 E10.
  unfold_run. fold dir. simpl.
  rewrite E1. simpl. rewrite E2. simpl. rewrite E3. simpl. rewrite E4. simpl.
  rewrite E5. simpl.
  rewrite bool_decide_eq_false_2 by (by destruct (files status)). simpl.
  rewrite E6. simpl. rewrite E7. simpl. rewrite E8. simpl.
  fold url. rewrite E9. simpl. by rewrite E10.
Qed.

(** X15. [cloneOrPull] keeps its two branches apart, whatever happens:
    when the path exists it never creates a directory and never clones,
    when it does not exist it never pulls, and this also holds for the
    calls that end in an error. When the path exists and both pulls fail,
    the error raised is the one of the second pull, of [master]. *)
Theorem cloneOrPull_branches owner repo token :
  let dir := getRepoPath owner repo in
  (forall w r w' log,
      run (cloneOrPull owner repo token) w = (r, w', log) ->
      ((exec _ (ExistsSync dir) w).1 = inl true ->
       existsb is_clone log = false /\ existsb is_mkdir log = false) /\
      ((exec _ (ExistsSync dir) w).1 = inl false ->
       existsb is_pull log = false)) /\
  (forall w w1 w2 w3 w4 err1 err2,
      exec _ (ExistsSync dir) w = (inl true, w1) ->
      exec _ (Open dir) w1 = (inl tt, w2) ->
      exec _ (Pull dir (lit "origin") (lit "main")) w2 = (inr err1, w3) ->
      exec _ (Pull dir (lit "origin") (lit "master")) w3 = (inr err2, w4) ->
      run (cloneOrPull owner repo token) w
        = (inr err2, w4,
           [ask (ExistsSync dir); ask (Open dir);
            ask (Pull dir (lit "origin") (lit "main"));
            ask (Pull dir (lit "origin") (lit "master"))])).
Proof.
  intros dir. split.
  - intros w r w' log. unfold_run. fold dir. simpl.
    destruct (exec bool (ExistsSync dir) w) as [[[|]|e] w1] eqn:E1; simpl;
      intros Hrun.
    + split; [intros _|done].
      answer Hrun; injection Hrun as <- <- <-; done.
    + split; [done|intros _].
      destruct (exec bool (ExistsSync (path_dirname dir)) w1) as [[[|]|e] w2] eqn:E2;
        simpl in Hrun; answer Hrun; injection Hrun as <- <- <-; done.
    + split; done.
  - intros w w1 w2 w3 w4 err1 err2 E1 E2 E3 E4. unfold_run. fold dir. simpl.
    rewrite E1. simpl. rewrite E2. simpl. rewrite E3. simpl. by rewrite E4.
Qed.

End Facts.

Lemma commit_failures_witness :
  let d := Disk [alice_app] [lit "README.md"] [] 3 0 in
  let d' := Disk [alice_app] [] [lit "README.md"] 3 0 in
  let message := lit "[Remote Dev] Changes" in
  let token := lit "ghp_token" in
  let url := remote_url token (lit "alice") (lit "app") in
  run (Git.commitAndPush (faulty_exec (Faults true false false false)) join_slash root
         (lit "alice") (lit "app") message token) d
  = (inr (lit "pre-commit hook failed"), d',
     staging alice_app ++ [ask (Commit alice_app message)]) /\
  run (Git.commitAndPush (faulty_exec (Faults false true false false)) join_slash root
         (lit "alice") (lit "app") message token) d
  = (inr (lit "rejected: non-fast-forward"), Disk [alice_app] [] [] 4 0,
     staging alice_app ++ publishing alice_app message url (lit "main")).
Proof.
  intros d d' message token url.
  assert (Git.getRepoPath join_slash root (lit "alice") (lit "app") = alice_app)
    as Hp by (vm_compute; reflexivity).
  assert (trim (lit "main" ++ [10%N]) = lit "main") as Ht
    by (vm_compute; reflexivity).
  assert (files (StatusResult [lit "README.md"]) <> []) as Hf by discriminate.
  split.
  - pose proof (commit_failures (faulty_exec (Faults true false false false))
                  join_slash root (lit "alice") (lit "app") message token) as H.
    rewrite Hp in H.
    destruct (H d d d d d' d' (StatusResult [lit "README.md"])
                eq_refl eq_refl eq_refl eq_refl eq_refl Hf) as (Hcommit & _).
    apply Hcommit. vm_compute; reflexivity.
  - pose proof (commit_failures (faulty_exec (Faults false true false false))
                  join_slash root (lit "alice") (lit "app") message token) as H.
    rewrite Hp in H.
    destruct (H d d d d d' d' (StatusResult [lit "README.md"])
                eq_refl eq_refl eq_refl eq_refl eq_refl Hf) as (_ & Hpush).
    rewrite <- Ht.
    apply (Hpush (Disk [alice_app] [] [] 4 0) (Disk [alice_app] [] [] 4 0)
             (Disk [alice_app] [] [] 4 0) (Disk [alice_app] [] [] 4 0)
             (Disk [alice_app] [] [] 4 0) (CommitResult (lit "abc1234") Null));
      vm_compute; reflexivity.
Defined.

Lemma push_falls_back_to_main_witness :
  let d := Disk [alice_app] [lit "README.md"] [] 3 0 in
  let message := lit "[Remote Dev] Changes" in
  let token := lit "ghp_token" in
  let url := remote_url token (lit "alice") (lit "app") in
  run (Git.commitAndPush (faulty_exec (Faults false false true false)) join_slash root
         (lit "alice") (lit "app") message token) d
  = (inl (Committed (lit "abc1234") Null (lit "main")), Disk [alice_app] [] [] 4 1,
     staging alice_app ++ publishing alice_app message url (lit "main")).
Proof.
  intros d message token url.
  assert (Git.getRepoPath join_slash root (lit "alice") (lit "app") = alice_app)
    as Hp by (vm_compute; reflexivity).
  pose proof (push_falls_back_to_main (faulty_exec (Faults false false true false))
                join_slash root (lit "alice") (lit "app") message token) as H.
  rewrite Hp in H.
  apply (H d d d d (Disk [alice_app] [] [lit "README.md"] 3 0)
           (Disk [alice_app] [] [lit "README.md"] 3 0)
           (Disk [alice_app] [] [] 4 0) (Disk [alice_app] [] [] 4 0)
           (Disk [alice_app] [] [] 4 0) (Disk [alice_app] [] [] 4 0)
           (Disk [alice_app] [] [] 4 1)
           (StatusResult [lit "README.md"]) (CommitResult (lit "abc1234") Null)
           (lit "ambiguous argument HEAD"));
    solve [vm_compute; reflexivity | vm_compute; discriminate].
Defined.

Lemma cloneOrPull_branches_witness :
  let d := Disk [alice_app] [] [] 0 0 in
  let token := lit "ghp_token" in
  (forall r d' log,
      run (Git.cloneOrPull disk_exec join_slash dirname_slash root
             (lit "alice") (lit "app") token) d = (r, d', log) ->
      existsb is_clone log = false /\ existsb is_mkdir log = false) /\
  run (Git.cloneOrPull (faulty_exec (Faults false false false true)) join_slash
         dirname_slash root (lit "alice") (lit "app") token) d
  = (inr (lit "could not find remote ref master"), d,
     [ask (ExistsSync alice_app); ask (Open alice_app);
      ask (Pull alice_app (lit "origin") (lit "main"));
      ask (Pull alice_app (lit "origin") (lit "master"))]).
Proof.
  intros d token.
  assert (Git.getRepoPath join_slash root (lit "alice") (lit "app") = alice_app)
    as Hp by (vm_compute; reflexivity).
  split.
  - intros r d' log Hrun.
    destruct (cloneOrPull_branches disk_exec join_slash dirname_slash root
                (lit "alice") (lit "app") token) as (Hany & _).
    destruct (Hany d r d' log Hrun) as (Hthere & _).
    apply Hthere. vm_compute; reflexivity.
  - destruct (cloneOrPull_branches (faulty_exec (Faults false false false true))
                join_slash dirname_slash root (lit "alice") (lit "app") token)
      as (_ & Hfail).
    rewrite Hp in Hfail.
    apply (Hfail d d d d d (lit "could not find remote ref main"));
      vm_compute; reflexivity.
Defined.

End GitMore.

(* ===================================================================== *)
(** * Properties of history, rollback and diff *)
(* ===================================================================== *)

Module GitHistoryFacts.
Import JS GitHistory.

Section Facts.
Context {world : Type}.
Variable exec : forall A, command A -> world -> (A + list N) * world.
Variable path_join : list (list N) -> list N.
Variable reposDir : list N.

Abbreviation getRepoPath := (Git.getRepoPath path_join reposDir).
Abbreviation getCommitHistory := (GitHistory.getCommitHistory exec path_join reposDir).
Abbreviation rollbackToCommit := (GitHistory.rollbackToCommit exec path_join reposDir).
Abbreviation getCommitDiff := (GitHistory.getCommitDiff exec path_join reposDir).

Ltac answer H :=
  repeat match type of H with
         | context [exec ?A ?c ?w] =>
             let E := fresh "E" in
             destruct (exec A c w) as [[?|?] ?] eqn:E; simpl in H
         end.

Ltac unfold_run :=
  unfold run, GitHistory.getCommitHistory, GitHistory.rollbackToCommit,
    GitHistory.getCommitDiff, bind, call, ret, lift, base_exec,
    Git.getDefaultBranch, Git.bind, Git.catch, Git.call, Git.ret.


(** X17. A repository that was never cloned is an empty history, not an
    error: when the path does not exist [getCommitHistory] returns [[]]
    after that one look at the file system. [getCommitDiff] and
    [rollbackToCommit] do not look: they raise what [simpleGit] throws on
    the missing directory, and make no other call. *)
Theorem uncloned_repository owner repo limit commitHash token w w1 w2 err :
  let dir := getRepoPath owner repo in
  exec _ (Base (Git.ExistsSync dir)) w = (inl false, w1) ->
  exec _ (Base (Git.Open dir)) w = (inr err, w2) ->
  run (getCommitHistory owner repo limit) w
    = (inl [], w1, [ask (Base (Git.ExistsSync dir))]) /\
  run (getCommitDiff owner repo commitHash) w
    = (inr err, w2, [ask (Base (Git.Open dir))]) /\
  run (rollbackToCommit owner repo commitHash token) w
    = (inr err, w2, [ask (Base (Git.Open dir))]).
Proof.
  intros dir E1 E2. unfold_run. fold dir. simpl.
  rewrite E1, E2. done.
Qed.

(** X18. What [getCommitHistory] returns for a cloned repository follows
    [git log]: one record for each entry, in the same order, with the
    entry's hash, message, date and author name, and a [shortHash] that is
    the first seven code units of the hash. The log is asked for at most
    [limit] entries, and nothing is called after it. *)
Theorem history_follows_log owner repo limit w r w' log :
  let dir := getRepoPath owner repo in
  run (getCommitHistory owner repo limit) w = (r, w', log) ->
  (exec _ (Base (Git.ExistsSync dir)) w).1 = inl true ->
  forall records, r = inl records ->
    exists w2 entries,
      exec _ (Log dir limit) w2 = (inl entries, w') /\
      log = [ask (Base (Git.ExistsSync dir)); ask (Base (Git.Open dir));
             ask (Log dir limit)] /\
      length records = length entries /\
      (forall i rec, records !! i = Some rec ->
         exists e, entries !! i = Some e /\
           c_hash rec = hash e /\ shortHash rec = take 7 (hash e) /\
           c_message rec = message e /\ c_date rec = date e /\
           author rec = author_name e).
Proof.
  intros dir. unfold_run. fold dir. simpl.
  destruct (exec bool (Base (Git.ExistsSync dir)) w) as [[there|e0] w0] eqn:E0;
    simpl; intros Hrun Hthere; [|done].
  injection Hthere as ->. simpl in Hrun.
  destruct (exec unit (Base (Git.Open dir)) w0) as [[[]|e1] w1] eqn:E1;
    simpl in Hrun; [|by injection Hrun as <- <- <-].
  destruct (exec (list log_entry) (Log dir limit) w1) as [[entries|e2] w2] eqn:E2;
    simpl in Hrun; injection Hrun as <- <- <-; [|done].
  intros records [= <-]. exists w1, entries.
  split_and!; [done|done|by rewrite length_fmap|].
  intros i rec Hi. rewrite list_lookup_fmap in Hi.
  destruct (entries !! i) as [e|]; [|done].
  injection Hi as <-. by exists e.
Qed.

End Facts.


Lemma uncloned_repository_witness :
  let r0 := Repo [] [] None in
  let err := lit "Cannot use simple-git on a directory that does not exist" in
  run (GitHistory.getCommitHistory repo_exec Git.join_slash Git.root
         (lit "alice") (lit "app") 20) r0
    = (inl [], r0, [ask (Base (Git.ExistsSync Git.alice_app))]) /\
  run (GitHistory.getCommitDiff repo_exec Git.join_slash Git.root
         (lit "alice") (lit "app") (hash commit_b)) r0
    = (inr err, r0, [ask (Base (Git.Open Git.alice_app))]) /\
  run (GitHistory.rollbackToCommit repo_exec Git.join_slash Git.root
         (lit "alice") (lit "app") (hash commit_b) (lit "ghp_token")) r0
    = (inr err, r0, [ask (Base (Git.Open Git.alice_app))]).
Proof.
  intros r0 err.
  assert (Git.getRepoPath Git.join_slash Git.root (lit "alice") (lit "app")
          = Git.alice_app) as Hp by (vm_compute; reflexivity).
  pose proof (uncloned_repository repo_exec Git.join_slash Git.root
                (lit "alice") (lit "app") 20 (hash commit_b) (lit "ghp_token")
                r0 r0 r0 err) as H.
  rewrite Hp in H. apply H; vm_compute; reflexivity.
Defined.

Lemma history_follows_log_witness :
  let r0 := Repo [Git.alice_app] [commit_c; commit_b; commit_a] None in
  exists w2 entries e,
    repo_exec _ (Log Git.alice_app 2) w2 = (inl entries, r0) /\
    entries !! 0%nat = Some e /\
    lit "c3c3c3c" = take 7 (hash e).
Proof.
  intros r0.
  destruct (run (GitHistory.getCommitHistory repo_exec Git.join_slash Git.root
                   (lit "alice") (lit "app") 2) r0) as [[r w'] log] eqn:Hrun.
  pose proof (history_follows_log repo_exec Git.join_slash Git.root
                (lit "alice") (lit "app") 2 r0 r w' log Hrun) as H.
  pose proof Hrun as Hc. vm_compute in Hc.
  injection Hc as Hr Hw Hl. subst r w' log.
  destruct (H ltac:(vm_compute; reflexivity) _ eq_refl)
    as (w2 & entries & Hlog & _ & _ & Hrec).
  destruct (Hrec 0%nat _ eq_refl) as (e & He & _ & Hs & _).
  exists w2, entries, e. split_and!; [exact Hlog|exact He|].
  rewrite <- Hs. vm_compute. reflexivity.
Defined.

End GitHistoryFacts.

(* ===================================================================== *)
(** * Further properties of the client connection manager *)
(* ===================================================================== *)

Module ClientMore.
Import JS Client ClientInv.

#[local] Arguments lit : simpl never.

Implicit Types (st : state) (h : nat) (l : list nat).

Lemma responseType_not_error kind : responseType kind <> lit "error".
Proof.
  intros E. apply (f_equal length) in E. unfold responseType in E.
  rewrite length_app in E.
  change (length (lit "_result")) with 7 in E.
  change (length (lit "error")) with 5 in E. lia.
Qed.

Lemma responseType_not_wildcard kind : responseType kind <> lit "*".
Proof.
  intros E. apply (f_equal length) in E. unfold responseType in E.
  rewrite length_app in E.
  change (length (lit "_result")) with 7 in E.
  change (length (lit "*")) with 1 in E. lia.
Qed.

Lemma error_not_wildcard : lit "error" <> lit "*".
Proof. intros E. apply (f_equal length) in E. vm_compute in E. discriminate. Qed.

(** *** Subscriptions *)

Lemma remove_first_absent h l : h ∉ l -> remove_first h l = l.
Proof.
  induction l as [|x l IH]; [done|]. intros Hin. simpl.
  apply not_elem_of_cons in Hin as [Hx Hl].
  rewrite decide_False by done. by rewrite IH.
Qed.

Lemma remove_first_snoc h l : h ∉ l -> remove_first h (l ++ [h]) = l.
Proof.
  induction l as [|x l IH]; intros Hin; simpl.
  - by rewrite decide_True.
  - apply not_elem_of_cons in Hin as [Hx Hl].
    rewrite decide_False by done. by rewrite IH.
Qed.

(** X19. Subscribing and unsubscribing is a round trip. [onMessage] puts
    the handler last in the array of its type, after the handlers that
    were there; calling the function it returned takes exactly that
    handler out again, and the hook is as it was, except that the type now
    has an array, possibly empty, which is never removed. *)
Theorem subscription_round_trip st type h :
  h ∉ handlers st type ->
  handlers (onMessage st type h) type = handlers st type ++ [h] /\
  unsubscribe (onMessage st type h) type h
  = with_handlers st (<[type := handlers st type]> (messageHandlers st)).
Proof.
  intros Hin. unfold handlers, unsubscribe, onMessage in *. simpl. split.
  - by rewrite lookup_insert_eq.
  - rewrite alter_insert_eq, remove_first_snoc by done.
    done.
Qed.

(** *** Transports *)

Lemma send_closed st type payload :
  current_state st <> Some OPEN -> send st type payload = (false, st).
Proof.
  unfold current_state, send. intros H.
  destruct (wsRef st) as [w|]; simpl in *; [|done].
  destruct (sockets st !! w) as [s|]; simpl in *; [|done].
  destruct (decide (readyState s = OPEN)) as [E|]; [|done].
  by rewrite E in H.
Qed.

(** X20. The close of a transport the hook no longer holds makes it
    forget the one it holds. [ws.onclose] clears [wsRef] without looking
    at which socket closed: when socket [w0] closes while [wsRef] holds
    the open socket [w1], that socket stays open but [send], which worked
    before, now returns [false] and sends nothing, and the next [connect]
    opens a further socket, so that two transports are live at once. *)
Theorem stale_close_forgets_transport st w0 w1 s code type payload :
  wsRef st = Some w1 -> sockets st !! w1 = Some s -> readyState s = OPEN ->
  w0 <> w1 ->
  let st1 := on_close st w0 code in
  let st2 := connect st1 None in
  (send st type payload).1 = true /\
  sockets st1 !! w1 = Some s /\
  send st1 type payload = (false, st1) /\
  exists w2, wsRef st2 = Some w2 /\ w2 <> w1 /\ w1 ∈ live st2 /\ w2 ∈ live st2.
Proof.
  intros Hw Hs Ho Hne st1 st2.
  assert (sockets st1 !! w1 = Some s) as Hs1.
  { subst st1. unfold on_close.
    destruct (decide (code = 1000%Z)); simpl; by rewrite lookup_alter_ne. }
  assert (wsRef st1 = None) as Hw1.
  { subst st1. unfold on_close. by destruct (decide (code = 1000%Z)). }
  assert (current_state st1 = None) as Hc.
  { unfold current_state. by rewrite Hw1. }
  split_and!.
  - unfold send. rewrite Hw, Hs. by rewrite decide_True.
  - done.
  - apply send_closed. by rewrite Hc.
  - destruct (ClientFacts.connect_opens st1) as (Hw2 & Hs2 & _);
      [by rewrite Hc|by rewrite Hc|].
    fold st2 in Hw2, Hs2.
    exists (fresh (dom (sockets st1))).
    assert (fresh (dom (sockets st1)) <> w1) as Hfresh.
    { intros E. apply (is_fresh (dom (sockets st1))). rewrite E.
      apply elem_of_dom. by exists s. }
    split_and!; [done|done| |].
    + unfold live. apply elem_of_dom. exists s.
      apply map_lookup_filter_Some. split.
      * rewrite Hs2. by rewrite lookup_insert_ne.
      * simpl. unfold is_live. by rewrite Ho.
    + unfold live. apply elem_of_dom. eexists.
      apply map_lookup_filter_Some. split.
      * rewrite Hs2. by rewrite lookup_insert_eq.
      * done.
Qed.

(** *** [request] *)

Lemma send_open_socket st w s type payload :
  wsRef st = Some w -> sockets st !! w = Some s -> readyState s = OPEN ->
  send st type payload
  = (true, with_sockets st
             (<[w := Socket OPEN (url s) (frames s ++ [frame type payload])]>
                (sockets st))).
Proof.
  intros Hw Hs Ho. unfold send. rewrite Hw, Hs. by rewrite decide_True.
Qed.

Lemma fresh_handles st (c : closure) :
  let h1 := fresh (dom (closures st)) in
  let h2 := fresh (dom (<[h1 := c]> (closures st))) in
  (h1 ∉ dom (closures st)) /\ (h2 ∉ dom (closures st)) /\ h2 <> h1.
Proof.
  intros h1 h2.
  pose proof (is_fresh (dom (closures st))) as H1.
  pose proof (is_fresh (dom (<[h1 := c]> (closures st)))) as H2.
  fold h1 in H1. fold h2 in H2. rewrite dom_insert_L in H2.
  apply not_elem_of_union in H2 as [H2 H3].
  split_and!; [done|done|]. intros E. apply H2. by apply elem_of_singleton.
Qed.

(** X21. A request made while the hook has no open transport fails at
    once and leaves nothing behind: its promise is rejected with
    [Not connected], its timer is cleared, nothing is handed to a socket,
    and every handler array holds what it held before. *)
Theorem request_offline st type payload :
  current_state st <> Some OPEN -> known st ->
  let r := (request st type payload).1 in
  let st' := (request st type payload).2 in
  (r ∉ dom (requests st)) /\
  settled <$> requests st' !! r = Some (Rejected (lit "Not connected")) /\
  armed <$> requests st' !! r = Some false /\
  sockets st' = sockets st /\ wsRef st' = wsRef st /\
  forall t, handlers st' t = handlers st t.
Proof.
  intros Hc Hk. unfold request. cbv zeta.
  rewrite send_closed by exact Hc. cbn [fst snd].
  set (r := fresh (dom (requests st))).
  set (h1 := fresh (dom (closures st))).
  set (h2 := fresh (dom (<[h1 := OnResult r]> (closures st)))).
  destruct (fresh_handles st (OnResult r)) as (F1 & F2 & F3).
  fold h1 in F1, F2, F3. fold h2 in F2, F3.
  split_and!.
  - apply is_fresh.
  - unfold settle_request, unsubscribe, clearTimeout, onMessage. simpl.
    rewrite !lookup_alter_eq, lookup_insert_eq. done.
  - unfold settle_request, unsubscribe, clearTimeout, onMessage. simpl.
    rewrite !lookup_alter_eq, lookup_insert_eq. done.
  - done.
  - done.
  - intros t. unfold handlers, settle_request, unsubscribe, clearTimeout, onMessage.
    simpl.
    assert (h1 ∉ handlers st (responseType type)) as N1.
    { intros Hin. by apply F1, (Hk (responseType type)). }
    assert (h2 ∉ handlers st (lit "error")) as N2.
    { intros Hin. by apply F2, (Hk (lit "error")). }
    unfold handlers in N1, N2.
    pose proof (responseType_not_error type) as Hne.
    destruct (decide (t = lit "error")) as [->|Ht1].
    + rewrite lookup_alter_eq, lookup_alter_ne by done.
      rewrite lookup_insert_eq, lookup_insert_ne by done. simpl.
      by rewrite remove_first_snoc.
    + rewrite lookup_alter_ne by done.
      destruct (decide (t = responseType type)) as [->|Ht2].
      * rewrite lookup_alter_eq, lookup_insert_ne, lookup_insert_eq by done.
        simpl. by rewrite remove_first_snoc.
      * by rewrite lookup_alter_ne, !lookup_insert_ne.
Qed.

(** *** Results *)

Lemma on_message_frame st t p :
  exists st2,
    on_message st (Some (frame t p)) = dispatch st2 t p (frame t p) /\
    messageHandlers st2 = messageHandlers st /\ closures st2 = closures st /\
    requests st2 = requests st /\ sockets st2 = sockets st /\
    wsRef st2 = wsRef st.
Proof.
  assert (get (frame t p) (lit "type") = Some (Str t)) as Ht by reflexivity.
  assert (get (frame t p) (lit "payload") = Some p) as Hp by reflexivity.
  unfold on_message. rewrite Ht, Hp. unfold handlers_for.
  destruct (is_str (Str t) (lit "auth_success"));
    [|destruct (is_str (Str t) (lit "auth_failed"))];
    (eexists; split; [reflexivity|done]).
Qed.

(** The application's handlers touch nothing of the hook. *)
Lemma forEach_subscribers n : forall i st t arg,
  subscribers_only st t ->
  messageHandlers (forEach n i t arg st).1 = messageHandlers st /\
  closures (forEach n i t arg st).1 = closures st /\
  requests (forEach n i t arg st).1 = requests st /\
  sockets (forEach n i t arg st).1 = sockets st /\
  wsRef (forEach n i t arg st).1 = wsRef st.
Proof.
  induction n as [|n IH]; intros i st t arg Hsub; [done|].
  cbn [forEach].
  destruct (default [] (messageHandlers st !! t) !! i) as [h|] eqn:Hi;
    [|by apply IH].
  destruct (Hsub h) as (tag & Hh).
  { unfold handlers. by eapply list_elem_of_lookup_2. }
  unfold invoke. rewrite Hh.
  apply (IH (S i) (with_delivered st (delivered st ++ [(tag, arg)])) t arg), Hsub.
Qed.

(** X22. A result frame settles the request it answers. After
    [request(kind, payload)] on an open transport, with nobody else
    listening for that kind, the frame [{type, payload}] went out and the
    promise is pending; when [{type: kind_result, payload: v}] comes in,
    which is the frame the server's dispatcher sends for a handler that
    returned [v], the promise resolves with [v], the timer is cleared and
    the result handler is gone. The error handler of the request is still
    in the [error] array: a request that succeeds never removes it. *)
Theorem result_resolves_request st w s kind payload v :
  wsRef st = Some w -> sockets st !! w = Some s -> readyState s = OPEN ->
  handlers st (responseType kind) = [] ->
  subscribers_only st (lit "*") ->
  let r := (request st kind payload).1 in
  let st1 := (request st kind payload).2 in
  let st2 := on_message st1 (Some (frame (responseType kind) v)) in
  frame (responseType kind) v = Server.msg_result (Str kind) v /\
  sockets st1
  = <[w := Socket OPEN (url s) (frames s ++ [frame kind payload])]> (sockets st) /\
  settled <$> requests st1 !! r = Some Pending /\
  settled <$> requests st2 !! r = Some (Resolved v) /\
  armed <$> requests st2 !! r = Some false /\
  handlers st2 (responseType kind) = [] /\
  exists h2, closures st2 !! h2 = Some (OnError r kind) /\
             handlers st2 (lit "error") = handlers st (lit "error") ++ [h2].
Proof.
  intros Hw Hs Ho Hnone Hsub. unfold request. cbv zeta.
  rewrite (send_open_socket _ w s) by done. cbn [fst snd].
  set (r := fresh (dom (requests st))).
  set (h1 := fresh (dom (closures st))).
  set (h2 := fresh (dom (<[h1 := OnResult r]> (closures st)))).
  destruct (fresh_handles st (OnResult r)) as (F1 & F2 & F3).
  fold h1 in F1, F2, F3. fold h2 in F2, F3.
  pose proof (responseType_not_error kind) as Hne.
  pose proof (responseType_not_wildcard kind) as Hnw.
  pose proof error_not_wildcard as Hew.
  set (rt := responseType kind) in *.
  set (M2 := <[lit "error" := handlers st (lit "error") ++ [h2]]>
               (<[rt := [h1]]> (messageHandlers st))).
  set (C2 := <[h2 := OnError r kind]> (<[h1 := OnResult r]> (closures st))).
  set (R1 := <[r := Request kind Pending true h1 h2]> (requests st)).
  match goal with
  | |- context [on_message ?x _] => set (st1 := x)
  end.
  assert (messageHandlers st1 = M2) as Hm1.
  { subst st1 M2. unfold onMessage. simpl. fold rt.
    rewrite lookup_insert_ne by done. unfold handlers in Hnone. rewrite Hnone.
    done. }
  assert (closures st1 = C2) as Hc1 by done.
  assert (requests st1 = R1) as Hr1 by done.
  destruct (on_message_frame st1 rt v) as (st2 & -> & Hm & Hc & Hr & _ & _).
  rewrite Hm1 in Hm. rewrite Hc1 in Hc. rewrite Hr1 in Hr.
  unfold dispatch.
  assert (handlers st2 rt = [h1]) as Hrt.
  { unfold handlers. rewrite Hm. subst M2.
    by rewrite lookup_insert_ne, lookup_insert_eq. }
  rewrite Hrt. cbn [length forEach].
  unfold handlers in Hrt. rewrite Hrt. cbn [lookup list_lookup].
  unfold invoke.
  rewrite Hc. subst C2. rewrite lookup_insert_ne, lookup_insert_eq by done.
  rewrite Hr. subst R1. rewrite lookup_insert_eq.
  cbn [req_type].
  match goal with
  | |- context [forEach _ 0 (lit "*") _ ?x] => set (st3 := x)
  end.
  assert (messageHandlers st3 = alter (remove_first h1) rt M2) as Hm3.
  { subst st3. unfold settle_request, unsubscribe, clearTimeout. simpl.
    by rewrite Hm. }
  assert (closures st3 = closures st2) as Hc3 by done.
  assert (subscribers_only st3 (lit "*")) as Hsub3.
  { intros h Hin. unfold handlers in Hin. rewrite Hm3 in Hin. subst M2.
    rewrite lookup_alter_ne, !lookup_insert_ne in Hin by done.
    destruct (Hsub h Hin) as (tag & Hh). exists tag.
    rewrite Hc3, Hc.
    assert (h ∈ dom (closures st)) as Hd by (apply elem_of_dom; eauto).
    rewrite !lookup_insert_ne by (intros ->; done). done. }
  destruct (forEach_subscribers (length (handlers st3 (lit "*"))) 0 st3
              (lit "*") (frame rt v) Hsub3) as (Gm & Gc & Gr & _ & _).
  match type of Gr with requests ?x = _ => set (st4 := x) in * end.
  split_and!.
  - done.
  - done.
  - rewrite Hr1. by rewrite lookup_insert_eq.
  - rewrite Gr. subst st3. unfold settle_request, unsubscribe, clearTimeout.
    simpl. rewrite Hr, !lookup_alter_eq, lookup_insert_eq. done.
  - rewrite Gr. subst st3. unfold settle_request, unsubscribe, clearTimeout.
    simpl. rewrite Hr, !lookup_alter_eq, lookup_insert_eq. done.
  - unfold handlers. rewrite Gm, Hm3. subst M2.
    rewrite lookup_alter_eq, lookup_insert_ne, lookup_insert_eq by done.
    simpl. by rewrite decide_True.
  - exists h2. split.
    + rewrite Gc, Hc3, Hc. by rewrite lookup_insert_eq.
    + unfold handlers at 1. rewrite Gm, Hm3. subst M2.
      by rewrite lookup_alter_ne, lookup_insert_eq.
Qed.

(** *** Several requests of one kind *)

Lemma evens_subseteq {A} (l : list A) :
  (forall a, a ∈ evens l -> a ∈ l) /\
  (forall x a, a ∈ evens (x :: l) -> a ∈ x :: l).
Proof.
  induction l as [|y l [IH1 IH2]]; split.
  - done.
  - done.
  - intros a. by apply IH2.
  - intros x a. cbn [evens]. intros [->|Hin]%elem_of_cons.
    + apply list_elem_of_here.
    + do 2 apply list_elem_of_further. by apply IH1.
Qed.

Lemma remove_first_middle h l1 l2 :
  h ∉ l1 -> remove_first h (l1 ++ h :: l2) = l1 ++ l2.
Proof.
  induction l1 as [|x l1 IH]; intros Hin; simpl.
  - by rewrite decide_True.
  - apply not_elem_of_cons in Hin as [Hx Hl].
    rewrite decide_False by done. by rewrite IH.
Qed.

Lemma forEach_past n : forall i st t arg,
  length (handlers st t) <= i -> forEach n i t arg st = (st, None).
Proof.
  induction n as [|n IH]; intros i st t arg Hlen; [done|].
  cbn [forEach]. unfold handlers in Hlen.
  rewrite lookup_ge_None_2 by done. apply IH. unfold handlers. lia.
Qed.

Lemma awaiting_Some st kind h r :
  awaiting st kind h = Some r ->
  exists q, closures st !! h = Some (OnResult r) /\
            requests st !! r = Some q /\ req_type q = kind.
Proof.
  unfold awaiting. destruct (closures st !! h) as [[r'| |]|]; try done.
  destruct (requests st !! r') as [q|] eqn:Hq; [|done].
  case_bool_decide as Hk; [|done]. intros [= <-]. by exists q.
Qed.

Lemma awaiting_later st st' kind r hs rs :
  closures st' = closures st ->
  (forall r', r' <> r -> requests st' !! r' = requests st !! r') ->
  r ∉ rs ->
  Forall2 (fun h r' => awaiting st kind h = Some r') hs rs ->
  Forall2 (fun h r' => awaiting st' kind h = Some r') hs rs.
Proof.
  intros Hc Hr Hin H. induction H as [|h r' hs rs Hh H IH]; [constructor|].
  apply not_elem_of_cons in Hin as [Hne Hin].
  constructor; [|by apply IH].
  unfold awaiting in *. rewrite Hc.
  destruct (closures st !! h) as [[r''| |]|]; try done.
  destruct (requests st !! r'') as [q|] eqn:Hq; [|done].
  case_bool_decide; [|done]. injection Hh as ->.
  rewrite Hr, Hq by done. by rewrite bool_decide_eq_true_2.
Qed.

(** One result handler runs: it takes itself out of the array of its
    kind and settles its request. *)
Lemma invoke_result st kind h r v :
  awaiting st kind h = Some r ->
  exists st',
    invoke st h v = (st', None) /\
    messageHandlers st'
    = alter (remove_first h) (responseType kind) (messageHandlers st) /\
    closures st' = closures st /\
    requests st' !! r = resolved v <$> requests st !! r /\
    (forall r', r' <> r -> requests st' !! r' = requests st !! r').
Proof.
  intros (q & Hh & Hq & <-)%awaiting_Some. unfold invoke. rewrite Hh, Hq.
  eexists. split; [reflexivity|]. split_and!; [done|done| |].
  - unfold settle_request, unsubscribe, clearTimeout. simpl.
    rewrite !lookup_alter_eq, Hq. done.
  - intros r' Hne. unfold settle_request, unsubscribe, clearTimeout. simpl.
    by rewrite !lookup_alter_ne.
Qed.

Lemma forEach_every_other kind v n : forall done rest rs st,
  handlers st (responseType kind) = done ++ rest ->
  NoDup (done ++ rest) ->
  Forall2 (fun h r => awaiting st kind h = Some r) rest rs ->
  NoDup rs ->
  length rest <= n ->
  exists st',
    forEach n (length done) (responseType kind) v st = (st', None) /\
    handlers st' (responseType kind) = done ++ odds rest /\
    closures st' = closures st /\
    (forall t, t <> responseType kind ->
               messageHandlers st' !! t = messageHandlers st !! t) /\
    (forall r, r ∈ evens rs -> requests st' !! r = resolved v <$> requests st !! r) /\
    (forall r, r ∉ evens rs -> requests st' !! r = requests st !! r).
Proof.
  set (rt := responseType kind).
  induction n as [|n IH]; intros done rest rs st Hl Hnd Hrs Hndr Hlen.
  { destruct rest; [|simpl in Hlen; lia]. inversion Hrs; subst.
    exists st. split_and!; try done. intros r Hin. by apply elem_of_nil in Hin. }
  destruct Hrs as [|x rx rest rs Hx Hrs].
  { exists st. rewrite forEach_past by (rewrite Hl, app_nil_r; lia).
    split_and!; try done. intros r Hin. by apply elem_of_nil in Hin. }
  cbn [forEach]. unfold handlers in Hl. rewrite Hl.
  rewrite lookup_app_r, Nat.sub_diag by lia. cbn [lookup list_lookup].
  destruct (invoke_result st kind x rx v Hx) as (st1 & -> & Hm1 & Hc1 & Hr1 & Hr1').
  fold rt in Hm1.
  assert (x ∉ done) as Hxd.
  { apply NoDup_app in Hnd as (_ & Hd & _). intros Hin.
    apply (Hd x Hin), list_elem_of_here. }
  assert (handlers st1 rt = done ++ rest) as Hl1.
  { unfold handlers. rewrite Hm1, lookup_alter_eq.
    destruct (messageHandlers st !! rt) as [l|] eqn:Hml; simpl in *.
    - by rewrite Hl, remove_first_middle.
    - by destruct done. }
  assert (NoDup (done ++ rest)) as Hnd1.
  { apply NoDup_app in Hnd as (H1 & H2 & H3). apply NoDup_cons in H3 as [_ H3].
    apply NoDup_app. split_and!; [done| |done].
    intros a Ha Hr. apply (H2 a Ha). by apply list_elem_of_further. }
  apply NoDup_cons in Hndr as [Hrx Hndr].
  pose proof (awaiting_later st st1 kind rx rest rs Hc1 Hr1' Hrx Hrs) as Hrs1.
  destruct Hrs1 as [|y ry rest rs Hy Hrs1].
  { exists st1. rewrite forEach_past by (rewrite Hl1, app_nil_r; lia).
    split_and!.
    - done.
    - by rewrite Hl1.
    - done.
    - intros t Ht. by rewrite Hm1, lookup_alter_ne.
    - intros r Hin. apply list_elem_of_singleton in Hin as ->. done.
    - intros r Hin. apply Hr1'. intros ->. apply Hin, list_elem_of_here. }
  apply NoDup_cons in Hndr as [Hry Hndr].
  destruct (IH (done ++ [y]) rest rs st1) as (st2 & Hf & Hl2 & Hc2 & Hm2 & He & Ho).
  { by rewrite <- app_assoc. }
  { by rewrite <- app_assoc. }
  { apply (awaiting_later st st1 kind rx); try done.
    - intros Hin. apply Hrx. by apply list_elem_of_further.
    - inversion Hrs; subst. done. }
  { done. }
  { simpl in Hlen. lia. }
  rewrite length_app in Hf. simpl in Hf. rewrite Nat.add_1_r in Hf.
  exists st2. split_and!.
  - done.
  - rewrite Hl2. by rewrite <- app_assoc.
  - by rewrite Hc2.
  - intros t Ht. by rewrite Hm2, Hm1, lookup_alter_ne.
  - cbn [evens]. intros r [->|Hin]%elem_of_cons.
    + rewrite Ho; [done|]. intros Hin. apply Hrx.
      apply list_elem_of_further. by apply evens_subseteq.
    + rewrite He by done. rewrite Hr1'; [done|]. intros ->. apply Hrx.
      apply list_elem_of_further. by apply evens_subseteq.
  - cbn [evens]. intros r Hin. apply not_elem_of_cons in Hin as [Hne Hin].
    rewrite Ho by done. by apply Hr1'.
Qed.

(** X23. One result frame answers every other request of its kind. The
    result handlers of the requests in flight for one kind sit in one
    array, oldest first; each takes itself out when it runs, while
    [forEach] walks on by index. So a frame [{type: kind_result, payload:
    v}] resolves the first, third, fifth, ... of these requests with [v]
    and leaves the second, fourth, ... as they were, their handlers still
    in the array, and it changes no other request. *)
Theorem result_resolves_every_other st kind v l rs :
  handlers st (responseType kind) = l -> NoDup l ->
  Forall2 (fun h r => awaiting st kind h = Some r) l rs -> NoDup rs ->
  subscribers_only st (lit "*") ->
  let st' := on_message st (Some (frame (responseType kind) v)) in
  handlers st' (responseType kind) = odds l /\
  (forall r, r ∈ evens rs -> requests st' !! r = resolved v <$> requests st !! r) /\
  (forall r, r ∉ evens rs -> requests st' !! r = requests st !! r).
Proof.
  intros Hl Hnd Hrs Hndr Hsub st'. subst st'.
  pose proof (responseType_not_wildcard kind) as Hnw.
  set (rt := responseType kind) in *.
  destruct (on_message_frame st rt v) as (st2 & -> & Hm & Hc & Hr & _ & _).
  unfold dispatch.
  assert (handlers st2 rt = l) as Hl2 by (unfold handlers; by rewrite Hm).
  assert (Forall2 (fun h r => awaiting st2 kind h = Some r) l rs) as Hrs2.
  { unfold awaiting. rewrite Hc, Hr. exact Hrs. }
  destruct (forEach_every_other kind v (length l) [] l rs st2)
    as (st3 & Hf & Hl3 & Hc3 & Hm3 & He & Ho); try done.
  fold rt in Hf, Hl3, Hm3. rewrite Hl2. cbn [length] in Hf. rewrite Hf.
  assert (subscribers_only st3 (lit "*")) as Hsub3.
  { intros h Hin. unfold handlers in Hin. rewrite Hm3, Hm in Hin by done.
    rewrite Hc3, Hc. by apply Hsub. }
  destruct (forEach_subscribers (length (handlers st3 (lit "*"))) 0 st3
              (lit "*") (frame rt v) Hsub3) as (Gm & _ & Gr & _ & _).
  match type of Gr with requests ?x = _ => set (st4 := x) in * end.
  split_and!.
  - unfold handlers. rewrite Gm. exact Hl3.
  - intros r Hin. rewrite Gr, He by done. by rewrite Hr.
  - intros r Hin. rewrite Gr, Ho by done. by rewrite Hr.
Qed.

(** *** Error frames of the server *)

Lemma on_message_server_error st f :
  server_error f ->
  on_message st (Some f)
  = dispatch (with_status st (isConnected st) (isAuthenticated st) f (error st))
             (lit "error") Undefined f.
Proof. by intros []. Qed.

Lemma forEach_error_listeners n : forall i st,
  error_listeners st ->
  messageHandlers (forEach n i (lit "error") Undefined st).1 = messageHandlers st /\
  closures (forEach n i (lit "error") Undefined st).1 = closures st /\
  requests (forEach n i (lit "error") Undefined st).1 = requests st.
Proof.
  induction n as [|n IH]; intros i st Hl; [done|].
  cbn [forEach].
  destruct (default [] (messageHandlers st !! lit "error") !! i) as [h|] eqn:Hi;
    [|by apply IH].
  destruct (Hl h) as [(r & type & Hh)|(tag & Hh)].
  { unfold handlers. by eapply list_elem_of_lookup_2. }
  - unfold invoke. rewrite Hh. done.
  - unfold invoke. rewrite Hh.
    apply (IH (S i) (with_delivered st (delivered st ++ [(tag, Undefined)]))), Hl.
Qed.

(** X24. No error frame of the server rejects a request. The server puts
    [message] and [originalType] beside [type], not inside a [payload]
    (frames [Not authenticated], [Unknown message type], [Handler error],
    [Invalid message format]); the hook hands [message.payload], which is
    [undefined], to the handlers under [error], and the error handler of
    a request throws on reading [originalType] off it, which [onmessage]
    catches. So such a frame changes no request and no handler array: a
    request the server answers with an error stays pending until its
    timer fires. *)
Theorem server_errors_reject_nothing st f :
  server_error f -> error_listeners st -> subscribers_only st (lit "*") ->
  requests (on_message st (Some f)) = requests st /\
  messageHandlers (on_message st (Some f)) = messageHandlers st.
Proof.
  intros Hf Hl Hsub. rewrite on_message_server_error by done.
  set (st1 := with_status st (isConnected st) (isAuthenticated st) f (error st)).
  unfold dispatch.
  destruct (forEach_error_listeners (length (handlers st1 (lit "error"))) 0 st1 Hl)
    as (Hm & Hc & Hr).
  destruct (forEach (length (handlers st1 (lit "error"))) 0 (lit "error")
              Undefined st1) as [st3 [e|]]; simpl in Hm, Hc, Hr; [done|].
  assert (subscribers_only st3 (lit "*")) as Hsub3.
  { intros h Hin. unfold handlers in Hin. rewrite Hm in Hin. rewrite Hc.
    by apply Hsub. }
  destruct (forEach_subscribers (length (handlers st3 (lit "*"))) 0 st3
              (lit "*") f Hsub3) as (Gm & _ & Gr & _ & _).
  by rewrite Gm, Gr.
Qed.

Lemma subscription_round_trip_witness :
  let st := onMessage connected (lit "progress") 7 in
  handlers (onMessage st (lit "progress") 8) (lit "progress") = [7; 8] /\
  handlers (unsubscribe (onMessage st (lit "progress") 8) (lit "progress") 8)
           (lit "progress") = [7].
Proof.
  intros st.
  destruct (subscription_round_trip st (lit "progress") 8) as (H1 & H2).
  { apply (bool_decide_unpack (8 ∉ handlers st (lit "progress"))).
    vm_compute. exact I. }
  split.
  - rewrite H1. vm_compute. reflexivity.
  - rewrite H2. vm_compute. reflexivity.
Defined.

Lemma stale_close_forgets_transport_witness :
  let st1 := on_close remounted 0 1000 in
  (send remounted (lit "cancel") Null).1 = true /\
  send st1 (lit "cancel") Null = (false, st1) /\
  exists w2, wsRef (connect st1 None) = Some w2 /\ w2 <> 1 /\
             1 ∈ live (connect st1 None) /\ w2 ∈ live (connect st1 None).
Proof.
  intros st1.
  assert (exists s, sockets remounted !! 1 = Some s /\ readyState s = OPEN)
    as (s & Hs & Ho) by (eexists; split; vm_compute; reflexivity).
  assert (wsRef remounted = Some 1) as Hw by (vm_compute; reflexivity).
  assert (0 <> 1) as Hne by lia.
  destruct (stale_close_forgets_transport remounted 0 1 s 1000 (lit "cancel") Null
              Hw Hs Ho Hne) as (H1 & _ & H2 & H3).
  split_and!; [exact H1|exact H2|exact H3].
Defined.

Lemma request_offline_witness :
  let st := init (lit "https://laptop.example") (lit "s3cret") in
  let called := request st (lit "clone_repo") Null in
  settled <$> requests called.2 !! called.1 = Some (Rejected (lit "Not connected")) /\
  sockets called.2 = sockets st /\
  handlers called.2 (lit "error") = [].
Proof.
  intros st called.
  assert (current_state st <> Some OPEN) as Hc by (vm_compute; discriminate).
  assert (known st) as Hk.
  { intros type h Hin. unfold handlers in Hin. simpl in Hin.
    rewrite lookup_empty in Hin. by apply elem_of_nil in Hin. }
  pose proof (request_offline st (lit "clone_repo") Null Hc Hk) as H.
  cbv zeta in H. destruct H as (_ & Hr & _ & Hs & _ & Hh).
  split_and!; [exact Hr|exact Hs|].
  subst called. rewrite Hh. vm_compute. reflexivity.
Defined.

Lemma result_resolves_request_witness :
  let called := request connected (lit "clone_repo") Null in
  let answer := Obj [(lit "action", Str (lit "cloned"))] in
  let st2 := on_message called.2
               (Some (frame (responseType (lit "clone_repo")) answer)) in
  settled <$> requests called.2 !! called.1 = Some Pending /\
  settled <$> requests st2 !! called.1 = Some (Resolved answer) /\
  handlers st2 (responseType (lit "clone_repo")) = [] /\
  length (handlers st2 (lit "error")) = 1.
Proof.
  intros called answer st2.
  assert (exists s, sockets connected !! 0 = Some s /\ readyState s = OPEN)
    as (s & Hs & Ho) by (eexists; split; vm_compute; reflexivity).
  assert (wsRef connected = Some 0) as Hw by (vm_compute; reflexivity).
  assert (handlers connected (responseType (lit "clone_repo")) = []) as Hnone
    by (vm_compute; reflexivity).
  assert (subscribers_only connected (lit "*")) as Hsub.
  { intros h Hin. vm_compute in Hin. inversion Hin. }
  pose proof (result_resolves_request connected 0 s (lit "clone_repo") Null answer
                Hw Hs Ho Hnone Hsub) as H.
  cbv zeta in H. destruct H as (_ & _ & H1 & H2 & _ & H3 & h2 & _ & H4).
  split_and!; [exact H1|exact H2|exact H3|].
  subst st2 called. rewrite H4. rewrite length_app. vm_compute. reflexivity.
Defined.

Lemma result_resolves_every_other_witness :
  let kind := lit "execute_command" in
  let v := Obj [(lit "success", Bool true)] in
  let st' := on_message three_in_flight (Some (frame (responseType kind) v)) in
  handlers three_in_flight (responseType kind) = [0; 2; 4] /\
  handlers st' (responseType kind) = [2] /\
  settled <$> requests st' !! 0 = Some (Resolved v) /\
  settled <$> requests st' !! 1 = Some Pending /\
  settled <$> requests st' !! 2 = Some (Resolved v).
Proof.
  intros kind v st'.
  assert (handlers three_in_flight (responseType kind) = [0; 2; 4]) as Hl
    by (vm_compute; reflexivity).
  assert (NoDup [0; 2; 4]) as Hnd
    by (apply (bool_decide_unpack (NoDup [0; 2; 4])); vm_compute; exact I).
  assert (NoDup [0; 1; 2]) as Hndr
    by (apply (bool_decide_unpack (NoDup [0; 1; 2])); vm_compute; exact I).
  assert (Forall2 (fun h r => awaiting three_in_flight kind h = Some r)
                  [0; 2; 4] [0; 1; 2]) as Hrs
    by (repeat constructor; vm_compute; reflexivity).
  assert (subscribers_only three_in_flight (lit "*")) as Hsub.
  { intros h Hin. vm_compute in Hin. inversion Hin. }
  destruct (result_resolves_every_other three_in_flight kind v [0; 2; 4] [0; 1; 2]
              Hl Hnd Hrs Hndr Hsub) as (H1 & He & Ho).
  fold st' in H1, He, Ho.
  split_and!; [exact Hl|exact H1|..].
  - rewrite He; [vm_compute; reflexivity|].
    apply (bool_decide_unpack (0 ∈ evens [0; 1; 2])). vm_compute. exact I.
  - rewrite Ho; [vm_compute; reflexivity|].
    apply (bool_decide_unpack (1 ∉ evens [0; 1; 2])). vm_compute. exact I.
  - rewrite He; [vm_compute; reflexivity|].
    apply (bool_decide_unpack (2 ∈ evens [0; 1; 2])). vm_compute. exact I.
Defined.

Lemma server_errors_reject_nothing_witness :
  let called := request connected (lit "rollback") Null in
  let f := Server.msg_handler_error (Str (lit "rollback")) (lit "unknown revision") in
  settled <$> requests (on_message called.2 (Some f)) !! called.1 = Some Pending /\
  handlers (on_message called.2 (Some f)) (lit "error") = [1].
Proof.
  intros called f.
  assert (error_listeners called.2) as Hl.
  { intros h Hin. vm_compute in Hin. apply list_elem_of_singleton in Hin as ->.
    left. eexists _, _. vm_compute. reflexivity. }
  assert (subscribers_only called.2 (lit "*")) as Hsub.
  { intros h Hin. vm_compute in Hin. inversion Hin. }
  destruct (server_errors_reject_nothing called.2 f (HandlerError _ _) Hl Hsub)
    as (Hr & Hm).
  split.
  - rewrite Hr. vm_compute. reflexivity.
  - unfold handlers. rewrite Hm. vm_compute. reflexivity.
Defined.

End ClientMore.
